(** * Vertex Group Renamer: rule resolution, merge, mirror and undo

    A shallow embedding of [vertex_group_renamer_v1-3-3.py] and the
    properties of its rule store, prefix resolver, consolidation (rename and
    merge), mirror and undo code.

    Conventions of the embedding.
    - A Python [dict] is an association list in insertion order with unique
      keys ([dict_set] overwrites in place or appends, as [d[k] = v] does).
    - A host collection ([obj.vertex_groups], [armature.data.bones],
      [bpy.data.objects]) is a list in collection order; a reference to a
      member is its index in that list.
    - Strings are lists of 8-bit characters; [str.lower] is the ASCII one.
    - Weights are exact rationals ([Q]): the rounding of the host's floats is
      outside the model.
    - What the host does by itself where the add-on relies on it is part of
      the model: it keeps weights between 0 and 1, and the vertex groups of
      the objects that an armature deforms follow a bone that is renamed.
    - A host exception that the add-on does not catch aborts the operator;
      functions that can meet one return [option].
    - The preset file is a value: the table it holds, if it holds one, and
      whether it can be written. The add-on's globals and scene properties
      are fields of one state that the preset operators pass on. *)

From Stdlib Require Import Ascii QArith.
From stdpp Require Import base option list strings gmap pretty.

Set Warnings "-clear-no-such-hyp".

(** ** Strings *)

(** [c.lower()] on one character: [A]..[Z] go to [a]..[z]. *)
Definition lower_ascii (c : ascii) : ascii :=
  let n := nat_of_ascii c in
  if decide (65 ≤ n ∧ n ≤ 90) then ascii_of_nat (n + 32) else c.

(** [s.lower()] *)
Fixpoint lower (s : string) : string :=
  match s with
  | EmptyString => EmptyString
  | String c s' => String (lower_ascii c) (lower s')
  end.

(** [s.startswith(p)] *)
Fixpoint startswith (s p : string) {struct p} : bool :=
  match p with
  | EmptyString => true
  | String c p' =>
      match s with
      | EmptyString => false
      | String d s' => if decide (c = d) then startswith s' p' else false
      end
  end.

(** [s[n:]] *)
Fixpoint drop_chars (n : nat) (s : string) : string :=
  match n, s with
  | O, _ => s
  | S n', String _ s' => drop_chars n' s'
  | S _, EmptyString => EmptyString
  end.

(** [s.endswith(p)] *)
Definition endswith (s p : string) : bool :=
  bool_decide (String.length p ≤ String.length s)
  && bool_decide (drop_chars (String.length s - String.length p) s = p).

(** The characters [str.strip] removes, among the ASCII ones: tab, line
    feed, vertical tab, form feed, carriage return, the four separators
    [0x1c] to [0x1f] and the space. *)
Definition is_space (c : ascii) : bool :=
  let n := nat_of_ascii c in
  bool_decide (9 ≤ n ∧ n ≤ 13) || bool_decide (28 ≤ n ∧ n ≤ 32).

(** [s.lstrip()] *)
Fixpoint lstrip (s : string) : string :=
  match s with
  | EmptyString => EmptyString
  | String c s' => if is_space c then lstrip s' else s
  end.

(** [s.rstrip()] *)
Fixpoint rstrip (s : string) : string :=
  match s with
  | EmptyString => EmptyString
  | String c s' =>
      match rstrip s' with
      | EmptyString => if is_space c then EmptyString else String c EmptyString
      | rest => String c rest
      end
  end.

(** [s.strip()] *)
Definition strip (s : string) : string := rstrip (lstrip s).

(** [s.replace(old, new)] for [old] and [new] of one character each. *)
Fixpoint replace_char (old new : ascii) (s : string) : string :=
  match s with
  | EmptyString => EmptyString
  | String c s' =>
      String (if decide (c = old) then new else c) (replace_char old new s')
  end.

(** ** Python dictionaries, in insertion order *)

Section dict.
Context {K V : Type} `{EqDecision K}.

Definition dict_keys (d : list (K * V)) : list K := d.*1.

(** [d.get(k)], and [d[k]] where the code has checked [k in d]. *)
Fixpoint dict_get (d : list (K * V)) (k : K) : option V :=
  match d with
  | [] => None
  | (k', v) :: d' => if decide (k' = k) then Some v else dict_get d' k
  end.

(** [k in d] *)
Definition dict_in (d : list (K * V)) (k : K) : bool :=
  bool_decide (is_Some (dict_get d k)).

(** [d[k] = v]: a present key keeps its position, a new one goes last. *)
Fixpoint dict_set (d : list (K * V)) (k : K) (v : V) : list (K * V) :=
  match d with
  | [] => [(k, v)]
  | (k', v') :: d' =>
      if decide (k' = k) then (k', v) :: d' else (k', v') :: dict_set d' k v
  end.

(** [del d[k]] *)
Fixpoint dict_del (d : list (K * V)) (k : K) : list (K * V) :=
  match d with
  | [] => []
  | (k', v') :: d' =>
      if decide (k' = k) then d' else (k', v') :: dict_del d' k
  end.

End dict.

(** ** Rule store *)

(** A ruleset maps old names to new names; a preset maps prefixes to
    rulesets; [presets] maps preset names to presets. *)
Abbreviation ruleset := (list (string * string)).
Abbreviation preset := (list (string * ruleset)).
Abbreviation preset_table := (list (string * preset)).

(** [rename_key_in_ordered_dict(d, old_key, new_key)]: the loop assigns
    into a fresh dictionary, one key of [d] at a time. *)
Definition rename_key_in_ordered_dict {V : Type}
    (d : list (string * V)) (old_key new_key : string) : list (string * V) :=
  foldl (fun new_dict kv =>
           if decide (kv.1 = old_key)
           then dict_set new_dict new_key kv.2
           else dict_set new_dict kv.1 kv.2)
        [] d.

(** What an operator or callback hands to [self.report]. *)
Inductive report_level := INFO | WARNING | ERROR.

(** The operator's return value. *)
Inductive op_result := FINISHED | CANCELLED.

(** The state that [update_rule] reads and writes: the ruleset of its
    preset and prefix, and the two text fields of the edited row. *)
Record rule_row := {
  row_rules : ruleset;
  row_original_prop : string;
  row_new_prop : string;
}.

(** How a run of [update_rule] ends: it returns, or it raises
    [AttributeError]; either way with the state it has reached. *)
Inductive callback_outcome :=
  | Returned (st : rule_row)
  | Raised (st : rule_row).

(** [update_rule] as made by [make_rule_update_func(prefix, original, new,
    ...)]; [original] and [new] are the rule as it was when the row was
    registered. Saving and redrawing do not change the rule table. The two
    properties are set on [bpy.types.Scene], so the host calls
    [update_rule] with the scene as [self]; a scene has no [report], and
    [self.report(...)], the first statement for a new key that the ruleset
    already has, raises before the two [setattr] calls are reached. *)
Definition update_rule (prefix original new : string) (st : rule_row)
    : callback_outcome :=
  let new_original := row_original_prop st in
  let new_new := row_new_prop st in
  if bool_decide (new_original ≠ original) || bool_decide (new_new ≠ new) then
    if dict_in (row_rules st) new_original && bool_decide (new_original ≠ original) then
      Raised st
    else
      let renamed := rename_key_in_ordered_dict (row_rules st) original new_original in
      Returned {| row_rules := dict_set renamed new_original new_new;
                  row_original_prop := new_original;
                  row_new_prop := new_new |}
  else Returned st.

(** The part of the add-on's state that the preset operators touch. *)
Record store := {
  presets : preset_table;
  current_preset : string;
  preset_dropdown : string;
}.

(** [OBJECT_OT_remove_preset.execute]. After a deletion the first remaining
    preset is selected ([list(presets.keys())[0]]: there is one, as the
    table held at least two). *)
Definition remove_preset_execute (st : store)
    : op_result * store * list (report_level * string) :=
  let current := current_preset st in
  if dict_in (presets st) current then
    if decide (current = "Default") then
      (CANCELLED, st, [(WARNING, "Cannot delete the Default preset.")])
    else if decide (length (presets st) = 1) then
      (CANCELLED, st, [(WARNING, "Cannot remove the last preset.")])
    else
      let presets' := dict_del (presets st) current in
      let new_preset := default "" (head (dict_keys presets')) in
      (FINISHED,
       {| presets := presets'; current_preset := new_preset;
          preset_dropdown := new_preset |}, [])
  else
    (FINISHED, st, [(WARNING, "No preset selected or preset does not exist")]).

(** ** Preset file and the add-on's state *)

(** Modelled from the spec: preset persistence, one JSON document at a
    place the host fixes. [file_content] is the table the document holds,
    [None] when there is no file or it cannot be read as a table of
    presets; a file that is not [file_writable] cannot be opened for
    writing, and then keeps what it holds. *)
Record preset_file := {
  file_content : option preset_table;
  file_writable : bool;
}.

(** [load_presets()]: the table of the file, [{}] when there is none. *)
Definition load_presets (f : preset_file) : preset_table :=
  default [] (file_content f).

(** [save_presets(presets)]: a failure is printed, and nothing else
    happens. *)
Definition save_presets (presets : preset_table) (f : preset_file) : preset_file :=
  if file_writable f then {| file_content := Some presets; file_writable := true |}
  else f.

(** The add-on's state: the rule store, the global [prefix_expand_states]
    and the preset file. *)
Record addon := {
  rule_store : store;
  prefix_expand_states : list (string * bool);
  presets_file : preset_file;
}.

(** The global [presets]. *)
Definition the_presets (st : addon) : preset_table := presets (rule_store st).

(** [context.scene.vgr_props.current_preset] *)
Definition the_current_preset (st : addon) : string := current_preset (rule_store st).

(** [context.scene.vgr_props.preset_dropdown] *)
Definition the_preset_dropdown (st : addon) : string := preset_dropdown (rule_store st).

(** An assignment to the global [presets]. *)
Definition put_presets (t : preset_table) (st : addon) : addon :=
  {| rule_store := {| presets := t;
                      current_preset := the_current_preset st;
                      preset_dropdown := the_preset_dropdown st |};
     prefix_expand_states := prefix_expand_states st;
     presets_file := presets_file st |}.

(** [context.scene.vgr_props.current_preset = name] *)
Definition put_current_preset (name : string) (st : addon) : addon :=
  {| rule_store := {| presets := the_presets st;
                      current_preset := name;
                      preset_dropdown := the_preset_dropdown st |};
     prefix_expand_states := prefix_expand_states st;
     presets_file := presets_file st |}.

(** What a run of assignments leaves in [prefix_expand_states]. *)
Definition put_prefix_expand_states (states : list (string * bool)) (st : addon)
    : addon :=
  {| rule_store := rule_store st;
     prefix_expand_states := states;
     presets_file := presets_file st |}.

(** [save_presets(presets)] on the state. *)
Definition save (st : addon) : addon :=
  {| rule_store := rule_store st;
     prefix_expand_states := prefix_expand_states st;
     presets_file := save_presets (the_presets st) (presets_file st) |}.

(** [prefix_expand_states.clear()] followed by the loop
    [for prefix in rules: prefix_expand_states[prefix] = False]. *)
Definition collapsed (rules : preset) : list (string * bool) :=
  foldl (fun states prefix => dict_set states prefix false) [] (dict_keys rules).

(** [set_current_preset(context, preset_name)]. The row properties that it
    registers last are [register_dynamic_properties] below: they are
    attributes of the host's scene type and no part of this state. *)
Definition set_current_preset (preset_name : string) (st : addon) : addon :=
  let st := put_current_preset preset_name st in
  put_prefix_expand_states
    (collapsed (default [] (dict_get (the_presets st) preset_name))) st.

(** [preset_update(self, context)], the update callback of
    [preset_dropdown]. *)
Definition preset_update (st : addon) : addon :=
  let preset_name := the_preset_dropdown st in
  set_current_preset preset_name (put_current_preset preset_name st).

(** [context.scene.vgr_props.preset_dropdown = name]: the host stores the
    value and runs the property's update callback. *)
Definition put_preset_dropdown (name : string) (st : addon) : addon :=
  preset_update
    {| rule_store := {| presets := the_presets st;
                        current_preset := the_current_preset st;
                        preset_dropdown := name |};
       prefix_expand_states := prefix_expand_states st;
       presets_file := presets_file st |}.

(** [initialize_presets(context)] *)
Definition initialize_presets (st : addon) : addon :=
  let presets := load_presets (presets_file st) in
  let presets := if decide (presets = []) then dict_set presets "Default" [] else presets in
  let st := put_presets presets st in
  let st := if dict_in presets (the_current_preset st) then st
            else put_current_preset "Default" st in
  put_prefix_expand_states
    (collapsed (default [] (dict_get presets (the_current_preset st)))) st.

(** [is_expanded] of the panel's [display_existing_rules]:
    [prefix_expand_states.get(prefix, False)]. *)
Definition is_expanded (st : addon) (prefix : string) : bool :=
  default false (dict_get (prefix_expand_states st) prefix).

(** ** Preset operators *)

(** What a preset operator leaves behind; [None] stands for the [KeyError]
    of a lookup [presets[...]] that the operator does not guard. *)
Abbreviation store_outcome := (option (op_result * addon * list (report_level * string))).

(** [OBJECT_OT_toggle_expand_prefix.execute] *)
Definition toggle_expand_prefix_execute (prefix : string) (st : addon)
    : op_result * addon :=
  let current_state := default false (dict_get (prefix_expand_states st) prefix) in
  (FINISHED,
   put_prefix_expand_states
     (dict_set (prefix_expand_states st) prefix (negb current_state)) st).

(** [OBJECT_OT_remove_prefix.execute] *)
Definition remove_prefix_execute (prefix : string) (st : addon) : store_outcome :=
  let current_preset := the_current_preset st in
  rules ← dict_get (the_presets st) current_preset;
  if dict_in rules prefix then
    let st := put_presets (dict_set (the_presets st) current_preset
                             (dict_del rules prefix)) st in
    let st := initialize_presets (save st) in
    Some (FINISHED, st, [(INFO, "Prefix '" +:+ prefix +:+ "' removed.")])
  else
    Some (FINISHED, st, [(WARNING, "Prefix '" +:+ prefix +:+ "' not found.")]).

(** [OBJECT_OT_rename_prefix.execute]: [pop] takes the ruleset out and the
    assignment puts it back under the new key, which is a new key of the
    dictionary. *)
Definition rename_prefix_execute (prefix new_prefix : string) (st : addon)
    : store_outcome :=
  let current_preset := the_current_preset st in
  rules ← dict_get (the_presets st) current_preset;
  if dict_in rules new_prefix then
    Some (CANCELLED, st,
          [(ERROR, "Prefix '" +:+ new_prefix +:+ "' already exists.")])
  else
    match dict_get rules prefix with
    | Some popped =>
        let rules := dict_set (dict_del rules prefix) new_prefix popped in
        let st := put_presets (dict_set (the_presets st) current_preset rules) st in
        let st := initialize_presets (save st) in
        Some (FINISHED, st,
              [(INFO, "Prefix '" +:+ prefix +:+ "' renamed to '" +:+ new_prefix +:+ "'.")])
    | None =>
        Some (CANCELLED, st, [(WARNING, "Prefix '" +:+ prefix +:+ "' not found.")])
    end.

(** [OBJECT_OT_remove_rule.execute] *)
Definition remove_rule_execute (prefix original_name : string) (st : addon)
    : store_outcome :=
  let current_preset := the_current_preset st in
  rules ← dict_get (the_presets st) current_preset;
  match dict_get rules prefix with
  | Some rule_set =>
      if dict_in rule_set original_name then
        let rules := dict_set rules prefix (dict_del rule_set original_name) in
        let st := put_presets (dict_set (the_presets st) current_preset rules) st in
        let st := initialize_presets (save st) in
        Some (FINISHED, st,
              [(INFO, "Rule '" +:+ original_name +:+ "' removed from prefix '"
                        +:+ prefix +:+ "'.")])
      else
        Some (FINISHED, st,
              [(WARNING, "Rule '" +:+ original_name +:+ "' not found in prefix '"
                           +:+ prefix +:+ "'.")])
  | None =>
      Some (FINISHED, st, [(WARNING, "Prefix '" +:+ prefix +:+ "' not found.")])
  end.

(** [OBJECT_OT_add_rule.execute] *)
Definition add_rule_execute (prefix original_name new_name : string) (st : addon)
    : store_outcome :=
  let current_preset := the_current_preset st in
  if bool_decide (original_name = "") || bool_decide (new_name = "") then
    Some (CANCELLED, st, [(ERROR, "Both Old and New names must be provided.")])
  else
    rules ← dict_get (the_presets st) current_preset;
    rule_set ← dict_get rules prefix;
    if dict_in rule_set original_name then
      Some (CANCELLED, st,
            [(ERROR, "Rule '" +:+ original_name +:+ "' already exists in prefix '"
                       +:+ prefix +:+ "'.")])
    else
      let rules := dict_set rules prefix (dict_set rule_set original_name new_name) in
      let st := put_presets (dict_set (the_presets st) current_preset rules) st in
      let st := initialize_presets (save st) in
      Some (FINISHED, st,
            [(INFO, "Rule '" +:+ original_name +:+ "' -> '" +:+ new_name
                      +:+ "' added to prefix '" +:+ prefix +:+ "'.")]).

(** [OBJECT_OT_add_prefix.execute] *)
Definition add_prefix_execute (new_prefix : string) (st : addon) : store_outcome :=
  let current_preset := the_current_preset st in
  let trimmed_prefix := strip new_prefix in
  rules ← dict_get (the_presets st) current_preset;
  if dict_in rules trimmed_prefix then
    Some (CANCELLED, st,
          [(ERROR, "Prefix '" +:+ trimmed_prefix +:+ "' already exists.")])
  else
    let rules := dict_set rules trimmed_prefix [] in
    let st := put_presets (dict_set (the_presets st) current_preset rules) st in
    let st := initialize_presets (save st) in
    Some (FINISHED, st, [(INFO, "Prefix '" +:+ trimmed_prefix +:+ "' added.")]).

(** [OBJECT_OT_create_preset.execute] *)
Definition create_preset_execute (new_preset_name : string) (st : addon)
    : op_result * addon * list (report_level * string) :=
  if bool_decide (new_preset_name ≠ "") && negb (dict_in (the_presets st) new_preset_name)
  then
    let st := put_presets (dict_set (the_presets st) new_preset_name []) st in
    let st := save st in
    let st := put_preset_dropdown new_preset_name st in
    let st := set_current_preset new_preset_name st in
    (FINISHED, st, [])
  else
    (FINISHED, st, [(WARNING, "Preset name already exists")]).

(** [OBJECT_OT_duplicate_preset.execute]; [copy.deepcopy] gives an equal
    value. *)
Definition duplicate_preset_execute (new_preset_name : string) (st : addon)
    : store_outcome :=
  let current_preset := the_current_preset st in
  let new_preset_name := strip new_preset_name in
  if decide (new_preset_name = "") then
    Some (CANCELLED, st, [(ERROR, "Preset name cannot be empty.")])
  else if dict_in (the_presets st) new_preset_name then
    Some (CANCELLED, st,
          [(ERROR, "Preset '" +:+ new_preset_name +:+ "' already exists.")])
  else
    copied ← dict_get (the_presets st) current_preset;
    let st := put_presets (dict_set (the_presets st) new_preset_name copied) st in
    let st := initialize_presets (save st) in
    let st := put_preset_dropdown new_preset_name st in
    let st := set_current_preset new_preset_name st in
    Some (FINISHED, st,
          [(INFO, "Preset '" +:+ current_preset +:+ "' duplicated as '"
                    +:+ new_preset_name +:+ "' and selected.")]).

(** [OBJECT_OT_rename_preset.execute] *)
Definition rename_preset_execute (new_preset_name : string) (st : addon)
    : store_outcome :=
  let current_preset := the_current_preset st in
  let new_preset_name := strip new_preset_name in
  if decide (new_preset_name = "") then
    Some (CANCELLED, st, [(ERROR, "Preset name cannot be empty.")])
  else if dict_in (the_presets st) new_preset_name then
    Some (CANCELLED, st,
          [(ERROR, "Preset '" +:+ new_preset_name +:+ "' already exists.")])
  else
    popped ← dict_get (the_presets st) current_preset;
    let st := put_presets (dict_set (dict_del (the_presets st) current_preset)
                             new_preset_name popped) st in
    let st := initialize_presets (save st) in
    let st := put_preset_dropdown new_preset_name st in
    let st := set_current_preset new_preset_name st in
    Some (FINISHED, st,
          [(INFO, "Preset '" +:+ current_preset +:+ "' renamed to '"
                    +:+ new_preset_name +:+ "' and selected.")]).

(** What reading the file of an import gives: the table of its JSON
    document, or the exception of [open] or [json.load] with its text. *)
Inductive document :=
  | Json (imported_presets : preset_table)
  | Unreadable (e : string).

(** [presets.update(imported_presets)] *)
Definition dict_update {K V : Type} `{EqDecision K} (d other : list (K * V))
    : list (K * V) :=
  foldl (fun d kv => dict_set d kv.1 kv.2) d other.

(** [OBJECT_OT_import_preset.execute], for what the file at [filepath]
    holds. *)
Definition import_preset_execute (filepath : string) (content : document)
    (st : addon) : op_result * addon * list (report_level * string) :=
  match content with
  | Json imported_presets =>
      let st := put_presets (dict_update (the_presets st) imported_presets) st in
      let st := initialize_presets (save st) in
      let new_presets := dict_keys imported_presets in
      match last new_presets with
      | Some last_preset =>
          let st := put_preset_dropdown last_preset st in
          let st := set_current_preset last_preset st in
          (FINISHED, st,
           [(INFO, "Presets imported from '" +:+ filepath +:+ "' and '"
                     +:+ last_preset +:+ "' selected.")])
      | None =>
          (FINISHED, st,
           [(INFO, "No new presets were imported from '" +:+ filepath +:+ "'.")])
      end
  | Unreadable e =>
      (CANCELLED, st, [(ERROR, "Failed to import presets: " +:+ e)])
  end.

(** The path [OBJECT_OT_export_preset.execute] writes to. *)
Definition export_filepath (filepath : string) : string :=
  if endswith (lower filepath) ".json" then filepath else filepath +:+ ".json".

(** [VGR_OT_select_preset.execute] *)
Definition select_preset_execute (preset_name : string) (st : addon)
    : op_result * addon :=
  (FINISHED, set_current_preset preset_name (put_preset_dropdown preset_name st)).

(** ** Row properties *)

(** [sanitize_property_name(name)] *)
Definition sanitize_property_name (name : string) : string :=
  replace_char "-" "_" (replace_char " " "_" (replace_char "." "_" name)).

(** The names of the two text fields of a rule's row. *)
Definition original_prop_name (current_preset prefix original : string) : string :=
  "rule_edit_original_" +:+ sanitize_property_name current_preset +:+ "_"
    +:+ sanitize_property_name prefix +:+ "_" +:+ sanitize_property_name original.

Definition new_prop_name (current_preset prefix original : string) : string :=
  "rule_edit_new_" +:+ sanitize_property_name current_preset +:+ "_"
    +:+ sanitize_property_name prefix +:+ "_" +:+ sanitize_property_name original.

(** A registered text field: its default, and the rule of its update
    function ([make_rule_update_func(prefix, original, new, ...)]). *)
Record rule_property := {
  prop_default : string;
  prop_prefix : string;
  prop_original : string;
  prop_new : string;
}.

(** [register_dynamic_properties(context)]: the attributes of the scene
    type whose names begin with "rule_edit_", by name. They are all removed
    first ([unregister_dynamic_properties]); [setattr] replaces an
    attribute of the same name. *)
Definition register_dynamic_properties (current_preset : string)
    (presets : preset_table) : list (string * rule_property) :=
  let current_rules := default [] (dict_get presets current_preset) in
  foldl (fun scene item =>
           let prefix := item.1 in
           foldl (fun scene rule =>
                    let original := rule.1 in
                    let new := rule.2 in
                    let original_prop := original_prop_name current_preset prefix original in
                    let new_prop := new_prop_name current_preset prefix original in
                    let scene :=
                      dict_set scene original_prop
                        {| prop_default := original; prop_prefix := prefix;
                           prop_original := original; prop_new := new |} in
                    dict_set scene new_prop
                      {| prop_default := new; prop_prefix := prefix;
                         prop_original := original; prop_new := new |})
                 scene item.2)
        [] current_rules.

(** ** Prefix resolver *)

(** The loop over [current_rules.keys()] with its [break]: the first
    non-empty prefix that the lower-cased object name starts with. *)
Fixpoint first_matching_prefix (obj_name_lower : string) (prefixes : list string)
    : option string :=
  match prefixes with
  | [] => None
  | prefix :: rest =>
      if bool_decide (prefix ≠ "") && startswith obj_name_lower (lower prefix)
      then Some prefix
      else first_matching_prefix obj_name_lower rest
  end.

(** [matched_prefix] as every operator computes it for an object name. *)
Definition match_prefix (current_rules : preset) (obj_name : string) : option string :=
  let obj_name_lower := lower obj_name in
  match first_matching_prefix obj_name_lower (dict_keys current_rules) with
  | Some prefix => Some prefix
  | None => if dict_in current_rules "" then Some "" else None
  end.

(** [rules = current_rules[matched_prefix]], when a prefix matched. *)
Definition resolve_rules (current_rules : preset) (obj_name : string) : option ruleset :=
  prefix ← match_prefix current_rules obj_name;
  dict_get current_rules prefix.

(** ** The host's collections *)

(** Modelled from the spec: the host container API (enumerate named members;
    create, remove and rename a member by name; per-element weights), which
    is Blender's and not part of the add-on. The host keeps the names of one
    collection distinct: [unique_name others n] is the name a member gets
    when [n] is asked for and [others] are the names of the other members.
    Only its behaviour on a free name is fixed here; what it does on a
    collision is the host's choice. *)
Class Host := {
  unique_name : list string → string → string;
  unique_name_fresh : ∀ others n, n ∉ others → unique_name others n = n;
}.

(** Members of a collection carry a name ([member.name]) that can be read
    and assigned; assigning it changes nothing else. *)
Class Named (A : Type) := {
  name_of : A → string;
  with_name : string → A → A;
  name_of_with_name : ∀ n x, name_of (with_name n x) = n;
  with_name_with_name : ∀ n m x, with_name n (with_name m x) = with_name n x;
  with_name_name_of : ∀ x, with_name (name_of x) x = x;
}.

Section collection.
Context {host : Host} {A : Type} {named : Named A}.

(** [[m.name for m in target]] *)
Definition names (l : list A) : list string := name_of <$> l.

(** [target.get(name)]: the first member of that name, with its index as
    the reference to it. *)
Fixpoint coll_get (l : list A) (n : string) : option (nat * A) :=
  match l with
  | [] => None
  | x :: l' =>
      if decide (name_of x = n) then Some (0%nat, x)
      else prod_map S id <$> coll_get l' n
  end.

(** [member.name = n] for the member at index [i]. *)
Definition set_name (i : nat) (n : string) (l : list A) : list A :=
  match l !! i with
  | Some x => <[i := with_name (unique_name (names (delete i l)) n) x]> l
  | None => l
  end.

(** [target.new(name=n)] with the fresh member's other data [x]; the new
    member is the last one, at index [length l]. *)
Definition coll_new (n : string) (x : A) (l : list A) : list A :=
  l ++ [with_name (unique_name (names l) n) x].

(** [target.get(n)] followed by [target.remove(...)] when it found a
    member, for a reference [keep] that the caller still holds: the index
    it has afterwards, [None] when it was the member removed. *)
Definition remove_named (n : string) (st : list A * option nat) : list A * option nat :=
  match coll_get st.1 n with
  | Some (i, _) =>
      (delete i st.1,
       k ← st.2;
       if decide (k = i) then None
       else if decide (i < k) then Some (pred k) else Some k)
  | None => st
  end.

End collection.

(** A vertex group: its name and the weights of the vertices assigned to
    it, by vertex index. *)
Record VertexGroup := {
  vg_name : string;
  vg_weights : gmap nat Q;
}.

#[export] Instance VertexGroup_named : Named VertexGroup.
Proof.
  refine {| name_of := vg_name;
            with_name n g := {| vg_name := n; vg_weights := vg_weights g |} |};
    [done | done | by intros []].
Defined.

(** [group.weight(index)]: [None] stands for the [RuntimeError] that the
    host raises when the vertex is not in the group. *)
Definition vg_weight (g : VertexGroup) (index : nat) : option Q :=
  vg_weights g !! index.

Inductive add_mode := ADD | REPLACE.

(** Modelled from the spec: a weight is a scalar in [[0,1]]. The host
    brings a weight it is given into that range. *)
Definition clamp_weight (w : Q) : Q :=
  if Qlt_le_dec w 0 then 0%Q else if Qlt_le_dec 1 w then 1%Q else w.

(** [group.add([index], weight, mode)]: the weight is clamped; added to a
    weight that the vertex has in the group, the sum stops at [1.0]. *)
Definition vg_add (index : nat) (weight : Q) (mode : add_mode) (g : VertexGroup)
    : VertexGroup :=
  let weight := clamp_weight weight in
  let w := match mode, vg_weight g index with
           | ADD, Some old =>
               if Qlt_le_dec 1 (old + weight) then 1%Q else (old + weight)%Q
           | _, _ => weight
           end in
  {| vg_name := vg_name g; vg_weights := <[index := w]> (vg_weights g) |}.

(** A bone: its name and its placement. *)
Record Bone := {
  bone_name : string;
  bone_head : Q * Q * Q;
  bone_tail : Q * Q * Q;
  bone_roll : Q;
}.

#[export] Instance Bone_named : Named Bone.
Proof.
  refine {| name_of := bone_name;
            with_name n b := {| bone_name := n; bone_head := bone_head b;
                                bone_tail := bone_tail b; bone_roll := bone_roll b |} |};
    [done | done | by intros []].
Defined.

(** What [edit_bones.new] gives a bone before the add-on places it. *)
Definition new_bone : Bone :=
  {| bone_name := ""; bone_head := (0, 0, 0)%Q; bone_tail := (0, 0, 0)%Q;
     bone_roll := 0%Q |}.

(** ** What an operator does, in order *)

(** [Merging] and [Renaming] are the two [print] calls of the operators;
    [Normalized] marks one run of the normalization step that ends
    [merge_vertex_groups] (its loop over [obj.data.vertices]). *)
Inductive event :=
  | Merging (target : string) (sources : list string)
  | Renaming (old_name new_name : string)
  | Normalized.

#[export] Instance event_eq_dec : EqDecision event.
Proof. solve_decision. Defined.

(** ** Objects of the scene *)

Inductive object_type := MESH | ARMATURE | EMPTY.

#[export] Instance object_type_eq_dec : EqDecision object_type.
Proof. solve_decision. Defined.

Inductive modifier_type := ARMATURE_MODIFIER | OTHER_MODIFIER.

#[export] Instance modifier_type_eq_dec : EqDecision modifier_type.
Proof. solve_decision. Defined.

(** A modifier: its type and [mod.object], a reference into
    [bpy.data.objects] or nothing. *)
Record Modifier := {
  mod_type : modifier_type;
  mod_object : option nat;
}.

(** An object: [obj.name], [obj.type], [obj.modifiers],
    [obj.vertex_groups], the number of [obj.data.vertices] (their indices
    are [0 .. n_vertices - 1]) and [obj.data.bones]. *)
Record Object := {
  obj_name : string;
  obj_type : object_type;
  modifiers : list Modifier;
  vertex_groups : list VertexGroup;
  n_vertices : nat;
  bones : list Bone;
}.

(** [[v.index for v in obj.data.vertices]] *)
Definition obj_vertices (obj : Object) : list nat := seq 0 (n_vertices obj).

Definition with_vertex_groups (gs : list VertexGroup) (obj : Object) : Object :=
  {| obj_name := obj_name obj; obj_type := obj_type obj; modifiers := modifiers obj;
     vertex_groups := gs; n_vertices := n_vertices obj; bones := bones obj |}.

Definition with_bones (bs : list Bone) (obj : Object) : Object :=
  {| obj_name := obj_name obj; obj_type := obj_type obj; modifiers := modifiers obj;
     vertex_groups := vertex_groups obj; n_vertices := n_vertices obj; bones := bs |}.

(** ** Merge *)

Section merge.
Context {host : Host}.

(** [group.weight(v.index)] with its [except RuntimeError: weight = 0.0]. *)
Definition weight_or_zero (g : VertexGroup) (index : nat) : Q :=
  default 0%Q (vg_weight g index).

(** The accumulation loops of [merge_vertex_groups]: [vertex_weight_sum]
    after all source groups have been read. *)
Definition accumulate_weights (vertices : list nat) (groups : list VertexGroup)
    (source_group_names : list string) : list (nat * Q) :=
  foldl (fun vertex_weight_sum group_name =>
           match coll_get groups group_name with
           | None => vertex_weight_sum
           | Some (_, group) =>
               foldl (fun sum v =>
                        let weight := weight_or_zero group v in
                        match dict_get sum v with
                        | Some s => dict_set sum v (s + weight)%Q
                        | None => dict_set sum v weight
                        end)
                     vertex_weight_sum vertices
           end)
        [] source_group_names.

(** [total_weight] of the normalization step for one vertex: the weights of
    the groups that have the vertex, added up from [0.0]. *)
Definition total_weight (v : nat) (groups : list VertexGroup) : Q :=
  foldl (fun total vg =>
           match vg_weight vg v with
           | Some weight => (total + weight)%Q
           | None => total
           end) 0%Q groups.

(** The normalization step for one vertex: when the total exceeds [1.0],
    every group gets [weight / total_weight], a group without the vertex
    included (its weight counts as [0.0]). *)
Definition normalize_vertex (v : nat) (groups : list VertexGroup) : list VertexGroup :=
  if Qlt_le_dec 1 (total_weight v groups) then
    (fun vg => vg_add v (weight_or_zero vg v / total_weight v groups)%Q REPLACE vg)
      <$> groups
  else groups.

(** The normalization step: every vertex in turn. *)
Definition normalize_weights (vertices : list nat) (groups : list VertexGroup)
    : list VertexGroup :=
  foldl (fun gs v => normalize_vertex v gs) groups vertices.

(** The steps of [merge_vertex_groups] before normalization; [None] when
    the temporary group itself was removed as a source, so that renaming it
    raises. *)
Definition merge_groups_unnormalized (obj : Object) (target_group_name : string)
    (source_group_names : list string) : option (list VertexGroup) :=
  let temp_group_name := "__temp_merge_" +:+ target_group_name +:+ "__" in
  let temp_group := length (vertex_groups obj) in
  let groups :=
    coll_new temp_group_name {| vg_name := ""; vg_weights := ∅ |} (vertex_groups obj) in
  let vertex_weight_sum :=
    accumulate_weights (obj_vertices obj) groups source_group_names in
  let groups :=
    foldl (fun gs item => alter (vg_add item.1 item.2 ADD) temp_group gs)
          groups vertex_weight_sum in
  let removed :=
    foldl (fun st group_name => remove_named group_name st)
          (groups, Some temp_group) source_group_names in
  temp_group ← removed.2;
  Some (set_name temp_group target_group_name removed.1).

(** [merge_vertex_groups(obj, target_group_name, source_group_names)] *)
Definition merge_vertex_groups (obj : Object) (target_group_name : string)
    (source_group_names : list string) : option (Object * list event) :=
  if decide (source_group_names = []) then Some (obj, [])
  else
    groups ← merge_groups_unnormalized obj target_group_name source_group_names;
    Some (with_vertex_groups (normalize_weights (obj_vertices obj) groups) obj,
          [Normalized]).

(** The steps of [merge_bones] before the temporary bone is renamed. The
    host's [edit_bones.remove] takes the bone and nothing else, so
    [edit_bones.remove(bone, do_unlink=True)] raises [TypeError] at the
    first source bone that [edit_bones.get] finds: [None]. The two changes
    of mode are taken to put the armature in edit mode and back; where the
    first does not (the armature is not the active object),
    [edit_bones.new] raises before that. *)
Definition merge_bones_sources (armature : Object) (target_bone_name : string)
    (source_bone_names : list string) : option (list Bone) :=
  let temp_bone_name := "__temp_merge_" +:+ target_bone_name +:+ "__" in
  let temp_bone := length (bones armature) in
  let edit_bones := coll_new temp_bone_name new_bone (bones armature) in
  let edit_bones :=
    match head source_bone_names ≫= coll_get edit_bones with
    | Some (_, first_bone) =>
        alter (fun b => {| bone_name := bone_name b;
                           bone_head := bone_head first_bone;
                           bone_tail := bone_tail first_bone;
                           bone_roll := bone_roll first_bone |})
              temp_bone edit_bones
    | None => edit_bones
    end in
  foldl (fun st bone_name =>
           edit_bones ← st;
           match coll_get edit_bones bone_name with
           | Some _ => None
           | None => Some edit_bones
           end)
        (Some edit_bones) source_bone_names.

(** [merge_bones(armature, target_bone_name, source_bone_names)], on the
    armature's bones. *)
Definition merge_bones (armature : Object) (target_bone_name : string)
    (source_bone_names : list string) : option (Object * list event) :=
  if decide (source_bone_names = []) then Some (armature, [])
  else
    edit_bones ← merge_bones_sources armature target_bone_name source_bone_names;
    Some (with_bones (set_name (length (bones armature)) target_bone_name edit_bones)
            armature, []).

End merge.

(** ** Rename, merge, undo and mirror on one object *)

(** The two collections the operators work on: a mesh's vertex groups and
    an armature's bones, each with its merge function. *)
Class Container (A : Type) {host : Host} {named : Named A} := {
  members : Object → list A;
  with_members : list A → Object → Object;
  merge_members : Object → string → list string → option (Object * list event);
  members_with_members : ∀ l obj, members (with_members l obj) = l;
}.

#[export] Instance vertex_group_container {host : Host} : Container VertexGroup := {|
  members := vertex_groups;
  with_members := with_vertex_groups;
  merge_members := merge_vertex_groups;
  members_with_members := fun _ _ => eq_refl;
|}.

#[export] Instance bone_container {host : Host} : Container Bone := {|
  members := bones;
  with_members := with_bones;
  merge_members := merge_bones;
  members_with_members := fun _ _ => eq_refl;
|}.

(** [new_to_sources]: the member names that are keys of [rules], grouped
    under their new names, in the order the members are met. *)
Definition group_by_target (rules : ruleset) (member_names : list string)
    : list (string * list string) :=
  foldl (fun new_to_sources name =>
           match dict_get rules name with
           | Some new_name =>
               match dict_get new_to_sources new_name with
               | Some sources => dict_set new_to_sources new_name (sources ++ [name])
               | None => dict_set new_to_sources new_name [name]
               end
           | None => new_to_sources
           end)
        [] member_names.

(** [reverse_rules = {new_name: original_name for original_name, new_name
    in rules.items()}] *)
Definition reverse_rules (rules : ruleset) : ruleset :=
  foldl (fun d rule => dict_set d rule.2 rule.1) [] rules.

Section consolidate.
Context (A : Type) {host : Host} {named : Named A} {container : Container A}.

(** The body of the loop over [new_to_sources.items()]: a merge for two or
    more sources, a rename for one. *)
Definition apply_bucket (bucket : string * list string) (st : Object * list event)
    : option (Object * list event) :=
  let new_name := bucket.1 in
  let source_names := bucket.2 in
  if decide (1 < length source_names) then
    merged ← merge_members st.1 new_name source_names;
    Some (merged.1, st.2 ++ [Merging new_name source_names] ++ merged.2)
  else
    old_name ← head source_names;
    match coll_get (members st.1) old_name with
    | Some (i, group) =>
        if decide (name_of group ≠ new_name) then
          Some (with_members (set_name i new_name (members st.1)) st.1,
                st.2 ++ [Renaming old_name new_name])
        else Some st
    | None => Some st
    end.

Fixpoint apply_buckets (buckets : list (string * list string))
    (st : Object * list event) : option (Object * list event) :=
  match buckets with
  | [] => Some st
  | bucket :: rest => st' ← apply_bucket bucket st; apply_buckets rest st'
  end.

(** What the rename operators do to one object once its ruleset is
    resolved. *)
Definition apply_rules (rules : ruleset) (obj : Object) : option (Object * list event) :=
  apply_buckets (group_by_target rules (names (members obj))) (obj, []).

(** What the undo operators do to one object once its ruleset is
    resolved: each member in turn, by its name at that moment. *)
Definition undo_rules (rules : ruleset) (obj : Object) : Object :=
  let reverse := reverse_rules rules in
  with_members
    (foldl (fun l i =>
              match l !! i with
              | Some vg =>
                  match dict_get reverse (name_of vg) with
                  | Some original_name => set_name i original_name l
                  | None => l
                  end
              | None => l
              end)
           (members obj) (seq 0 (length (members obj))))
    obj.

(** [name_swap_pairs] of [mirror_names]. *)
Definition name_swap_pairs (member_names : list string) : list (string * string) :=
  flat_map (fun name =>
              if startswith name "L_" then
                let counterpart := "R_" +:+ drop_chars 2 name in
                if bool_decide (counterpart ∈ member_names) then [(name, counterpart)] else []
              else if startswith name "R_" then
                let counterpart := "L_" +:+ drop_chars 2 name in
                if bool_decide (counterpart ∈ member_names) then [(name, counterpart)] else []
              else [])
           member_names.

(** [target.get(old)] and, when it found a member, [member.name = new]. *)
Definition rename_if_found (old new : string) (l : list A) : list A :=
  match coll_get l old with
  | Some (i, _) => set_name i new l
  | None => l
  end.

(** [mirror_names(obj, is_bone)]; [A] says which collection is the target. *)
Definition mirror_names (obj : Object) : Object :=
  let target := members obj in
  let pairs := name_swap_pairs (names target) in
  let target :=
    foldl (fun l p => rename_if_found p.1 ("__swap_temp__" +:+ p.2) l) target pairs in
  let target :=
    foldl (fun l p => rename_if_found p.2 p.1 l) target pairs in
  let target :=
    foldl (fun l p => rename_if_found ("__swap_temp__" +:+ p.2) p.2 l) target pairs in
  with_members target obj.

End consolidate.

(** ** The operators *)

(** What [get_armatures_from_meshes] stores for a mesh: the armature, or
    the list of armatures when there are several. *)
Inductive armature_link :=
  | Single (armature : nat)
  | Multiple (armatures : list nat).

Definition is_Multiple (link : armature_link) : bool :=
  match link with Multiple _ => true | Single _ => false end.

(** The armatures that the armature modifiers of [mesh] point to. *)
Definition modifier_armatures (objects : list Object) (mesh : Object) : list nat :=
  omap (fun md =>
          if decide (mod_type md = ARMATURE_MODIFIER) then
            a ← mod_object md;
            target ← objects !! a;
            if decide (obj_type target = ARMATURE) then Some a else None
          else None)
       (modifiers mesh).

(** [get_armatures_from_meshes(meshes)] *)
Definition get_armatures_from_meshes (objects : list Object) (meshes : list nat)
    : list (nat * armature_link) :=
  foldl (fun mesh_to_armature mesh =>
           match modifier_armatures objects <$> objects !! mesh with
           | Some [armature] => dict_set mesh_to_armature mesh (Single armature)
           | Some (a1 :: a2 :: rest) =>
               dict_set mesh_to_armature mesh (Multiple (a1 :: a2 :: rest))
           | _ => mesh_to_armature
           end)
        [] meshes.

(** The meshes of [bpy.data.objects] with an armature modifier on
    [armature], once for each such modifier. *)
Definition linked_meshes (objects : list Object) (armature : nat) : list nat :=
  mjoin (imap (fun i obj =>
                 if decide (obj_type obj = MESH) then
                   omap (fun md =>
                           if decide (mod_type md = ARMATURE_MODIFIER
                                      ∧ mod_object md = Some armature)
                           then Some i else None)
                        (modifiers obj)
                 else [])
              objects).

(** [get_meshes_from_armatures(armatures)] *)
Definition get_meshes_from_armatures (objects : list Object) (armatures : list nat)
    : list (nat * list nat) :=
  foldl (fun armature_to_meshes armature =>
           match linked_meshes objects armature with
           | [] => armature_to_meshes
           | meshes => dict_set armature_to_meshes armature meshes
           end)
        [] armatures.

(** The objects of a selection that have the given type. *)
Definition selected_of_type (ty : object_type) (objects : list Object)
    (selected_objects : list nat) : list nat :=
  filter (fun i => obj_type <$> objects !! i = Some ty) selected_objects.

(** What an operator leaves behind: its return value, the objects, what
    it reported and what it did. *)
Record outcome := {
  out_result : op_result;
  out_objects : list Object;
  out_reports : list (report_level * string);
  out_events : list event;
}.

Section operators.
Context {host : Host}.

(** One pass of a rename loop: resolve the ruleset from [name_source]'s
    name and apply it to the collection [A] of [target]. *)
Definition rename_step (A : Type) {named : Named A} {container : Container A}
    (current_rules : preset)
    (name_source target : nat) (st : list Object * list event)
    : option (list Object * list event) :=
  match st.1 !! name_source, st.1 !! target with
  | Some named, Some obj =>
      match resolve_rules current_rules (obj_name named) with
      | Some rules =>
          applied ← apply_rules A rules obj;
          Some (<[target := applied.1]> st.1, st.2 ++ applied.2)
      | None => Some st
      end
  | _, _ => Some st
  end.

(** One pass of an undo loop, likewise. *)
Definition undo_step (A : Type) {named : Named A} {container : Container A}
    (current_rules : preset)
    (name_source target : nat) (objects : list Object) : list Object :=
  match objects !! name_source, objects !! target with
  | Some named, Some obj =>
      match resolve_rules current_rules (obj_name named) with
      | Some rules => <[target := undo_rules A rules obj]> objects
      | None => objects
      end
  | _, _ => objects
  end.

(** [mirror_names(obj, is_bone)] on one object of the scene. *)
Definition mirror_step (A : Type) {named : Named A} {container : Container A}
    (target : nat) (objects : list Object) : list Object :=
  match objects !! target with
  | Some obj => <[target := mirror_names A obj]> objects
  | None => objects
  end.

Fixpoint for_each {X S : Type} (body : X → S → option S) (xs : list X) (st : S)
    : option S :=
  match xs with
  | [] => Some st
  | x :: rest => st' ← body x st; for_each body rest st'
  end.

(** Whether an armature modifier of [obj] points to the armature [a]. *)
Definition uses_armature (a : nat) (obj : Object) : bool :=
  bool_decide (Exists (fun md => mod_type md = ARMATURE_MODIFIER
                                 ∧ mod_object md = Some a) (modifiers obj)).

(** What the host does to the vertex groups of an object when a bone that
    deforms it has gone from the name [old] to the name [new]: the group
    named [old] is given the name [new] as it is, whatever the other groups
    are called. *)
Definition follow_group (old new : string) (gs : list VertexGroup)
    : list VertexGroup :=
  match coll_get gs old with
  | Some (i, g) => <[i := with_name new g]> gs
  | None => gs
  end.

(** The objects this happens to are those with an armature modifier on the
    bone's armature [a]. *)
Definition follow_bone_rename_in (a : nat) (old new : string) (obj : Object) : Object :=
  if uses_armature a obj
  then with_vertex_groups (follow_group old new (vertex_groups obj)) obj
  else obj.

(** The same in every object of the scene. The docstrings of the three
    operators for armatures rely on it ("This will affect linked meshes'
    vertex group names as well"). *)
Definition follow_bone_rename (a : nat) (old new : string) (objects : list Object)
    : list Object :=
  follow_bone_rename_in a old new <$> objects.

(** [bone.name = n] for the bone at index [i] of the armature [a], in the
    scene: the bone is named as [set_name] says, and the vertex groups
    follow unless [n] is the name the bone has. *)
Definition set_bone_name (a i : nat) (n : string) (objects : list Object)
    : list Object :=
  match objects !! a with
  | Some armature =>
      match bones armature !! i with
      | Some b =>
          let objects' :=
            <[a := with_bones (set_name i n (bones armature)) armature]> objects in
          if decide (bone_name b = n) then objects'
          else follow_bone_rename a (bone_name b)
                 (unique_name (names (delete i (bones armature))) n) objects'
      | None => objects
      end
  | None => objects
  end.

(** [armature.data.bones] of the object at index [a]. *)
Definition bones_of (a : nat) (objects : list Object) : list Bone :=
  default [] (bones <$> objects !! a).

(** [merge_bones(armature, target_bone_name, source_bone_names)] in the
    scene: when it reaches its end, the vertex groups follow the rename of
    the temporary bone. *)
Definition merge_bones_in_scene (a : nat) (target_bone_name : string)
    (source_bone_names : list string) (objects : list Object) : option (list Object) :=
  if decide (source_bone_names = []) then Some objects
  else
    armature ← objects !! a;
    edit_bones ← merge_bones_sources armature target_bone_name source_bone_names;
    Some (set_bone_name a (length (bones armature)) target_bone_name
            (<[a := with_bones edit_bones armature]> objects)).

(** The body of the loop over [new_to_sources_bones.items()], in the
    scene. *)
Definition apply_bone_bucket (a : nat) (bucket : string * list string)
    (st : list Object * list event) : option (list Object * list event) :=
  let new_bone_name := bucket.1 in
  let source_bone_names := bucket.2 in
  if decide (1 < length source_bone_names) then
    merged ← merge_bones_in_scene a new_bone_name source_bone_names st.1;
    Some (merged, st.2 ++ [Merging new_bone_name source_bone_names])
  else
    old_bone_name ← head source_bone_names;
    match coll_get (bones_of a st.1) old_bone_name with
    | Some (i, b) =>
        if decide (bone_name b ≠ new_bone_name) then
          Some (set_bone_name a i new_bone_name st.1,
                st.2 ++ [Renaming old_bone_name new_bone_name])
        else Some st
    | None => Some st
    end.

(** What the rename operators do to the bones of one armature once the
    ruleset is resolved. *)
Definition apply_bone_rules (rules : ruleset) (a : nat) (st : list Object * list event)
    : option (list Object * list event) :=
  for_each (apply_bone_bucket a) (group_by_target rules (names (bones_of a st.1))) st.

(** One pass of a rename loop over bones: resolve the ruleset from
    [name_source]'s name and apply it to the bones of [armature]. *)
Definition rename_bones_step (current_rules : preset)
    (name_source armature : nat) (st : list Object * list event)
    : option (list Object * list event) :=
  match st.1 !! name_source, st.1 !! armature with
  | Some named, Some _ =>
      match resolve_rules current_rules (obj_name named) with
      | Some rules => apply_bone_rules rules armature st
      | None => Some st
      end
  | _, _ => Some st
  end.

(** What the undo operators do to the bones of one armature once the
    ruleset is resolved: each bone in turn, by its name at that moment. *)
Definition undo_bone_rules (rules : ruleset) (a : nat) (objects : list Object)
    : list Object :=
  let reverse := reverse_rules rules in
  foldl (fun objs i =>
           match bones_of a objs !! i with
           | Some b =>
               match dict_get reverse (bone_name b) with
               | Some original_name => set_bone_name a i original_name objs
               | None => objs
               end
           | None => objs
           end)
        objects (seq 0 (length (bones_of a objects))).

(** One pass of an undo loop over bones. *)
Definition undo_bones_step (current_rules : preset)
    (name_source armature : nat) (objects : list Object) : list Object :=
  match objects !! name_source, objects !! armature with
  | Some named, Some _ =>
      match resolve_rules current_rules (obj_name named) with
      | Some rules => undo_bone_rules rules armature objects
      | None => objects
      end
  | _, _ => objects
  end.

(** [target.get(old)] on the bones of [a] and, when it found a bone,
    [bone.name = new]. *)
Definition rename_bone_if_found (a : nat) (old new : string) (objects : list Object)
    : list Object :=
  match coll_get (bones_of a objects) old with
  | Some (i, _) => set_bone_name a i new objects
  | None => objects
  end.

(** [mirror_names(armature, is_bone=True)] in the scene. *)
Definition mirror_bone_names (a : nat) (objects : list Object) : list Object :=
  let pairs := name_swap_pairs (names (bones_of a objects)) in
  let objects :=
    foldl (fun objs p => rename_bone_if_found a p.1 ("__swap_temp__" +:+ p.2) objs)
          objects pairs in
  let objects :=
    foldl (fun objs p => rename_bone_if_found a p.2 p.1 objs) objects pairs in
  foldl (fun objs p => rename_bone_if_found a ("__swap_temp__" +:+ p.2) p.2 objs)
        objects pairs.

(** The synchronization block that opens the three mesh operators:
    [meshes_with_multiple_armatures], and, when there is none, [armatures]
    ([list(set(...))], taken in order of first occurrence) and
    [armature_to_meshes]. *)
Definition meshes_with_multiple_armatures (objects : list Object)
    (selected_meshes : list nat) : list nat :=
  (filter (fun item => is_Multiple item.2)
          (get_armatures_from_meshes objects selected_meshes)).*1.

Definition multiple_armatures_report (objects : list Object) (meshes : list nat)
    : report_level * string :=
  let mesh_names :=
    String.concat ", " (omap (fun mesh => obj_name <$> objects !! mesh) meshes) in
  (ERROR, "Meshes with multiple armatures detected: " +:+ mesh_names
            +:+ ". Cannot synchronize.").

Definition single_armatures (objects : list Object) (selected_meshes : list nat)
    : list nat :=
  remove_dups
    (omap (fun item => match item.2 with
                       | Single armature => Some armature
                       | Multiple _ => None
                       end)
          (get_armatures_from_meshes objects selected_meshes)).

Definition cancelled (objects : list Object) (report : report_level * string)
    : outcome :=
  {| out_result := CANCELLED; out_objects := objects; out_reports := [report];
     out_events := [] |}.

(** [OBJECT_OT_rename_vertex_groups.execute] *)
Definition rename_vertex_groups_execute (current_rules : preset)
    (sync_group_bone : bool) (selected_objects : list nat) (objects : list Object)
    : option outcome :=
  let selected_meshes := selected_of_type MESH objects selected_objects in
  if decide (selected_meshes = []) then
    Some (cancelled objects (WARNING, "No mesh objects selected."))
  else if sync_group_bone
          && bool_decide (meshes_with_multiple_armatures objects selected_meshes ≠ [])
  then
    Some (cancelled objects
            (multiple_armatures_report objects
               (meshes_with_multiple_armatures objects selected_meshes)))
  else
    let armatures := single_armatures objects selected_meshes in
    let armature_to_meshes := get_meshes_from_armatures objects armatures in
    st ← for_each (fun mesh => rename_step VertexGroup current_rules mesh mesh)
                  selected_meshes (objects, []);
    st ← (if sync_group_bone then
            for_each (fun armature =>
                        for_each (fun mesh => rename_bones_step current_rules mesh armature)
                                 (default [] (dict_get armature_to_meshes armature)))
                     armatures st
          else Some st);
    Some {| out_result := FINISHED; out_objects := st.1; out_reports := [];
            out_events := st.2 |}.

(** [OBJECT_OT_undo_vertex_group_rename.execute] *)
Definition undo_vertex_group_rename_execute (current_rules : preset)
    (sync_group_bone : bool) (selected_objects : list nat) (objects : list Object)
    : outcome :=
  let selected_meshes := selected_of_type MESH objects selected_objects in
  if decide (selected_meshes = []) then
    cancelled objects (WARNING, "No mesh objects selected.")
  else if sync_group_bone
          && bool_decide (meshes_with_multiple_armatures objects selected_meshes ≠ [])
  then
    cancelled objects
      (multiple_armatures_report objects
         (meshes_with_multiple_armatures objects selected_meshes))
  else
    let armatures := single_armatures objects selected_meshes in
    let armature_to_meshes := get_meshes_from_armatures objects armatures in
    let objects :=
      foldl (fun objs mesh => undo_step VertexGroup current_rules mesh mesh objs)
            objects selected_meshes in
    let objects :=
      if sync_group_bone then
        foldl (fun objs armature =>
                 foldl (fun objs mesh => undo_bones_step current_rules mesh armature objs)
                       objs (default [] (dict_get armature_to_meshes armature)))
              objects armatures
      else objects in
    {| out_result := FINISHED; out_objects := objects; out_reports := [];
       out_events := [] |}.

(** [OBJECT_OT_quick_mirror_vertex_groups.execute]: with synchronization
    the selected meshes are mirrored a second time, after the armatures. *)
Definition quick_mirror_vertex_groups_execute
    (sync_group_bone : bool) (selected_objects : list nat) (objects : list Object)
    : outcome :=
  let selected_meshes := selected_of_type MESH objects selected_objects in
  if decide (selected_meshes = []) then
    cancelled objects (WARNING, "No mesh objects selected.")
  else if sync_group_bone
          && bool_decide (meshes_with_multiple_armatures objects selected_meshes ≠ [])
  then
    cancelled objects
      (multiple_armatures_report objects
         (meshes_with_multiple_armatures objects selected_meshes))
  else
    let armatures := single_armatures objects selected_meshes in
    let objects :=
      foldl (fun objs mesh => mirror_step VertexGroup mesh objs) objects selected_meshes in
    let objects :=
      if sync_group_bone then
        foldl (fun objs mesh => mirror_step VertexGroup mesh objs)
              (foldl (fun objs armature => mirror_bone_names armature objs)
                     objects armatures)
              selected_meshes
      else objects in
    {| out_result := FINISHED; out_objects := objects; out_reports := [];
       out_events := [] |}.

(** The synchronization block that opens the three armature operators. It
    computes the linked meshes and nothing reads them: the report and the
    [return] for an armature with several meshes are comments in the
    source, and so is the loop over the linked meshes that would end each
    of these operators. *)
Definition armature_sync_block (objects : list Object) (selected_armatures : list nat)
    : list nat * list (nat * armature_link) :=
  let armature_to_meshes := get_meshes_from_armatures objects selected_armatures in
  let armatures_with_multiple_meshes :=
    (filter (fun item => 1 < length item.2) armature_to_meshes).*1 in
  let armature_to_single_mesh :=
    omap (fun item => pair item.1 <$> head item.2) armature_to_meshes in
  let meshes := remove_dups armature_to_single_mesh.*2 in
  let mesh_to_armatures := get_armatures_from_meshes objects meshes in
  (armatures_with_multiple_meshes, mesh_to_armatures).

(** [OBJECT_OT_rename_bones.execute] *)
Definition rename_bones_execute (current_rules : preset)
    (sync_group_bone : bool) (selected_objects : list nat) (objects : list Object)
    : option outcome :=
  let selected_armatures := selected_of_type ARMATURE objects selected_objects in
  if decide (selected_armatures = []) then
    Some (cancelled objects (WARNING, "No armatures selected."))
  else
    let unused :=
      if sync_group_bone then Some (armature_sync_block objects selected_armatures)
      else None in
    st ← for_each (fun armature => rename_bones_step current_rules armature armature)
                  selected_armatures (objects, []);
    Some {| out_result := FINISHED; out_objects := st.1; out_reports := [];
            out_events := st.2 |}.

(** [OBJECT_OT_undo_bone_renames.execute] *)
Definition undo_bone_renames_execute (current_rules : preset)
    (sync_group_bone : bool) (selected_objects : list nat) (objects : list Object)
    : outcome :=
  let selected_armatures := selected_of_type ARMATURE objects selected_objects in
  if decide (selected_armatures = []) then
    cancelled objects (WARNING, "No armatures selected.")
  else
    let unused :=
      if sync_group_bone then Some (armature_sync_block objects selected_armatures)
      else None in
    {| out_result := FINISHED;
       out_objects :=
         foldl (fun objs armature => undo_bones_step current_rules armature armature objs)
               objects selected_armatures;
       out_reports := []; out_events := [] |}.

(** [OBJECT_OT_quick_mirror_bone_names.execute] *)
Definition quick_mirror_bone_names_execute
    (sync_group_bone : bool) (selected_objects : list nat) (objects : list Object)
    : outcome :=
  let selected_armatures := selected_of_type ARMATURE objects selected_objects in
  if decide (selected_armatures = []) then
    cancelled objects (WARNING, "No armatures selected.")
  else
    let unused :=
      if sync_group_bone then Some (armature_sync_block objects selected_armatures)
      else None in
    {| out_result := FINISHED;
       out_objects :=
         foldl (fun objs armature => mirror_bone_names armature objs)
               objects selected_armatures;
       out_reports := []; out_events := [] |}.

(** The six operators that rename, undo and mirror. *)
Inductive operator :=
  | RENAME_VERTEX_GROUPS | UNDO_VERTEX_GROUP_RENAME | QUICK_MIRROR_VERTEX_GROUPS
  | RENAME_BONES | UNDO_BONE_RENAMES | QUICK_MIRROR_BONE_NAMES.

Definition on_meshes (op : operator) : bool :=
  match op with
  | RENAME_VERTEX_GROUPS | UNDO_VERTEX_GROUP_RENAME | QUICK_MIRROR_VERTEX_GROUPS => true
  | _ => false
  end.

(** Running one of them; [None] when the host raised. *)
Definition execute (op : operator) (current_rules : preset) (sync_group_bone : bool)
    (selected_objects : list nat) (objects : list Object) : option outcome :=
  match op with
  | RENAME_VERTEX_GROUPS =>
      rename_vertex_groups_execute current_rules sync_group_bone selected_objects objects
  | UNDO_VERTEX_GROUP_RENAME =>
      Some (undo_vertex_group_rename_execute current_rules sync_group_bone
              selected_objects objects)
  | QUICK_MIRROR_VERTEX_GROUPS =>
      Some (quick_mirror_vertex_groups_execute sync_group_bone selected_objects objects)
  | RENAME_BONES =>
      rename_bones_execute current_rules sync_group_bone selected_objects objects
  | UNDO_BONE_RENAMES =>
      Some (undo_bone_renames_execute current_rules sync_group_bone
              selected_objects objects)
  | QUICK_MIRROR_BONE_NAMES =>
      Some (quick_mirror_bone_names_execute sync_group_bone selected_objects objects)
  end.

End operators.

(** ** A host to run the code on *)

(** The name Blender gives on a collision: the asked name with the first
    free suffix [.001], [.002], ... *)
Definition pad3 (k : nat) : string :=
  if decide (k < 10) then "00" +:+ pretty k
  else if decide (k < 100) then "0" +:+ pretty k
  else pretty k.

Definition blender_unique_name (others : list string) (n : string) : string :=
  if bool_decide (n ∈ others) then
    default n
      (head (filter (fun c => c ∉ others)
                    ((fun k => n +:+ "." +:+ pad3 k) <$> seq 1 (S (length others)))))
  else n.

Lemma blender_unique_name_fresh others n :
  n ∉ others → blender_unique_name others n = n.
Proof.
  intros Hn. unfold blender_unique_name.
  by rewrite bool_decide_eq_false_2.
Qed.

Definition blender_host : Host := {|
  unique_name := blender_unique_name;
  unique_name_fresh := blender_unique_name_fresh;
|}.

(** A host that lets a member take any name, taken or not. *)
Definition permissive_host : Host := {|
  unique_name := fun _ n => n;
  unique_name_fresh := fun _ _ _ => eq_refl;
|}.

(** ** Objects for the examples *)

Definition group (name : string) (weights : list (nat * Q)) : VertexGroup :=
  {| vg_name := name; vg_weights := list_to_map weights |}.

Definition mesh_object (name : string) (mods : list Modifier)
    (groups : list VertexGroup) (n : nat) : Object :=
  {| obj_name := name; obj_type := MESH; modifiers := mods;
     vertex_groups := groups; n_vertices := n; bones := [] |}.

Definition bone (name : string) : Bone := with_name name new_bone.

Definition armature_object (name : string) (bs : list Bone) : Object :=
  {| obj_name := name; obj_type := ARMATURE; modifiers := [];
     vertex_groups := []; n_vertices := 0; bones := bs |}.

Definition armature_modifier (armature : nat) : Modifier :=
  {| mod_type := ARMATURE_MODIFIER; mod_object := Some armature |}.

(** The sum of a list of weights. *)
Definition Qsum (ws : list Q) : Q := foldr Qplus 0%Q ws.

(** A state of the add-on with the table [t] in memory and in a writable
    file, the preset "Default" current. *)
Definition addon_with (t : preset_table) : addon :=
  {| rule_store := {| presets := t; current_preset := "Default";
                      preset_dropdown := "Default" |};
     prefix_expand_states := [];
     presets_file := {| file_content := Some t; file_writable := true |} |}.

(** The same with a file that cannot be written. *)
Definition addon_read_only (t : preset_table) : addon :=
  {| rule_store := {| presets := t; current_preset := "Default";
                      preset_dropdown := "Default" |};
     prefix_expand_states := [];
     presets_file := {| file_content := Some t; file_writable := false |} |}.

(** ** Vocabulary of the statements *)

(** [prefix] is a case-insensitive prefix of [name], as the operators test
    it. *)
Definition ci_prefix (prefix name : string) : Prop :=
  startswith (lower name) (lower prefix) = true.

(** What a list of renames, read as a dictionary, does to one member. *)
Definition renamed_by {A : Type} {named : Named A}
    (ren : list (string * string)) (x : A) : A :=
  match dict_get ren (name_of x) with
  | Some new => with_name new x
  | None => x
  end.

(** The name a ruleset gives to a member of the given name. *)
Definition target_name (rules : ruleset) (n : string) : string :=
  default n (dict_get rules n).

(** The renames a ruleset asks for on the given names, in their order. *)
Definition renames_of (rules : ruleset) (ns : list string) : list (string * string) :=
  omap (fun n => (fun new => (n, new)) <$> dict_get rules n) ns.

(** The counterpart [mirror_names] looks for: "L_" and "R_" exchanged at
    the front of the name. *)
Definition counterpart (name : string) : option string :=
  if startswith name "L_" then Some ("R_" +:+ drop_chars 2 name)
  else if startswith name "R_" then Some ("L_" +:+ drop_chars 2 name)
  else None.

(** The name [mirror_names] is to leave a member with: that of its
    counterpart when the collection has one, its own otherwise. *)
Definition mirrored_name (member_names : list string) (name : string) : string :=
  match counterpart name with
  | Some c => if bool_decide (c ∈ member_names) then c else name
  | None => name
  end.

(** Whether [mirror_names] is to rename a member of this name. *)
Definition paired (ns : list string) (n : string) : bool :=
  match counterpart n with
  | Some c => bool_decide (c ∈ ns)
  | None => false
  end.

(** The names among [ns] that [mirror_names] is to change. *)
Definition paired_names (ns : list string) : list string :=
  filter (fun n => paired ns n = true) ns.

(** The renames of the first and of the third loop of [mirror_names] for
    names [ns]: every name with a counterpart goes to its temporary name,
    and from there to the name of the counterpart. *)
Definition to_temp_names (ns : list string) : list (string * string) :=
  (fun n => (n, "__swap_temp__" +:+ mirrored_name ns n)) <$> paired_names ns.

Definition from_temp_names (ns : list string) : list (string * string) :=
  (fun n => ("__swap_temp__" +:+ mirrored_name ns n, mirrored_name ns n))
    <$> paired_names ns.

(** What adding a weight to a running sum gives. *)
Definition add_weight (o : option Q) (w : Q) : Q :=
  match o with Some s => (s + w)%Q | None => w end.

(** The weight of a vertex in the source group of a given name. *)
Definition source_weight (groups : list VertexGroup) (v : nat) (s : string) : Q :=
  match coll_get groups s with
  | Some (_, g) => weight_or_zero g v
  | None => 0%Q
  end.

(** The running sum over the source groups, for one vertex. *)
Definition sum_sources (gs : list VertexGroup) (v : nat) (o : option Q)
    (sources : list string) : option Q :=
  foldl (fun o s =>
           match coll_get gs s with
           | Some (_, g) => Some (add_weight o (weight_or_zero g v))
           | None => o
           end) o sources.

(** A weight in the host's range. *)
Definition weight_in_range (w : Q) : Prop := (0 <= w)%Q ∧ (w <= 1)%Q.

#[export] Instance weight_in_range_dec (w : Q) : Decision (weight_in_range w).
Proof.
  unfold weight_in_range.
  destruct (Qlt_le_dec w 0) as [Hneg|Hpos].
  - right. intros [H0 _]. by apply (Qlt_not_le _ _ Hneg).
  - destruct (Qlt_le_dec 1 w) as [Hbig|Hle].
    + right. intros [_ H1]. by apply (Qlt_not_le _ _ Hbig).
    + by left.
Defined.

(** The groups hold weights of the host's range only, as the groups of a
    mesh do. *)
Definition weights_in_range (gs : list VertexGroup) : Prop :=
  Forall (fun g => map_Forall (fun _ w => weight_in_range w) (vg_weights g)) gs.

(** How the groups [gs'] relate to [gs] after the vertices [vs] have been
    normalized: names are kept; at a vertex of [vs] whose total exceeds one
    every weight is the old one divided by the total; all other weights are
    as they were. *)
Definition normalized_at (vs : list nat) (gs gs' : list VertexGroup) : Prop :=
  Forall2 (fun g g' =>
             vg_name g' = vg_name g
             ∧ ∀ v, vg_weight g' v
                    = if bool_decide (v ∈ vs) then
                        if Qlt_le_dec 1 (total_weight v gs)
                        then Some (weight_or_zero g v / total_weight v gs)%Q
                        else vg_weight g v
                      else vg_weight g v)
          gs gs'.

(** All source names of a list of buckets. *)
Definition all_sources (buckets : list (string * list string)) : list string :=
  mjoin buckets.*2.

(** What the rename loop needs of a merge to go on: for sources that are
    present it returns, and keeps the names that are not its sources. *)
Definition merge_returns {A : Type} {host : Host} {named : Named A}
    {container : Container A} : Prop :=
  ∀ (obj : Object) (target : string) (sources : list string),
    NoDup sources → (∀ s, s ∈ sources → s ∈ names (members obj)) →
    ∃ obj' evs,
      merge_members obj target sources = Some (obj', evs)
      ∧ ∀ n, n ∈ names (members obj) → n ∉ sources → n ∈ names (members obj').

(** The events that are renames. *)
Definition is_Renaming (e : event) : bool :=
  match e with Renaming _ _ => true | _ => false end.

(** The events of a run without the renames: merges and normalizations. *)
Definition merge_events (evs : list event) : list event :=
  filter (fun e => is_Renaming e = false) evs.

(** The buckets of [new_to_sources] that are merged. *)
Definition merge_buckets (buckets : list (string * list string))
    : list (string * list string) :=
  filter (fun b => 1 < length b.2) buckets.

(** What [get_armatures_from_meshes] stores for a mesh, from the armatures
    its modifiers point to. *)
Definition link_of (armatures : list nat) : option armature_link :=
  match armatures with
  | [] => None
  | [armature] => Some (Single armature)
  | a1 :: a2 :: rest => Some (Multiple (a1 :: a2 :: rest))
  end.

(** The state after an edit of the current preset that was saved and read
    back: the table [t1 ++ (current, rules) :: t2] in memory and in the
    file, the current preset and the shown one as before, every ruleset of
    the current preset collapsed. *)
Definition edited (st : addon) (t1 t2 : preset_table) (rules : preset) : addon :=
  let t := t1 ++ (the_current_preset st, rules) :: t2 in
  {| rule_store := {| presets := t;
                      current_preset := the_current_preset st;
                      preset_dropdown := the_preset_dropdown st |};
     prefix_expand_states := collapsed rules;
     presets_file := {| file_content := Some t; file_writable := true |} |}.

(** The state in which the preset [name] of the table [t] has just been
    selected: it is the current preset and the one shown, and its rulesets
    are collapsed. *)
Definition selected (t : preset_table) (name : string) (f : preset_file) : addon :=
  {| rule_store := {| presets := t; current_preset := name; preset_dropdown := name |};
     prefix_expand_states := collapsed (default [] (dict_get t name));
     presets_file := f |}.

(** The rules of a preset in the order of the panel, each with the prefix
    of its ruleset: (prefix, old name, new name). *)
Definition rule_rows (current_rules : preset) : list (string * string * string) :=
  flat_map (fun item => (fun rule => (item.1, rule.1, rule.2)) <$> item.2) current_rules.

(** The text field for the old name that [register_dynamic_properties]
    makes for a rule. *)
Definition original_property (row : string * string * string) : rule_property :=
  {| prop_default := row.1.2; prop_prefix := row.1.1;
     prop_original := row.1.2; prop_new := row.2 |}.

(** The objects with an armature modifier on the armature [a]. *)
Definition deformed_by (objects : list Object) (a : nat) : list nat :=
  filter (fun j => uses_armature a <$> objects !! j = Some true)
         (seq 0 (length objects)).

(** The objects an operator works on: the selected objects of its type,
    for the mesh operators with synchronization the armatures of the
    selected meshes, and the objects that one of these armatures deforms,
    whose vertex groups follow its bones. *)
Definition touched (op : operator) (sync_group_bone : bool)
    (selected_objects : list nat) (objects : list Object) : list nat :=
  let meshes := selected_of_type MESH objects selected_objects in
  let armatures :=
    if on_meshes op then
      if sync_group_bone then single_armatures objects meshes else []
    else selected_of_type ARMATURE objects selected_objects in
  (if on_meshes op then meshes else [])
  ++ armatures ++ (armatures ≫= deformed_by objects).

(** [objects'] is [objects] but for the objects at the indices [targets]. *)
Definition same_outside (targets : list nat) (objects objects' : list Object) : Prop :=
  length objects' = length objects
  ∧ ∀ i, i ∉ targets → objects' !! i = objects !! i.

(** What a pass over the vertex groups of the meshes [meshes] and the
    bones of the armatures [arms] may change: every object keeps its name,
    type, modifiers and vertices; bones change in the armatures only; and
    vertex groups change only in the meshes and in the objects with an
    armature modifier on one of the armatures. *)
Definition changed_within (meshes arms : list nat) (objects objects' : list Object)
    : Prop :=
  length objects' = length objects
  ∧ ∀ j o, objects !! j = Some o →
      ∃ o', objects' !! j = Some o'
            ∧ obj_name o' = obj_name o
            ∧ obj_type o' = obj_type o
            ∧ modifiers o' = modifiers o
            ∧ n_vertices o' = n_vertices o
            ∧ (j ∉ arms → bones o' = bones o)
            ∧ (j ∉ meshes → (∀ a, a ∈ arms → uses_armature a o = false) →
               vertex_groups o' = vertex_groups o).

(** The name a vertex group has once the bones of its armature, called
    [bone_names] before, have been mirrored: the group of a bone that was
    given the name of its counterpart is given that name too. *)
Definition follows_bones (bone_names : list string) (n : string) : string :=
  if bool_decide (n ∈ bone_names) then mirrored_name bone_names n else n.

(** * Properties *)

(** ** Dictionaries *)

Section dict_facts.
Context {K V : Type} `{EqDecision K}.
Implicit Types (d : list (K * V)) (k : K) (v : V).

Lemma dict_get_None d k : dict_get d k = None ↔ k ∉ dict_keys d.
Proof.
  unfold dict_keys. induction d as [|[k' v'] d IH]; simpl.
  - split; [intros _; apply not_elem_of_nil | done].
  - rewrite not_elem_of_cons. case_decide; subst.
    + split; [done | intros [? _]; done].
    + rewrite IH. naive_solver.
Qed.

Lemma dict_get_Some_elem d k v : dict_get d k = Some v → (k, v) ∈ d.
Proof.
  induction d as [|[k' v'] d IH]; simpl; [done|].
  case_decide; subst.
  - intros [= ->]. apply list_elem_of_here.
  - intros ?. apply list_elem_of_further. auto.
Qed.

Lemma dict_in_keys d k : dict_in d k = true ↔ k ∈ dict_keys d.
Proof.
  unfold dict_in. rewrite bool_decide_eq_true.
  destruct (dict_get d k) eqn:E.
  - split; [intros _|eauto].
    destruct (decide (k ∈ dict_keys d)) as [|Hn]; [done|].
    apply dict_get_None in Hn. congruence.
  - apply dict_get_None in E. split; [intros [? [=]] | done].
Qed.

Lemma dict_get_app_l d1 d2 k :
  k ∈ dict_keys d1 → dict_get (d1 ++ d2) k = dict_get d1 k.
Proof.
  unfold dict_keys. induction d1 as [|[k' v'] d1 IH]; simpl.
  - intros Hk. by apply elem_of_nil in Hk.
  - intros Hk. case_decide; [done|].
    apply elem_of_cons in Hk as [->|Hk]; [done | auto].
Qed.

Lemma dict_get_app_r d1 d2 k :
  k ∉ dict_keys d1 → dict_get (d1 ++ d2) k = dict_get d2 k.
Proof.
  unfold dict_keys. induction d1 as [|[k' v'] d1 IH]; simpl; [done|].
  rewrite not_elem_of_cons. intros [? ?]. case_decide; [congruence | auto].
Qed.

Lemma dict_set_fresh d k v : k ∉ dict_keys d → dict_set d k v = d ++ [(k, v)].
Proof.
  unfold dict_keys. induction d as [|[k' v'] d IH]; simpl; [done|].
  rewrite not_elem_of_cons. intros [? ?].
  case_decide; [congruence|]. by rewrite IH.
Qed.

Lemma dict_set_middle d1 d2 k v v' :
  k ∉ dict_keys d1 → dict_set (d1 ++ (k, v) :: d2) k v' = d1 ++ (k, v') :: d2.
Proof.
  unfold dict_keys. induction d1 as [|[k1 v1] d1 IH]; simpl.
  - intros _. by rewrite decide_True.
  - rewrite not_elem_of_cons. intros [? ?].
    case_decide; [congruence|]. by rewrite IH.
Qed.

Lemma dict_get_set d k v k' :
  dict_get (dict_set d k v) k' = if decide (k = k') then Some v else dict_get d k'.
Proof.
  induction d as [|[k1 v1] d IH]; simpl.
  - by repeat case_decide.
  - repeat (case_decide; simpl; subst); try congruence.
Qed.

Lemma dict_keys_set_present d k v :
  k ∈ dict_keys d → dict_keys (dict_set d k v) = dict_keys d.
Proof.
  unfold dict_keys. induction d as [|[k1 v1] d IH]; simpl.
  - intros Hk. by apply elem_of_nil in Hk.
  - intros Hk. case_decide; simpl; subst; [done|].
    apply elem_of_cons in Hk as [->|Hk]; [done|]. f_equal. by apply IH.
Qed.

End dict_facts.

(** ** Rule store *)

Lemma NoDup_replace_key (ks : list string) (old_key new_key : string) :
  NoDup ks →
  (new_key ∈ ks → new_key = old_key) →
  NoDup ((fun k => if decide (k = old_key) then new_key else k) <$> ks).
Proof.
  intros Hnd Hnew. apply NoDup_fmap_2_strong; [|done].
  intros k1 k2 Hk1 Hk2. repeat case_decide; subst; try done.
  - intros <-. by specialize (Hnew Hk2).
  - intros ->. by specialize (Hnew Hk1).
Qed.

(** The loop of [rename_key_in_ordered_dict] rewrites the keys in place
    when the new key is not one of the others. *)
Lemma rename_key_in_ordered_dict_map {V : Type} (d : list (string * V))
    (old_key new_key : string) :
  NoDup (dict_keys d) →
  (new_key ∈ dict_keys d → new_key = old_key) →
  rename_key_in_ordered_dict d old_key new_key
  = (fun kv => (if decide (kv.1 = old_key) then new_key else kv.1, kv.2)) <$> d.
Proof.
  intros Hnd Hnew. unfold rename_key_in_ordered_dict.
  set (g := fun kv : string * V =>
              (if decide (kv.1 = old_key) then new_key else kv.1, kv.2)).
  assert (Hgen : ∀ acc,
    NoDup (dict_keys (acc ++ (g <$> d))) →
    foldl (fun new_dict kv =>
             if decide (kv.1 = old_key)
             then dict_set new_dict new_key kv.2
             else dict_set new_dict kv.1 kv.2) acc d = acc ++ (g <$> d)).
  { clear Hnd Hnew. induction d as [|[k v] d IH]; intros acc Hacc; simpl.
    - by rewrite app_nil_r.
    - simpl in Hacc.
      assert (Hfresh : (g (k, v)).1 ∉ dict_keys acc).
      { unfold dict_keys in *. rewrite fmap_app in Hacc.
        apply NoDup_app in Hacc as (_ & Hdisj & _).
        intros Hin. apply (Hdisj _ Hin). simpl. apply list_elem_of_here. }
      replace (if decide (k = old_key) then dict_set acc new_key v else dict_set acc k v)
        with (dict_set acc (g (k, v)).1 (g (k, v)).2)
        by (unfold g; simpl; by case_decide).
      rewrite dict_set_fresh by done.
      rewrite IH.
      + rewrite <- app_assoc. reflexivity.
      + rewrite <- app_assoc. exact Hacc. }
  rewrite (Hgen []); [done|]. rewrite app_nil_l.
  unfold dict_keys. rewrite <- list_fmap_compose.
  by apply (NoDup_replace_key (d.*1) old_key new_key) in Hnd;
    [rewrite <- list_fmap_compose in Hnd|].
Qed.

(** C8, as the code has it. For a ruleset [l1 ++ (original, new) :: l2]
    with distinct keys, an edit of the rule to [new_original] and
    [new_new] that does not collide returns with the rule rewritten where
    it stands: the ruleset is [l1 ++ (new_original, new_new) :: l2]. An
    edit whose new key is another key of the ruleset does not return:
    [update_rule] raises on its call of [self.report], the ruleset is as
    it was, and the two text fields still hold the rejected edit instead of
    [original] and [new]. *)
Theorem edit_rule_collision_raises (prefix original new new_original new_new : string)
    (l1 l2 : ruleset) :
  NoDup (dict_keys (l1 ++ (original, new) :: l2)) →
  let st := {| row_rules := l1 ++ (original, new) :: l2;
               row_original_prop := new_original;
               row_new_prop := new_new |} in
  (new_original ∈ dict_keys (l1 ++ l2) →
     update_rule prefix original new st = Raised st)
  ∧ (new_original ∉ dict_keys (l1 ++ l2) →
     update_rule prefix original new st
     = Returned {| row_rules := l1 ++ (new_original, new_new) :: l2;
                   row_original_prop := new_original;
                   row_new_prop := new_new |}).
Proof.
  intros Hnd st. unfold dict_keys in *.
  rewrite fmap_app, fmap_cons in Hnd. simpl in Hnd.
  apply NoDup_app in Hnd as (Hnd1 & Hdisj & Hnd2).
  apply NoDup_cons in Hnd2 as [Ho2 Hnd2].
  assert (Ho1 : original ∉ l1.*1).
  { intros Hin. apply (Hdisj _ Hin), list_elem_of_here. }
  rewrite fmap_app. setoid_rewrite elem_of_app.
  split.
  - intros Hcoll.
    assert (Hne : new_original ≠ original) by (intros ->; naive_solver).
    assert (Hin : dict_in (row_rules st) new_original = true).
    { apply dict_in_keys. unfold dict_keys. simpl.
      rewrite fmap_app, fmap_cons, elem_of_app, elem_of_cons. naive_solver. }
    unfold update_rule.
    replace (row_original_prop st) with new_original by done.
    by rewrite Hin, (bool_decide_eq_true_2 _ Hne).
  - intros Hfree.
    unfold update_rule.
    replace (row_original_prop st) with new_original by done.
    replace (row_new_prop st) with new_new by done.
    replace (row_rules st) with (l1 ++ (original, new) :: l2) by done.
    destruct (bool_decide (new_original ≠ original) || bool_decide (new_new ≠ new)) eqn:Hch.
    + assert (Hnot : dict_in (l1 ++ (original, new) :: l2) new_original
                     && bool_decide (new_original ≠ original) = false).
      { apply andb_false_iff.
        destruct (decide (new_original = original)) as [->|Hne].
        - right. by apply bool_decide_eq_false_2; intros ?.
        - left. apply not_true_is_false. rewrite dict_in_keys. unfold dict_keys.
          rewrite fmap_app, fmap_cons, elem_of_app, elem_of_cons. naive_solver. }
      rewrite Hnot. simpl. f_equal. f_equal.
      rewrite rename_key_in_ordered_dict_map.
      * rewrite fmap_app, fmap_cons. simpl. rewrite decide_True by done.
        assert (Hid : ∀ l : ruleset, original ∉ l.*1 →
                  (fun kv : string * string =>
                     (if decide (kv.1 = original) then new_original else kv.1, kv.2)) <$> l = l).
        { intros l Hl. induction l as [|[k v] l IH]; [done|].
          rewrite fmap_cons in Hl. apply not_elem_of_cons in Hl as [? ?].
          rewrite fmap_cons, IH by done. simpl. by rewrite decide_False by done. }
        rewrite !Hid by done.
        apply dict_set_middle. unfold dict_keys. naive_solver.
      * unfold dict_keys. rewrite fmap_app, fmap_cons. simpl.
        apply NoDup_app. repeat split; [done|done|]. by apply NoDup_cons.
      * unfold dict_keys. rewrite fmap_app, fmap_cons, elem_of_app, elem_of_cons.
        simpl. naive_solver.
    + apply orb_false_iff in Hch as [H1 H2].
      apply bool_decide_eq_false in H1, H2.
      apply dec_stable in H1, H2. by subst.
Qed.

(** C8, on the ruleset [{a:x, b:y, c:z}]: [b] edited to [c] raises and
    leaves "c" in the text field of the rule [b]; [b] edited to [bb] stays
    second. *)
Lemma edit_rule_collision_raises_example :
  update_rule "" "b" "y"
    {| row_rules := [("a", "x")] ++ ("b", "y") :: [("c", "z")];
       row_original_prop := "c"; row_new_prop := "y" |}
  = Raised {| row_rules := [("a", "x")] ++ ("b", "y") :: [("c", "z")];
              row_original_prop := "c"; row_new_prop := "y" |}
  ∧ update_rule "" "b" "y"
      {| row_rules := [("a", "x")] ++ ("b", "y") :: [("c", "z")];
         row_original_prop := "bb"; row_new_prop := "y" |}
    = Returned {| row_rules := [("a", "x")] ++ ("bb", "y") :: [("c", "z")];
                  row_original_prop := "bb"; row_new_prop := "y" |}.
Proof.
  split.
  - apply (edit_rule_collision_raises "" "b" "y" "c" "y" [("a", "x")] [("c", "z")]).
    + compute_done.
    + compute_done.
  - apply (edit_rule_collision_raises "" "b" "y" "bb" "y" [("a", "x")] [("c", "z")]).
    + compute_done.
    + compute_done.
Defined.

(** C9. [OBJECT_OT_remove_preset.execute] on the preset named "Default",
    or on a table with a single preset, leaves the store as it is; when the
    preset is in the table the operator is cancelled with one warning. *)
Theorem remove_preset_protected (st : store) :
  current_preset st = "Default" ∨ length (presets st) = 1 →
  (remove_preset_execute st).1.2 = st
  ∧ (current_preset st ∈ dict_keys (presets st) →
     (remove_preset_execute st).1.1 = CANCELLED
     ∧ ∃ msg, (remove_preset_execute st).2 = [(WARNING, msg)]).
Proof.
  intros Hprot. unfold remove_preset_execute.
  destruct (dict_in (presets st) (current_preset st)) eqn:Hin.
  - destruct (decide (current_preset st = "Default")); [by eauto|].
    destruct (decide (length (presets st) = 1)); [by eauto|].
    by destruct Hprot.
  - split; [done|]. intros Hk. apply dict_in_keys in Hk. congruence.
Qed.

(** C9, on a table with "Default" and one more preset, and on a table with
    one preset that is not "Default". *)
Lemma remove_preset_protected_example :
  ((remove_preset_execute
      {| presets := [("Default", []); ("Rig", [("", [("a", "b")])])];
         current_preset := "Default"; preset_dropdown := "Default" |}).1.2
   = {| presets := [("Default", []); ("Rig", [("", [("a", "b")])])];
        current_preset := "Default"; preset_dropdown := "Default" |})
  ∧ ((remove_preset_execute
      {| presets := [("Rig", [("", [("a", "b")])])];
         current_preset := "Rig"; preset_dropdown := "Rig" |}).1.2
   = {| presets := [("Rig", [("", [("a", "b")])])];
        current_preset := "Rig"; preset_dropdown := "Rig" |}).
Proof.
  split.
  - apply (remove_preset_protected
             {| presets := [("Default", []); ("Rig", [("", [("a", "b")])])];
                current_preset := "Default"; preset_dropdown := "Default" |}).
    left. reflexivity.
  - apply (remove_preset_protected
             {| presets := [("Rig", [("", [("a", "b")])])];
                current_preset := "Rig"; preset_dropdown := "Rig" |}).
    right. reflexivity.
Defined.

(** ** Prefix resolver *)

Lemma first_matching_prefix_Some (name : string) (l1 l2 : list string) (p : string) :
  p ≠ "" → ci_prefix p name →
  (∀ q, q ∈ l1 → q ≠ "" → ¬ ci_prefix q name) →
  first_matching_prefix (lower name) (l1 ++ p :: l2) = Some p.
Proof.
  intros Hp Hm Hl1. induction l1 as [|q l1 IH]; simpl.
  - by rewrite (bool_decide_eq_true_2 _ Hp), Hm.
  - destruct (decide (q = "")) as [->|Hq].
    + rewrite bool_decide_eq_false_2 by (by intros ?). simpl.
      apply IH. intros r Hr. apply Hl1. by apply list_elem_of_further.
    + rewrite (bool_decide_eq_true_2 _ Hq). simpl.
      rewrite (not_true_is_false _ (Hl1 q (list_elem_of_here _ _) Hq)).
      apply IH. intros r Hr. apply Hl1. by apply list_elem_of_further.
Qed.

Lemma first_matching_prefix_None (name : string) (l : list string) :
  (∀ q, q ∈ l → q ≠ "" → ¬ ci_prefix q name) →
  first_matching_prefix (lower name) l = None.
Proof.
  intros Hl. induction l as [|q l IH]; simpl; [done|].
  destruct (decide (q = "")) as [->|Hq].
  - rewrite bool_decide_eq_false_2 by (by intros ?). simpl.
    apply IH. intros r Hr. apply Hl. by apply list_elem_of_further.
  - rewrite (bool_decide_eq_true_2 _ Hq). simpl.
    rewrite (not_true_is_false _ (Hl q (list_elem_of_here _ _) Hq)).
    apply IH. intros r Hr. apply Hl. by apply list_elem_of_further.
Qed.

(** C3. Prefix resolution takes the first non-empty prefix, in the stored
    order of the table, that is a case-insensitive prefix of the name (first
    match, not longest match); when no non-empty prefix matches it takes
    the empty prefix if the table has it; otherwise it selects nothing, no
    ruleset is resolved and a rename pass leaves the objects as they are.
    For "Char_Body", the table ["Char_"; ""] gives "Char_" in either
    order, and the shorter prefix wins when it is stored first. *)
Theorem prefix_resolution_first_match (current_rules : preset) (name : string) :
  (∀ l1 p l2,
     dict_keys current_rules = l1 ++ p :: l2 →
     p ≠ "" → ci_prefix p name →
     (∀ q, q ∈ l1 → q ≠ "" → ¬ ci_prefix q name) →
     match_prefix current_rules name = Some p)
  ∧ ((∀ q, q ∈ dict_keys current_rules → q ≠ "" → ¬ ci_prefix q name) →
     "" ∈ dict_keys current_rules →
     match_prefix current_rules name = Some "")
  ∧ ((∀ q, q ∈ dict_keys current_rules → q ≠ "" → ¬ ci_prefix q name) →
     "" ∉ dict_keys current_rules →
     match_prefix current_rules name = None
     ∧ resolve_rules current_rules name = None
     ∧ ∀ (A : Type) (host : Host) (named : Named A) (container : Container A)
         (source target : nat) (src : Object) (st : list Object * list event),
         st.1 !! source = Some src → obj_name src = name →
         rename_step A current_rules source target st = Some st)
  ∧ match_prefix [("Char_", []); ("", [])] "Char_Body" = Some "Char_"
  ∧ match_prefix [("", []); ("Char_", [])] "Char_Body" = Some "Char_"
  ∧ match_prefix [("Char_", []); ("Char_Bo", [])] "Char_Body" = Some "Char_"
  ∧ match_prefix [("Char_Bo", []); ("Char_", [])] "Char_Body" = Some "Char_Bo".
Proof.
  split; [|split; [|split]].
  - intros l1 p l2 Hkeys Hp Hm Hl1. unfold match_prefix.
    by rewrite Hkeys, first_matching_prefix_Some.
  - intros Hnone Hempty. unfold match_prefix.
    rewrite first_matching_prefix_None by done.
    apply dict_in_keys in Hempty. by rewrite Hempty.
  - intros Hnone Hempty.
    assert (Hm : match_prefix current_rules name = None).
    { unfold match_prefix. rewrite first_matching_prefix_None by done.
      destruct (dict_in current_rules "") eqn:E; [|done].
      by apply dict_in_keys in E. }
    assert (Hr : resolve_rules current_rules name = None).
    { unfold resolve_rules. by rewrite Hm. }
    repeat split; [done..|].
    intros A ? ? ? source target src st Hsrc Hname.
    unfold rename_step. rewrite Hsrc, Hname, Hr.
    by destruct (st.1 !! target).
  - repeat split; reflexivity.
Qed.

(** C3, at the table ["ch"; "Char_"; ""] and the name "CHar_Body": "ch"
    is the first non-empty prefix that matches. *)
Lemma prefix_resolution_first_match_example :
  match_prefix [("x", []); ("", []); ("ch", []); ("Char_", [])] "CHar_Body" = Some "ch".
Proof.
  apply (proj1 (prefix_resolution_first_match
                  [("x", []); ("", []); ("ch", []); ("Char_", [])] "CHar_Body")
               ["x"; ""] "ch" ["Char_"]).
  - reflexivity.
  - done.
  - reflexivity.
  - intros q Hq Hne.
    apply elem_of_cons in Hq as [->|Hq]; [by vm_compute|].
    apply elem_of_cons in Hq as [->|Hq]; [done|].
    by apply elem_of_nil in Hq.
Defined.

(** ** The host's collections *)

Section collection_facts.
Context {host : Host} {A : Type} {named : Named A}.
Implicit Types (l : list A) (n : string) (x : A).

Lemma names_length l : length (names l) = length l.
Proof. apply length_fmap. Qed.

Lemma names_lookup l i x : l !! i = Some x → names l !! i = Some (name_of x).
Proof. intros Hi. unfold names. by rewrite list_lookup_fmap, Hi. Qed.

Lemma coll_get_None l n : coll_get l n = None ↔ n ∉ names l.
Proof.
  unfold names. induction l as [|x l IH]; simpl.
  - split; [intros _; apply not_elem_of_nil | done].
  - rewrite not_elem_of_cons. case_decide as Hx.
    + split; [done | intros [? _]; by subst].
    + rewrite fmap_None, IH. split; [intros ?; split; [congruence | done] | by intros [_ ?]].
Qed.

Lemma coll_get_Some l n i x :
  coll_get l n = Some (i, x) →
  l !! i = Some x ∧ name_of x = n ∧ ∀ j y, j < i → l !! j = Some y → name_of y ≠ n.
Proof.
  revert i. induction l as [|y l IH]; intros i; simpl; [done|].
  case_decide as Hy.
  - intros [= <- <-]. repeat split; [done|]. intros j z Hj. lia.
  - destruct (coll_get l n) as [[i' x']|] eqn:E; simpl; [|done].
    intros [= <- <-]. destruct (IH i' eq_refl) as (Hl & Hn & Hfirst).
    repeat split; [done..|].
    intros [|j] z Hj; simpl; [by intros [= <-] | intros Hz].
    apply (Hfirst j z); [lia | done].
Qed.

Lemma coll_get_is_Some l n : n ∈ names l → is_Some (coll_get l n).
Proof.
  intros Hn. destruct (coll_get l n) eqn:E; [by eexists|].
  by apply coll_get_None in E.
Qed.

(** Looking a name up in a collection that was extended at its end. *)
Lemma coll_get_app_l l1 l2 n :
  n ∈ names l1 → coll_get (l1 ++ l2) n = coll_get l1 n.
Proof.
  unfold names. induction l1 as [|y l1 IH]; simpl.
  - intros Hn. by apply elem_of_nil in Hn.
  - rewrite elem_of_cons. intros Hn. case_decide as Hy; [done|].
    destruct Hn as [->|Hn]; [done|]. by rewrite IH.
Qed.

Lemma names_delete_subseteq l i n : n ∈ names (delete i l) → n ∈ names l.
Proof.
  unfold names. rewrite list_fmap_delete. intros Hn.
  eapply elem_of_sublist; [done | apply sublist_delete].
Qed.

Lemma names_inj l x y :
  NoDup (names l) → x ∈ l → y ∈ l → name_of x = name_of y → x = y.
Proof.
  intros Hnd [i Hi]%list_elem_of_lookup [j Hj]%list_elem_of_lookup Heq.
  assert (i = j) as ->; [|congruence].
  eapply (NoDup_lookup (names l)); [done | by apply names_lookup |].
  rewrite Heq. by apply names_lookup.
Qed.

(** Assigning a name that no other member has. *)
Lemma set_name_fresh l i n x :
  l !! i = Some x → n ∉ names (delete i l) →
  set_name i n l = <[i := with_name n x]> l.
Proof.
  intros Hi Hn. unfold set_name. by rewrite Hi, unique_name_fresh.
Qed.

Lemma fmap_at_unique_name l i x (f : A → A) :
  NoDup (names l) → l !! i = Some x →
  (fun y => if decide (name_of y = name_of x) then f y else y) <$> l = <[i := f x]> l.
Proof.
  intros Hnd Hi. apply list_eq. intros j.
  rewrite list_lookup_fmap, list_lookup_insert.
  case_decide as Hj.
  - destruct Hj as [<- _]. rewrite Hi. simpl. by rewrite decide_True.
  - destruct (l !! j) as [y|] eqn:Hy; simpl; [|done].
    case_decide as Hname; [|done]. exfalso. apply Hj. split.
    + eapply (NoDup_lookup (names l)); [done | by apply names_lookup |].
      rewrite <- Hname. by apply names_lookup.
    + by apply lookup_lt_Some in Hi.
Qed.

Lemma fmap_absent_name l old (f : A → A) :
  old ∉ names l →
  (fun y => if decide (name_of y = old) then f y else y) <$> l = l.
Proof.
  unfold names. induction l as [|y l IH]; [done|].
  rewrite !fmap_cons, not_elem_of_cons. intros [? ?].
  rewrite decide_False by done. by rewrite IH.
Qed.

(** One rename by name, to a name that is free. *)
Lemma rename_if_found_map old new l :
  NoDup (names l) → new ∉ names l →
  rename_if_found A old new l
  = (fun y => if decide (name_of y = old) then with_name new y else y) <$> l.
Proof.
  intros Hnd Hnew. unfold rename_if_found.
  destruct (coll_get l old) as [[i x]|] eqn:E.
  - apply coll_get_Some in E as (Hi & <- & _).
    rewrite (set_name_fresh l i new x) by
      (try done; intros Hin; by apply Hnew, (names_delete_subseteq l i)).
    symmetry. by apply (fmap_at_unique_name l i x (with_name new)).
  - apply coll_get_None in E. by rewrite fmap_absent_name.
Qed.

Lemma rename_if_found_absent old new l :
  old ∉ names l → rename_if_found A old new l = l.
Proof.
  intros Hold. unfold rename_if_found.
  apply coll_get_None in Hold. by rewrite Hold.
Qed.

(** A batch of renames by name, done one after the other: when the old
    names are distinct, the new names are distinct, free, and none of them
    is an old name, every member is renamed as the batch says. *)
Lemma rename_batch (ren : list (string * string)) l :
  NoDup (names l) → NoDup ren.*1 → NoDup ren.*2 →
  (∀ new, new ∈ ren.*2 → new ∉ names l) →
  (∀ new, new ∈ ren.*2 → new ∉ ren.*1) →
  foldl (fun l p => rename_if_found A p.1 p.2 l) l ren = renamed_by ren <$> l.
Proof.
  revert l. induction ren as [|[old new] ren IH]; intros l Hnd Ho Hn Hfree Hdisj.
  - simpl. unfold renamed_by. simpl. by rewrite list_fmap_id.
  - rewrite !fmap_cons in *. simpl in *.
    apply NoDup_cons in Ho as [Hold Ho]. apply NoDup_cons in Hn as [Hnew Hn].
    assert (Hnew_l : new ∉ names l) by (apply Hfree, list_elem_of_here).
    rewrite rename_if_found_map by done.
    set (g := fun y : A => if decide (name_of y = old) then with_name new y else y).
    assert (Hnames : ∀ m, m ∈ names (g <$> l) → m = new ∨ m ∈ names l).
    { intros m. unfold names. rewrite <- list_fmap_compose, !list_elem_of_fmap.
      intros (y & -> & Hy). unfold g. simpl. case_decide.
      - left. apply name_of_with_name.
      - right. by exists y. }
    rewrite IH.
    + rewrite <- list_fmap_compose. apply list_fmap_ext. intros _ y _.
      unfold renamed_by, g. simpl. case_decide as Hy.
      * rewrite name_of_with_name, decide_True by done.
        destruct (dict_get ren new) eqn:E; [|done].
        exfalso. apply (Hdisj new (list_elem_of_here _ _)).
        apply list_elem_of_further.
        destruct (decide (new ∈ ren.*1)) as [|Hno]; [done|].
        apply dict_get_None in Hno. congruence.
      * by rewrite decide_False by (intros ?; by apply Hy).
    + unfold names. rewrite <- list_fmap_compose.
      apply NoDup_fmap_2_strong; [|apply (NoDup_fmap_1 name_of); exact Hnd].
      intros y1 y2 Hy1 Hy2. unfold g. simpl.
      assert (Hin : ∀ y, y ∈ l → name_of y ∈ names l)
        by (intros y ?; apply list_elem_of_fmap; by exists y).
      repeat case_decide; rewrite ?name_of_with_name; intros Heq.
      * apply (names_inj l); [done..|congruence].
      * destruct Hnew_l. rewrite Heq. by apply Hin.
      * destruct Hnew_l. rewrite <- Heq. by apply Hin.
      * by apply (names_inj l).
    + done.
    + done.
    + intros m Hm Hin. apply Hnames in Hin as [->|Hin]; [done|].
      apply (Hfree m); [by apply list_elem_of_further | done].
    + intros m Hm Hin. apply (Hdisj m); by apply list_elem_of_further.
Qed.

End collection_facts.

(** ** Mirror *)

Lemma counterpart_L s : counterpart ("L_" +:+ s) = Some ("R_" +:+ s).
Proof. reflexivity. Qed.

Lemma counterpart_R s : counterpart ("R_" +:+ s) = Some ("L_" +:+ s).
Proof. reflexivity. Qed.

Lemma counterpart_Some n c :
  counterpart n = Some c →
  (∃ s, n = "L_" +:+ s ∧ c = "R_" +:+ s) ∨ (∃ s, n = "R_" +:+ s ∧ c = "L_" +:+ s).
Proof.
  unfold counterpart.
  destruct n as [|a [|b s]]; simpl; try done.
  - repeat case_decide; done.
  - repeat case_decide; subst; simpl; intros [= <-]; eauto.
Qed.

Lemma counterpart_None n s :
  counterpart n = None → n ≠ "L_" +:+ s ∧ n ≠ "R_" +:+ s.
Proof.
  intros Hn. split; intros ->; by rewrite ?counterpart_L, ?counterpart_R in Hn.
Qed.

Lemma counterpart_involutive n c : counterpart n = Some c → counterpart c = Some n.
Proof.
  intros [(s & -> & ->)|(s & -> & ->)]%counterpart_Some; reflexivity.
Qed.

Lemma counterpart_ne n c : counterpart n = Some c → c ≠ n.
Proof.
  intros [(s & -> & ->)|(s & -> & ->)]%counterpart_Some; done.
Qed.

Lemma counterpart_no_temp n c :
  counterpart n = Some c → startswith c "__swap_temp__" = false.
Proof.
  intros [(s & -> & ->)|(s & -> & ->)]%counterpart_Some; reflexivity.
Qed.

Lemma startswith_temp s : startswith ("__swap_temp__" +:+ s) "__swap_temp__" = true.
Proof. reflexivity. Qed.

Lemma temp_inj s1 s2 : "__swap_temp__" +:+ s1 = "__swap_temp__" +:+ s2 → s1 = s2.
Proof. by intros [=]. Qed.

Section mirror_facts.
Context {A : Type} {host : Host} {named : Named A} {container : Container A}.
Implicit Types (l : list A) (ns : list string).

Lemma mirrored_name_paired ns n :
  paired ns n = true → counterpart n = Some (mirrored_name ns n).
Proof.
  unfold paired, mirrored_name. destruct (counterpart n) as [c|]; [|done].
  by intros ->.
Qed.

Lemma mirrored_name_unpaired ns n : paired ns n = false → mirrored_name ns n = n.
Proof.
  unfold paired, mirrored_name. destruct (counterpart n) as [c|]; [|done].
  by intros ->.
Qed.

Lemma mirrored_name_elem ns n : n ∈ ns → mirrored_name ns n ∈ ns.
Proof.
  intros Hn. unfold mirrored_name. destruct (counterpart n) as [c|]; [|done].
  case_bool_decide; done.
Qed.

Lemma paired_mirrored ns n :
  n ∈ ns → paired ns n = true → paired ns (mirrored_name ns n) = true.
Proof.
  intros Hn Hp. pose proof (mirrored_name_paired _ _ Hp) as Hc.
  unfold paired. rewrite (counterpart_involutive _ _ Hc).
  by apply bool_decide_eq_true.
Qed.

Lemma mirrored_name_involutive ns n :
  n ∈ ns → mirrored_name ns (mirrored_name ns n) = n.
Proof.
  intros Hn. destruct (paired ns n) eqn:Hp.
  - pose proof (mirrored_name_paired _ _ Hp) as Hc.
    pose proof (paired_mirrored _ _ Hn Hp) as Hp'.
    apply mirrored_name_paired in Hp'.
    rewrite (counterpart_involutive _ _ Hc) in Hp'. congruence.
  - by rewrite !(mirrored_name_unpaired _ _ Hp).
Qed.

(** [name_swap_pairs] lists the paired names, each with its counterpart. *)
Lemma name_swap_pairs_filter ns :
  name_swap_pairs ns
  = (fun n => (n, mirrored_name ns n)) <$> filter (fun n => paired ns n = true) ns.
Proof.
  unfold name_swap_pairs.
  assert (Hgen : ∀ ms,
    flat_map (fun name =>
                if startswith name "L_" then
                  let counterpart := "R_" +:+ drop_chars 2 name in
                  if bool_decide (counterpart ∈ ns) then [(name, counterpart)] else []
                else if startswith name "R_" then
                  let counterpart := "L_" +:+ drop_chars 2 name in
                  if bool_decide (counterpart ∈ ns) then [(name, counterpart)] else []
                else [])
             ms
    = (fun n => (n, mirrored_name ns n)) <$> filter (fun n => paired ns n = true) ms).
  { intros ms.
    match goal with |- flat_map ?g _ = _ => set (f := g) end.
    assert (Hf : ∀ n, f n = if paired ns n then [(n, mirrored_name ns n)] else []).
    { intros n. unfold f, paired, mirrored_name, counterpart. cbv zeta.
      destruct (startswith n "L_"); [|destruct (startswith n "R_")];
        try case_bool_decide; reflexivity. }
    induction ms as [|n ms IH]; [done|].
    change (flat_map f (n :: ms)) with (f n ++ flat_map f ms).
    rewrite filter_cons, IH, Hf.
    destruct (paired ns n); [by rewrite decide_True | by rewrite decide_False]. }
  apply Hgen.
Qed.

Lemma dict_get_graph {K V X : Type} `{EqDecision K} (k : X → K) (v : X → V)
    (xs : list X) (x : X) :
  x ∈ xs → (∀ y, y ∈ xs → k y = k x → v y = v x) →
  dict_get ((fun y => (k y, v y)) <$> xs) (k x) = Some (v x).
Proof.
  induction xs as [|y xs IH]; intros Hx Hv.
  - by apply elem_of_nil in Hx.
  - rewrite fmap_cons. simpl. case_decide as Hk.
    + f_equal. apply Hv; [apply list_elem_of_here | done].
    + apply IH.
      * apply elem_of_cons in Hx as [->|Hx]; [done|done].
      * intros z Hz. apply Hv. by apply list_elem_of_further.
Qed.

Lemma dict_get_graph_None {K V X : Type} `{EqDecision K} (k : X → K) (v : X → V)
    (xs : list X) (key : K) :
  key ∉ k <$> xs → dict_get ((fun y => (k y, v y)) <$> xs) key = None.
Proof.
  intros Hkey. apply dict_get_None. unfold dict_keys.
  by rewrite <- list_fmap_compose.
Qed.

Lemma foldl_unchanged {X S : Type} (f : S → X → S) (s : S) (xs : list X) :
  (∀ x, x ∈ xs → f s x = s) → foldl f s xs = s.
Proof.
  induction xs as [|x xs IH]; intros Hf; [done|]. simpl.
  rewrite Hf by apply list_elem_of_here.
  apply IH. intros y Hy. apply Hf. by apply list_elem_of_further.
Qed.

(** The three loops of [mirror_names], on a collection with distinct names
    none of which starts with "__swap_temp__". *)
Lemma mirror_loops l :
  NoDup (names l) →
  (∀ n, n ∈ names l → startswith n "__swap_temp__" = false) →
  let pairs := name_swap_pairs (names l) in
  foldl (fun l p => rename_if_found A ("__swap_temp__" +:+ p.2) p.2 l)
    (foldl (fun l p => rename_if_found A p.2 p.1 l)
       (foldl (fun l p => rename_if_found A p.1 ("__swap_temp__" +:+ p.2) l) l pairs)
       pairs)
    pairs
  = (fun x => with_name (mirrored_name (names l) (name_of x)) x) <$> l.
Proof.
  intros Hnd Htemp pairs. subst pairs. rewrite name_swap_pairs_filter.
  set (ns := names l). set (m := mirrored_name ns).
  set (P := filter (fun n => paired ns n = true) ns).
  assert (HP : ∀ n, n ∈ P ↔ n ∈ ns ∧ paired ns n = true).
  { intros n. unfold P. rewrite list_elem_of_filter. tauto. }
  assert (HndP : NoDup P) by (by apply NoDup_filter).
  assert (Hm_inj : ∀ n1 n2, n1 ∈ ns → n2 ∈ ns → m n1 = m n2 → n1 = n2).
  { intros n1 n2 Ha Hb Heq.
    rewrite <- (mirrored_name_involutive ns n1), <- (mirrored_name_involutive ns n2) by done.
    unfold m in Heq. by rewrite Heq. }
  assert (Htemp_ns : ∀ s, "__swap_temp__" +:+ s ∉ ns).
  { intros s Hs. apply Htemp in Hs. by rewrite startswith_temp in Hs. }
  set (ren1 := (fun n => (n, "__swap_temp__" +:+ m n)) <$> P).
  set (ren3 := (fun n => ("__swap_temp__" +:+ m n, m n)) <$> P).
  assert (Hren1_1 : ren1.*1 = P).
  { unfold ren1. rewrite <- list_fmap_compose. apply list_fmap_id. }
  assert (Hren1_2 : ren1.*2 = (fun n => "__swap_temp__" +:+ m n) <$> P).
  { unfold ren1. by rewrite <- list_fmap_compose. }
  assert (Hren3_1 : ren3.*1 = (fun n => "__swap_temp__" +:+ m n) <$> P).
  { unfold ren3. by rewrite <- list_fmap_compose. }
  assert (Hren3_2 : ren3.*2 = m <$> P).
  { unfold ren3. by rewrite <- list_fmap_compose. }
  assert (Hnd_temp : NoDup ((fun n => "__swap_temp__" +:+ m n) <$> P)).
  { apply NoDup_fmap_2_strong; [|done].
    intros n1 n2 [Ha _]%HP [Hb _]%HP Heq%temp_inj. by apply Hm_inj. }
  (* the first loop *)
  assert (Hloop1 : foldl (fun l p => rename_if_found A p.1 ("__swap_temp__" +:+ p.2) l) l
                 ((fun n => (n, m n)) <$> P)
               = renamed_by ren1 <$> l).
  { rewrite <- (rename_batch ren1 l).
    - unfold ren1. by rewrite !foldl_fmap.
    - done.
    - by rewrite Hren1_1.
    - by rewrite Hren1_2.
    - rewrite Hren1_2. intros new (n & -> & _)%list_elem_of_fmap. apply Htemp_ns.
    - rewrite Hren1_1, Hren1_2. intros new (n & -> & _)%list_elem_of_fmap [Hin _]%HP.
      by apply Htemp_ns in Hin. }
  rewrite Hloop1. clear Hloop1.
  assert (Hr1 : ∀ x, x ∈ l →
    renamed_by ren1 x
    = if paired ns (name_of x) then with_name ("__swap_temp__" +:+ m (name_of x)) x else x).
  { intros x Hx. unfold renamed_by.
    assert (Hn : name_of x ∈ ns) by (apply list_elem_of_fmap; by exists x).
    destruct (paired ns (name_of x)) eqn:Hp.
    - unfold ren1.
      rewrite (dict_get_graph (fun n => n) (fun n => "__swap_temp__" +:+ m n) P (name_of x));
        [done | by apply HP | by intros y _ ->].
    - unfold ren1. rewrite dict_get_graph_None; [done|].
      rewrite list_fmap_id. intros [_ Hq]%HP. congruence. }
  set (l1 := renamed_by ren1 <$> l).
  assert (Hns1 : names l1
    = (fun n => if paired ns n then "__swap_temp__" +:+ m n else n) <$> ns).
  { unfold l1, ns, names. rewrite <- !list_fmap_compose.
    apply list_fmap_ext. intros i x Hx. simpl.
    rewrite Hr1 by (by eapply list_elem_of_lookup_2).
    destruct (paired _ (name_of x)); [apply name_of_with_name | done]. }
  assert (Hgone : ∀ k, k ∈ ns → paired ns k = true → k ∉ names l1).
  { intros k Hk Hp. rewrite Hns1. intros (n & Heq & Hn)%list_elem_of_fmap.
    destruct (paired ns n) eqn:Hpn; subst k.
    - by apply Htemp_ns in Hk.
    - congruence. }
  assert (HmP : ∀ n, n ∈ P → m n ∈ ns ∧ paired ns (m n) = true).
  { intros n [Hn Hp]%HP. split; [by apply mirrored_name_elem | by apply paired_mirrored]. }
  (* the second loop finds nothing *)
  rewrite (foldl_unchanged (fun l p => rename_if_found A p.2 p.1 l) l1).
  2:{ intros p (n & -> & Hn)%list_elem_of_fmap. simpl.
      apply rename_if_found_absent. destruct (HmP n Hn). by apply Hgone. }
  (* the third loop *)
  assert (Hnd1 : NoDup (names l1)).
  { rewrite Hns1. apply NoDup_fmap_2_strong; [|done].
    intros n1 n2 Hn1 Hn2.
    destruct (paired ns n1) eqn:Hp1, (paired ns n2) eqn:Hp2; intros Heq.
    - apply temp_inj in Heq. by apply Hm_inj.
    - subst n2. by apply Htemp_ns in Hn2.
    - subst n1. by apply Htemp_ns in Hn1.
    - done. }
  assert (Hloop3 : foldl (fun l p => rename_if_found A ("__swap_temp__" +:+ p.2) p.2 l) l1
                 ((fun n => (n, m n)) <$> P)
               = renamed_by ren3 <$> l1).
  { rewrite <- (rename_batch ren3 l1).
    - unfold ren3. by rewrite !foldl_fmap.
    - done.
    - by rewrite Hren3_1.
    - rewrite Hren3_2. apply NoDup_fmap_2_strong; [|done].
      intros n1 n2 [Ha _]%HP [Hb _]%HP. by apply Hm_inj.
    - rewrite Hren3_2. intros new (n & -> & Hn)%list_elem_of_fmap.
      destruct (HmP n Hn). by apply Hgone.
    - rewrite Hren3_1, Hren3_2.
      intros new (n & -> & Hn)%list_elem_of_fmap (n' & Heq & _)%list_elem_of_fmap.
      destruct (HmP n Hn) as [Hin _]. rewrite Heq in Hin. by apply Htemp_ns in Hin. }
  rewrite Hloop3. clear Hloop3. unfold l1. rewrite <- list_fmap_compose.
  apply list_fmap_ext. intros i x Hx. simpl.
  assert (Hxl : x ∈ l) by (by eapply list_elem_of_lookup_2).
  assert (Hn : name_of x ∈ ns) by (apply list_elem_of_fmap; by exists x).
  rewrite Hr1 by done. fold ns. fold (m (name_of x)).
  destruct (paired ns (name_of x)) eqn:Hp.
  - unfold renamed_by. rewrite name_of_with_name. unfold ren3.
    rewrite (dict_get_graph (fun n => "__swap_temp__" +:+ m n) m P (name_of x)).
    + apply with_name_with_name.
    + by apply HP.
    + by intros y _ Heq%temp_inj.
  - unfold renamed_by, ren3. rewrite dict_get_graph_None.
    + unfold m. rewrite (mirrored_name_unpaired _ _ Hp). symmetry. apply with_name_name_of.
    + intros (n & Heq & _)%list_elem_of_fmap. rewrite Heq in Hn. by apply Htemp_ns in Hn.
Qed.

Lemma mirror_names_members (obj : Object) :
  NoDup (names (members obj)) →
  (∀ n, n ∈ names (members obj) → startswith n "__swap_temp__" = false) →
  members (mirror_names A obj)
  = (fun x => with_name (mirrored_name (names (members obj)) (name_of x)) x)
      <$> members obj.
Proof.
  intros Hnd Htemp. unfold mirror_names.
  rewrite members_with_members. by apply mirror_loops.
Qed.

Lemma mirrored_name_L ns s :
  "R_" +:+ s ∈ ns → mirrored_name ns ("L_" +:+ s) = "R_" +:+ s.
Proof.
  intros Hin. unfold mirrored_name. rewrite counterpart_L.
  by rewrite bool_decide_eq_true_2.
Qed.

Lemma mirrored_name_R ns s :
  "L_" +:+ s ∈ ns → mirrored_name ns ("R_" +:+ s) = "L_" +:+ s.
Proof.
  intros Hin. unfold mirrored_name. rewrite counterpart_R.
  by rewrite bool_decide_eq_true_2.
Qed.

Lemma mirrored_name_alone ns n :
  (∀ s, n = "L_" +:+ s → "R_" +:+ s ∉ ns) →
  (∀ s, n = "R_" +:+ s → "L_" +:+ s ∉ ns) →
  mirrored_name ns n = n.
Proof.
  intros HL HR. unfold mirrored_name.
  destruct (counterpart n) as [c|] eqn:Hc; [|done].
  case_bool_decide as Hin; [|done]. exfalso.
  apply counterpart_Some in Hc as [(s & -> & ->)|(s & -> & ->)].
  - by apply (HL s).
  - by apply (HR s).
Qed.

(** C6, as the code has it. On a collection whose names are distinct and
    none of which begins with "__swap_temp__", [mirror_names] keeps every
    member in its place and exchanges the names of exactly the pairs
    "L_" + suffix, "R_" + suffix that are both present: the member named
    "L_" + s gets the name "R_" + s when that name is in the collection,
    and the other way round; a member whose counterpart is not in the
    collection is left as it is. *)
Theorem mirror_swaps_pairs (obj : Object) :
  NoDup (names (members obj)) →
  (∀ n, n ∈ names (members obj) → startswith n "__swap_temp__" = false) →
  length (members (mirror_names A obj)) = length (members obj)
  ∧ ∀ i x, members obj !! i = Some x →
      (∀ s, name_of x = "L_" +:+ s → "R_" +:+ s ∈ names (members obj) →
         members (mirror_names A obj) !! i = Some (with_name ("R_" +:+ s) x))
      ∧ (∀ s, name_of x = "R_" +:+ s → "L_" +:+ s ∈ names (members obj) →
         members (mirror_names A obj) !! i = Some (with_name ("L_" +:+ s) x))
      ∧ ((∀ s, name_of x = "L_" +:+ s → "R_" +:+ s ∉ names (members obj)) →
         (∀ s, name_of x = "R_" +:+ s → "L_" +:+ s ∉ names (members obj)) →
         members (mirror_names A obj) !! i = Some x).
Proof.
  intros Hnd Htemp. rewrite mirror_names_members by done.
  split; [apply length_fmap|].
  intros i x Hx. rewrite list_lookup_fmap, Hx. simpl.
  repeat split.
  - intros s Hs Hin. by rewrite Hs, mirrored_name_L.
  - intros s Hs Hin. by rewrite Hs, mirrored_name_R.
  - intros HL HR. by rewrite mirrored_name_alone, with_name_name_of.
Qed.


End mirror_facts.

(** C6, on the names L_Arm, R_Arm, L_Leg: the first two are exchanged and
    the third is left alone. *)
Lemma mirror_swaps_pairs_example :
  let obj := mesh_object "Body" []
               [group "L_Arm" [(0, 1 # 2)]; group "R_Arm" []; group "L_Leg" []] 1 in
  vertex_groups (mirror_names (host:=blender_host) VertexGroup obj)
  = [group "R_Arm" [(0, 1 # 2)]; group "L_Arm" []; group "L_Leg" []].
Proof.
  intros obj.
  destruct (mirror_swaps_pairs (host:=blender_host) (A:=VertexGroup) obj)
    as [Hlen Hm]; [compute_done | by apply Forall_forall; compute_done |].
  destruct (Hm 0 (group "L_Arm" [(0, 1 # 2)]) eq_refl) as (H0 & _ & _).
  destruct (Hm 1 (group "R_Arm" []) eq_refl) as (_ & H1 & _).
  destruct (Hm 2 (group "L_Leg" []) eq_refl) as (_ & _ & H2).
  specialize (H0 "Arm" eq_refl ltac:(compute_done)).
  specialize (H1 "Arm" eq_refl ltac:(compute_done)).
  assert (H2' := H2 ltac:(intros s Hs; cbv in Hs; injection Hs as <-; compute_done)
                    ltac:(by intros s [=])).
  change (members (mirror_names VertexGroup obj))
    with (vertex_groups (mirror_names (host:=blender_host) VertexGroup obj)) in *.
  destruct (vertex_groups (mirror_names VertexGroup obj)) as [|g0 [|g1 [|g2 [|g3 gs]]]];
    try discriminate Hlen.
  simpl in H0, H1, H2'. by simplify_eq.
Defined.

(** C6 as it is worded, for every collection, fails when a member already
    has the temporary name of a pair: of "__swap_temp__R_Arm", "L_Arm",
    "R_Arm" it is the first member that ends up as "R_Arm", on a host that
    renames on a collision and on one that allows the duplicate; the member
    that was "L_Arm" is not "R_Arm" afterwards. *)
Lemma mirror_swaps_pairs_temp_taken :
  let obj := mesh_object "Body" []
               [group "__swap_temp__R_Arm" []; group "L_Arm" []; group "R_Arm" []] 0 in
  names (vertex_groups (mirror_names (host:=blender_host) VertexGroup obj))
  = ["R_Arm"; "__swap_temp__R_Arm.001"; "L_Arm"]
  ∧ names (vertex_groups (mirror_names (host:=permissive_host) VertexGroup obj))
  = ["R_Arm"; "__swap_temp__R_Arm"; "L_Arm"]
  ∧ names (vertex_groups (mirror_names (host:=blender_host) VertexGroup obj)) !! 1
    ≠ Some "R_Arm"
  ∧ names (vertex_groups (mirror_names (host:=permissive_host) VertexGroup obj)) !! 1
    ≠ Some "R_Arm".
Proof. vm_compute. by repeat split. Qed.


(** ** Rename and undo *)

Lemma dict_get_unique_value (rules : ruleset) (k1 k2 v : string) :
  NoDup rules.*2 →
  dict_get rules k1 = Some v → dict_get rules k2 = Some v → k1 = k2.
Proof.
  intros Hnd [i Hi]%dict_get_Some_elem%list_elem_of_lookup
             [j Hj]%dict_get_Some_elem%list_elem_of_lookup.
  assert (i = j) as ->; [|congruence].
  apply (NoDup_lookup (rules.*2) i j v); [done|..];
    rewrite list_lookup_fmap; [by rewrite Hi | by rewrite Hj].
Qed.

Lemma elem_unique_value (rules : ruleset) (k1 k2 v : string) :
  NoDup rules.*2 → (k1, v) ∈ rules → (k2, v) ∈ rules → k1 = k2.
Proof.
  intros Hnd [i Hi]%list_elem_of_lookup [j Hj]%list_elem_of_lookup.
  assert (i = j) as ->; [|congruence].
  apply (NoDup_lookup (rules.*2) i j v); [done|..];
    rewrite list_lookup_fmap; [by rewrite Hi | by rewrite Hj].
Qed.

(** Without two keys of one value, [reverse_rules] is the ruleset with
    every rule turned round. *)
Lemma reverse_rules_swap (rules : ruleset) :
  NoDup rules.*2 → reverse_rules rules = (fun r => (r.2, r.1)) <$> rules.
Proof.
  intros Hnd. unfold reverse_rules.
  assert (Hgen : ∀ acc : ruleset,
    NoDup (acc.*1 ++ rules.*2) →
    foldl (fun d rule => dict_set d rule.2 rule.1) acc rules
    = acc ++ ((fun r => (r.2, r.1)) <$> rules)).
  { clear Hnd. induction rules as [|[o n] rules IH]; intros acc Hacc.
    - by rewrite app_nil_r.
    - rewrite fmap_cons in Hacc. simpl in Hacc. simpl.
      rewrite dict_set_fresh.
      + rewrite IH; [by rewrite <- app_assoc|].
        by rewrite fmap_app, <- app_assoc.
      + apply NoDup_app in Hacc as (_ & Hdisj & _).
        intros Hin. apply (Hdisj _ Hin), list_elem_of_here. }
  by rewrite Hgen.
Qed.

Lemma reverse_rules_get (rules : ruleset) (old new : string) :
  NoDup rules.*2 → (old, new) ∈ rules →
  dict_get (reverse_rules rules) new = Some old.
Proof.
  intros Hnd Hin. rewrite reverse_rules_swap by done.
  apply (dict_get_graph snd fst rules (old, new)); [done|].
  intros [o n] Hy. simpl. intros ->. by apply (elem_unique_value rules o old new).
Qed.

Lemma reverse_rules_get_inv (rules : ruleset) (old new : string) :
  NoDup rules.*2 →
  dict_get (reverse_rules rules) new = Some old → (old, new) ∈ rules.
Proof.
  intros Hnd Hget. rewrite reverse_rules_swap in Hget by done.
  apply dict_get_Some_elem, list_elem_of_fmap in Hget as ([o n] & [= -> ->] & Hin).
  done.
Qed.

(** Without two keys of one value and with distinct member names, every
    bucket of [new_to_sources] has one source. *)
Lemma group_by_target_single (rules : ruleset) (ns : list string) :
  NoDup rules.*2 → NoDup ns →
  group_by_target rules ns
  = omap (fun n => (fun new => (new, [n])) <$> dict_get rules n) ns.
Proof.
  intros Hval Hns. unfold group_by_target.
  set (g := fun n => (fun new : string => (new, [n])) <$> dict_get rules n).
  assert (Hgen : ∀ acc : list (string * list string),
    (∀ n new, n ∈ ns → dict_get rules n = Some new → new ∉ acc.*1) →
    foldl (fun new_to_sources name =>
             match dict_get rules name with
             | Some new_name =>
                 match dict_get new_to_sources new_name with
                 | Some sources => dict_set new_to_sources new_name (sources ++ [name])
                 | None => dict_set new_to_sources new_name [name]
                 end
             | None => new_to_sources
             end) acc ns
    = acc ++ omap g ns).
  { induction ns as [|n ns IH]; intros acc Hacc.
    - by rewrite app_nil_r.
    - apply NoDup_cons in Hns as [Hn Hns].
      replace (omap g (n :: ns))
        with (match g n with Some y => y :: omap g ns | None => omap g ns end)
        by reflexivity.
      cbn [foldl]. unfold g at 1.
      destruct (dict_get rules n) as [new|] eqn:Hr; cbn [fmap option_fmap option_map].
      + assert (Hnew : new ∉ acc.*1) by (eapply Hacc; [apply list_elem_of_here | done]).
        rewrite (proj2 (dict_get_None acc new)) by done.
        rewrite dict_set_fresh by done.
        rewrite IH; [by rewrite <- app_assoc | done |].
        intros n' new' Hn' Hr'. rewrite fmap_app, not_elem_of_app. split.
        * eapply Hacc; [by apply list_elem_of_further | done].
        * simpl. rewrite list_elem_of_singleton. intros ->.
          apply Hn. by rewrite (dict_get_unique_value rules n n' new).
      + apply IH; [done|].
        intros n' new' Hn' Hr'. eapply Hacc; [by apply list_elem_of_further | done]. }
  rewrite Hgen; [done|]. intros. apply not_elem_of_nil.
Qed.

Lemma insert_take_drop {X : Type} (l l' : list X) (k : nat) (x : X) :
  length l = length l' → l !! k = Some x →
  <[k := x]> (take k l ++ drop k l') = take (S k) l ++ drop (S k) l'.
Proof.
  intros Hlen Hk.
  assert (Hlt : k < length l) by (by eapply lookup_lt_Some).
  destruct (lookup_lt_is_Some_2 l' k) as [y Hy]; [lia|].
  rewrite (take_S_r l k x) by done.
  rewrite (drop_S l' y k) by done.
  rewrite insert_app_r_alt by (rewrite length_take; lia).
  rewrite length_take, Nat.min_l, Nat.sub_diag by lia.
  simpl. by rewrite <- app_assoc.
Qed.

Lemma dict_get_elem {K V : Type} `{EqDecision K} (d : list (K * V)) (k : K) (v : V) :
  NoDup (dict_keys d) → (k, v) ∈ d → dict_get d k = Some v.
Proof.
  unfold dict_keys. induction d as [|[k' v'] d IH]; intros Hnd Hin.
  - by apply elem_of_nil in Hin.
  - rewrite fmap_cons in Hnd. apply NoDup_cons in Hnd as [Hk Hnd]. simpl.
    apply elem_of_cons in Hin as [[= -> ->]|Hin].
    + by rewrite decide_True.
    + rewrite decide_False; [by apply IH|].
      intros ->. apply Hk. apply list_elem_of_fmap. by exists (k, v).
Qed.

Section rename_undo.
Context {A : Type} {host : Host} {named : Named A} {container : Container A}.
Implicit Types (l : list A) (rules : ruleset) (obj : Object).

Lemma elem_of_renames_of rules ns old new :
  (old, new) ∈ renames_of rules ns ↔ old ∈ ns ∧ dict_get rules old = Some new.
Proof.
  unfold renames_of. rewrite list_elem_of_omap. split.
  - intros (n & Hn & Hr). destruct (dict_get rules n) eqn:E; simplify_eq/=. done.
  - intros [Hn Hr]. exists old. by rewrite Hr.
Qed.

Lemma renames_of_keys_sublist rules ns : (renames_of rules ns).*1 `sublist_of` ns.
Proof.
  unfold renames_of. induction ns as [|n ns IH]; [done|].
  replace (omap (fun n => (fun new => (n, new)) <$> dict_get rules n) (n :: ns))
    with (match (fun new => (n, new)) <$> dict_get rules n with
          | Some y => y :: omap (fun n => (fun new => (n, new)) <$> dict_get rules n) ns
          | None => omap (fun n => (fun new => (n, new)) <$> dict_get rules n) ns
          end) by reflexivity.
  destruct (dict_get rules n); simpl.
  - by apply sublist_skip.
  - by apply sublist_cons.
Qed.

Lemma renames_of_buckets rules ns :
  omap (fun n => (fun new => (new, [n])) <$> dict_get rules n) ns
  = (fun p => (p.2, [p.1])) <$> renames_of rules ns.
Proof.
  unfold renames_of. induction ns as [|n ns IH]; [done|].
  replace (omap (fun n => (fun new => (new, [n])) <$> dict_get rules n) (n :: ns))
    with (match (fun new => (new, [n])) <$> dict_get rules n with
          | Some y => y :: omap (fun n => (fun new => (new, [n])) <$> dict_get rules n) ns
          | None => omap (fun n => (fun new => (new, [n])) <$> dict_get rules n) ns
          end) by reflexivity.
  replace (omap (fun n => (fun new => (n, new)) <$> dict_get rules n) (n :: ns))
    with (match (fun new => (n, new)) <$> dict_get rules n with
          | Some y => y :: omap (fun n => (fun new => (n, new)) <$> dict_get rules n) ns
          | None => omap (fun n => (fun new => (n, new)) <$> dict_get rules n) ns
          end) by reflexivity.
  destruct (dict_get rules n); simpl; [by rewrite IH | done].
Qed.

(** A bucket with one source is a rename by name, unless the name is
    already the new one. *)
Lemma apply_bucket_single old new obj evs :
  ∃ evs',
    apply_bucket A (new, [old]) (obj, evs)
    = Some (if decide (old = new) then obj
            else match coll_get (members obj) old with
                 | Some _ => with_members (rename_if_found A old new (members obj)) obj
                 | None => obj
                 end, evs').
Proof.
  unfold apply_bucket, rename_if_found. simpl.
  destruct (coll_get (members obj) old) as [[i x]|] eqn:E.
  - apply coll_get_Some in E as (_ & Hx & _).
    repeat case_decide; simplify_eq; eauto.
  - case_decide; eauto.
Qed.

Lemma apply_buckets_single (ren : list (string * string)) obj evs :
  ∃ obj' evs',
    apply_buckets A ((fun p => (p.2, [p.1])) <$> ren) (obj, evs) = Some (obj', evs')
    ∧ members obj'
      = foldl (fun l p => rename_if_found A p.1 p.2 l) (members obj)
              (filter (fun p => p.1 ≠ p.2) ren).
Proof.
  revert obj evs. induction ren as [|[old new] ren IH]; intros obj evs.
  - by exists obj, evs.
  - rewrite fmap_cons. cbn [apply_buckets]. simpl.
    destruct (apply_bucket_single old new obj evs) as [evs1 ->]. simpl.
    rewrite filter_cons. simpl.
    case_decide as Heq.
    + rewrite decide_False by (by intros ?). apply IH.
    + rewrite decide_True by done. simpl.
      destruct (coll_get (members obj) old) as [[i x]|] eqn:E.
      * destruct (IH (with_members (rename_if_found A old new (members obj)) obj) evs1)
          as (obj' & evs' & -> & Hm).
        exists obj', evs'. split; [done|].
        by rewrite Hm, members_with_members.
      * destruct (IH obj evs1) as (obj' & evs' & -> & Hm).
        exists obj', evs'. split; [done|].
        rewrite Hm. f_equal. unfold rename_if_found. by rewrite E.
Qed.

(** What the rename loop does when no two rules share a new name and no
    member has the new name of another rule: every member gets the name
    its rule gives it. *)
Lemma apply_rules_renames rules obj :
  NoDup (names (members obj)) → NoDup rules.*2 →
  (∀ old new, dict_get rules old = Some new →
              new ∈ names (members obj) → old = new) →
  ∃ obj' evs,
    apply_rules A rules obj = Some (obj', evs)
    ∧ members obj'
      = (fun x => with_name (target_name rules (name_of x)) x) <$> members obj.
Proof.
  intros Hnd Hval Hfree. unfold apply_rules.
  rewrite group_by_target_single, renames_of_buckets by done.
  set (ns := names (members obj)).
  destruct (apply_buckets_single (renames_of rules ns) obj [])
    as (obj' & evs & -> & Hm).
  exists obj', evs. split; [done|]. rewrite Hm.
  set (ren := filter (fun p => p.1 ≠ p.2) (renames_of rules ns)).
  assert (Hren : ∀ old new, (old, new) ∈ ren
            ↔ old ∈ ns ∧ dict_get rules old = Some new ∧ old ≠ new).
  { intros old new. unfold ren. rewrite list_elem_of_filter, elem_of_renames_of.
    simpl. tauto. }
  assert (Hkeys : NoDup ren.*1).
  { eapply sublist_NoDup; [exact Hnd|].
    etrans; [|apply renames_of_keys_sublist].
    apply fmap_sublist, sublist_filter. }
  rewrite rename_batch.
  - apply list_fmap_ext. intros i x Hx.
    assert (Hn : name_of x ∈ ns).
    { apply list_elem_of_fmap. exists x. split; [done|]. by eapply list_elem_of_lookup_2. }
    unfold renamed_by, target_name.
    destruct (dict_get rules (name_of x)) as [new|] eqn:Hr; simpl.
    + destruct (decide (name_of x = new)) as [<-|Hne].
      * rewrite with_name_name_of.
        destruct (dict_get ren (name_of x)) as [new'|] eqn:E; [|done].
        apply dict_get_Some_elem, Hren in E as (_ & E & Hne). congruence.
      * by rewrite (dict_get_elem ren (name_of x) new) by (by try apply Hren).
    + rewrite with_name_name_of.
      destruct (dict_get ren (name_of x)) as [new'|] eqn:E; [|done].
      apply dict_get_Some_elem, Hren in E as (_ & E & _). congruence.
  - done.
  - done.
  - apply NoDup_fmap_2_strong; [|by eapply NoDup_fmap_1].
    intros [o1 n1] [o2 n2] (_ & Hr1 & _)%Hren (_ & Hr2 & _)%Hren. simpl. intros ->.
    f_equal. by apply (dict_get_unique_value rules o1 o2 n2).
  - intros new ([o n] & -> & (_ & Hr & Hne)%Hren)%list_elem_of_fmap Hin. simpl in *.
    by apply Hne, Hfree.
  - intros new ([o n] & -> & (_ & Hr & Hne)%Hren)%list_elem_of_fmap
               ([o' n'] & Heq & (Ho' & _)%Hren)%list_elem_of_fmap.
    simpl in *. subst. by apply Hne, Hfree.
Qed.

Lemma NoDup_lookup_not_before {X : Type} (xs : list X) (k : nat) (x : X) :
  NoDup xs → xs !! k = Some x → (x ∉ take k xs) ∧ (x ∉ drop (S k) xs).
Proof.
  intros Hnd Hk. rewrite <- (take_drop_middle xs k x Hk) in Hnd.
  apply NoDup_app in Hnd as (_ & Hdisj & Hnd).
  apply NoDup_cons in Hnd as [Hx _].
  split; [|done]. intros Hin. apply (Hdisj _ Hin), list_elem_of_here.
Qed.

(** The undo loop after the rename loop, under the same conditions: every
    member is as it was. *)
Lemma undo_loop_restores rules l :
  NoDup (names l) → NoDup rules.*1 → NoDup rules.*2 →
  (∀ old new, (old, new) ∈ rules → new ∈ names l → old = new) →
  let l' := (fun x => with_name (target_name rules (name_of x)) x) <$> l in
  foldl (fun l i =>
           match l !! i with
           | Some vg =>
               match dict_get (reverse_rules rules) (name_of vg) with
               | Some original_name => set_name i original_name l
               | None => l
               end
           | None => l
           end)
        l' (seq 0 (length l'))
  = l.
Proof.
  intros Hnd Hkey Hval Hfree l'.
  assert (Hlen : length l' = length l) by apply length_fmap.
  rewrite Hlen.
  assert (Hgen : ∀ k, k ≤ length l →
    foldl (fun l i =>
             match l !! i with
             | Some vg =>
                 match dict_get (reverse_rules rules) (name_of vg) with
                 | Some original_name => set_name i original_name l
                 | None => l
                 end
             | None => l
             end)
          l' (seq 0 k)
    = take k l ++ drop k l').
  { induction k as [|k IH]; intros Hk; [done|].
    rewrite seq_S, foldl_snoc, IH by lia. simpl.
    destruct (lookup_lt_is_Some_2 l k) as [x Hx]; [lia|].
    set (n := name_of x).
    assert (Hn : names l !! k = Some n) by (by apply names_lookup).
    assert (Hnin : n ∈ names l) by (by eapply list_elem_of_lookup_2).
    assert (Hy : l' !! k = Some (with_name (target_name rules n) x)).
    { unfold l'. by rewrite list_lookup_fmap, Hx. }
    assert (Hs : (take k l ++ drop k l') !! k = Some (with_name (target_name rules n) x)).
    { rewrite lookup_app_r by (rewrite length_take; lia).
      rewrite length_take, Nat.min_l, Nat.sub_diag, lookup_drop, Nat.add_0_r by lia.
      done. }
    rewrite Hs, name_of_with_name.
    rewrite <- (insert_take_drop l l' k x) by done.
    destruct (NoDup_lookup_not_before (names l) k n Hnd Hn) as [Hbefore Hafter].
    unfold target_name in *.
    destruct (dict_get rules n) as [new|] eqn:Hr; simpl in *.
    - rewrite (reverse_rules_get rules n new) by (by try apply dict_get_Some_elem).
      rewrite (set_name_fresh _ k n (with_name new x)); [|done|].
      + rewrite with_name_with_name. unfold n. by rewrite with_name_name_of.
      + rewrite (drop_S l' (with_name new x) k) by done.
        replace k with (length (take k l)) at 1 by (rewrite length_take; lia).
        rewrite delete_middle. unfold names. rewrite fmap_app, not_elem_of_app.
        split; [by rewrite fmap_take|].
        rewrite fmap_drop. unfold l'. rewrite <- list_fmap_compose.
        intros [j Hj]%list_elem_of_lookup.
        rewrite lookup_drop, list_lookup_fmap in Hj.
        destruct (l !! (S k + j)) as [z|] eqn:Hz; simplify_eq/=.
        rewrite name_of_with_name in Hj.
        assert (Hzn : name_of z ∈ drop (S k) (names l)).
        { apply list_elem_of_lookup. exists j. rewrite lookup_drop. by apply names_lookup. }
        destruct (dict_get rules (name_of z)) as [new'|] eqn:Hr'; simplify_eq/=.
        * apply dict_get_Some_elem in Hr'.
          rewrite (Hfree _ _ Hr' Hnin) in Hzn. done.
        * by rewrite Hj in Hzn.
    - destruct (dict_get (reverse_rules rules) n) as [o|] eqn:Hrev.
      + exfalso. apply reverse_rules_get_inv in Hrev; [|done].
        pose proof (Hfree _ _ Hrev Hnin) as ->.
        apply (dict_get_elem rules n n Hkey) in Hrev. congruence.
      + rewrite list_insert_id; [done|]. rewrite Hs. unfold n. by rewrite with_name_name_of. }
  rewrite Hgen by done.
  by rewrite firstn_all, <- Hlen, drop_all, app_nil_r.
Qed.

(** C4, as the code has it. For a ruleset in which no two keys share a value
    and a container with distinct member names none of which is the new
    name that the ruleset gives to another old name, the rename loop
    followed by the undo loop leaves every member as it was. *)
Theorem apply_then_undo rules obj :
  NoDup (names (members obj)) →
  NoDup rules.*1 → NoDup rules.*2 →
  (∀ old new, (old, new) ∈ rules → new ∈ names (members obj) → old = new) →
  ∃ obj' evs,
    apply_rules A rules obj = Some (obj', evs)
    ∧ members (undo_rules A rules obj') = members obj.
Proof.
  intros Hnd Hkey Hval Hfree.
  destruct (apply_rules_renames rules obj) as (obj' & evs & Happ & Hm); [done..| |].
  { intros old new Hr%dict_get_Some_elem. by apply Hfree. }
  exists obj', evs. split; [done|].
  unfold undo_rules. rewrite members_with_members, Hm.
  by apply undo_loop_restores.
Qed.

End rename_undo.

(** C4, on a mesh with the groups a, b, c and the rules a -> x, b -> y. *)
Lemma apply_then_undo_example :
  let obj := mesh_object "Body" []
               [group "a" [(0, 1 # 2)]; group "b" []; group "c" []] 1 in
  let rules := [("a", "x"); ("b", "y")] in
  ∃ obj' evs,
    apply_rules (host:=blender_host) VertexGroup rules obj = Some (obj', evs)
    ∧ vertex_groups (undo_rules (host:=blender_host) VertexGroup rules obj')
      = vertex_groups obj.
Proof.
  intros obj rules.
  refine (apply_then_undo (host:=blender_host) (A:=VertexGroup) rules obj _ _ _ _);
    [compute_done.. |].
  intros old new Hin Hnew. unfold rules in Hin.
  repeat (apply elem_of_cons in Hin as [[= -> ->]|Hin];
          [exfalso; revert Hnew; apply (bool_decide_unpack (_ ∉ _)); compute_done|]).
  by apply elem_of_nil in Hin.
Defined.

(** C4 as it is worded fails on a member that has the new name of a rule
    from the start: with the rule A -> B and the one group B, the rename
    loop changes nothing and the undo loop names the group A. *)
Lemma apply_then_undo_foreign_name :
  let obj := mesh_object "Body" [] [group "B" []] 0 in
  let rules := [("A", "B")] in
  apply_rules (host:=blender_host) VertexGroup rules obj = Some (obj, [])
  ∧ names (vertex_groups (undo_rules (host:=blender_host) VertexGroup rules obj))
    = ["A"]
  ∧ names (vertex_groups obj) = ["B"].
Proof. by vm_compute. Qed.

(** ** Weights *)

Lemma Qsum_cons (w : Q) (ws : list Q) : Qsum (w :: ws) = (w + Qsum ws)%Q.
Proof. reflexivity. Qed.

Lemma Qsum_app (ws1 ws2 : list Q) : (Qsum (ws1 ++ ws2) == Qsum ws1 + Qsum ws2)%Q.
Proof.
  induction ws1 as [|w ws1 IH].
  - change (Qsum ws2 == 0 + Qsum ws2)%Q. ring.
  - change (w + Qsum (ws1 ++ ws2) == w + Qsum ws1 + Qsum ws2)%Q. rewrite IH. ring.
Qed.

Lemma Qsum_div (ws : list Q) (c : Q) :
  (Qsum ((fun w => w / c) <$> ws) == Qsum ws / c)%Q.
Proof.
  induction ws as [|w ws IH].
  - change (0 == 0 / c)%Q. unfold Qdiv. ring.
  - rewrite fmap_cons, !Qsum_cons, IH. unfold Qdiv. ring.
Qed.

Lemma Qsum_ext {X : Type} (f g : X → Q) (xs : list X) :
  (∀ x, x ∈ xs → (f x == g x)%Q) → (Qsum (f <$> xs) == Qsum (g <$> xs))%Q.
Proof.
  induction xs as [|x xs IH]; intros Hfg; [reflexivity|].
  rewrite !fmap_cons, !Qsum_cons.
  rewrite (Hfg x) by apply list_elem_of_here.
  rewrite IH; [reflexivity|]. intros y Hy. apply Hfg. by apply list_elem_of_further.
Qed.

Lemma Qsum_Forall2 {X Y : Type} (f : X → Q) (g : Y → Q) (xs : list X) (ys : list Y) :
  Forall2 (fun x y => (f x == g y)%Q) xs ys → (Qsum (f <$> xs) == Qsum (g <$> ys))%Q.
Proof.
  induction 1 as [|x y xs ys Hxy _ IH]; [reflexivity|].
  by rewrite !fmap_cons, !Qsum_cons, Hxy, IH.
Qed.

(** The total that the normalization step computes is the sum of the
    weights, a missing weight counting as zero. *)
Lemma total_weight_Qsum (v : nat) (groups : list VertexGroup) :
  (total_weight v groups == Qsum ((fun g => weight_or_zero g v) <$> groups))%Q.
Proof.
  unfold total_weight.
  assert (Hgen : ∀ a : Q,
    (foldl (fun total vg =>
              match vg_weight vg v with
              | Some weight => (total + weight)%Q
              | None => total
              end) a groups
     == a + Qsum ((fun g => weight_or_zero g v) <$> groups))%Q).
  { induction groups as [|g gs IH]; intros a.
    - change (a == a + 0)%Q. ring.
    - rewrite fmap_cons, Qsum_cons. cbn [foldl]. rewrite IH.
      set (S := Qsum _). unfold weight_or_zero.
      destruct (vg_weight g v) as [w|];
        [change (a + w + S == a + (w + S))%Q | change (a + S == a + (0 + S))%Q]; ring. }
  rewrite Hgen. ring.
Qed.

(** The total depends on the weights of that vertex only. *)
Lemma total_weight_ext (v : nat) (gs gs' : list VertexGroup) :
  Forall2 (fun g g' => vg_weight g' v = vg_weight g v) gs gs' →
  total_weight v gs' = total_weight v gs.
Proof.
  intros Hgs. unfold total_weight. generalize 0%Q.
  induction Hgs as [|g g' gs gs' Hg _ IH]; intros a; [done|].
  cbn [foldl]. rewrite Hg. apply IH.
Qed.

Lemma vg_weight_add_ne g v v' w mode :
  v ≠ v' → vg_weight (vg_add v w mode g) v' = vg_weight g v'.
Proof. intros Hne. unfold vg_weight, vg_add. simpl. by apply lookup_insert_ne. Qed.

(** The host's range. *)
Lemma clamp_weight_id (w : Q) : weight_in_range w → clamp_weight w = w.
Proof.
  intros [H0 H1]. unfold clamp_weight.
  destruct (Qlt_le_dec w 0) as [Hneg|_]; [by exfalso; apply (Qlt_not_le _ _ Hneg)|].
  destruct (Qlt_le_dec 1 w) as [Hbig|_]; [by exfalso; apply (Qlt_not_le _ _ Hbig)|].
  done.
Qed.

Lemma clamp_weight_in_range (w : Q) : weight_in_range (clamp_weight w).
Proof.
  unfold clamp_weight, weight_in_range.
  destruct (Qlt_le_dec w 0) as [|H0]; [done|].
  destruct (Qlt_le_dec 1 w) as [|H1]; done.
Qed.

Lemma weights_in_range_lookup (gs : list VertexGroup) (g : VertexGroup) (v : nat) (w : Q) :
  weights_in_range gs → g ∈ gs → vg_weight g v = Some w → weight_in_range w.
Proof.
  intros Hr Hg Hw. unfold weights_in_range in Hr. rewrite Forall_forall in Hr.
  exact (Hr g Hg v w Hw).
Qed.

Lemma weight_or_zero_in_range (gs : list VertexGroup) (g : VertexGroup) (v : nat) :
  weights_in_range gs → g ∈ gs → weight_in_range (weight_or_zero g v).
Proof.
  intros Hr Hg. unfold weight_or_zero.
  destruct (vg_weight g v) as [w|] eqn:Hw; [|done].
  by eapply weights_in_range_lookup.
Qed.

Lemma Qsum_nonneg (ws : list Q) : Forall (fun w => (0 <= w)%Q) ws → (0 <= Qsum ws)%Q.
Proof.
  induction 1 as [|w ws Hw _ IH]; [done|].
  rewrite Qsum_cons. change 0%Q with (0 + 0)%Q. by apply Qplus_le_compat.
Qed.

Lemma Qsum_ge_elem (ws : list Q) (w : Q) :
  Forall (fun w => (0 <= w)%Q) ws → w ∈ ws → (w <= Qsum ws)%Q.
Proof.
  intros Hpos. induction Hpos as [|w0 ws Hw0 Hpos IH]; [by intros ?%elem_of_nil|].
  rewrite Qsum_cons. intros [->|Hin]%elem_of_cons.
  - rewrite <- (Qplus_0_r w0) at 1. apply Qplus_le_compat; [apply Qle_refl|].
    by apply Qsum_nonneg.
  - rewrite <- (Qplus_0_l w). apply Qplus_le_compat; [done | by apply IH].
Qed.

(** In a mesh with weights of the host's range a weight is at most the
    total of its vertex, so what the normalization step assigns is in the
    range and is stored as it is. *)
Lemma normalized_weight_in_range (gs : list VertexGroup) (g : VertexGroup) (v : nat) :
  weights_in_range gs → g ∈ gs → (1 < total_weight v gs)%Q →
  weight_in_range (weight_or_zero g v / total_weight v gs)%Q.
Proof.
  intros Hr Hg Hgt.
  assert (Hpos : Forall (fun w => (0 <= w)%Q) ((fun g => weight_or_zero g v) <$> gs)).
  { apply Forall_fmap, Forall_forall. intros g' Hg'.
    by destruct (weight_or_zero_in_range gs g' v Hr Hg'). }
  assert (Hle : (weight_or_zero g v <= total_weight v gs)%Q).
  { rewrite total_weight_Qsum. apply Qsum_ge_elem; [done|].
    apply list_elem_of_fmap. by exists g. }
  destruct (weight_or_zero_in_range gs g v Hr Hg) as [H0 _].
  assert (Ht : (0 < total_weight v gs)%Q) by (by apply (Qlt_trans _ 1)).
  split.
  - apply Qle_shift_div_l; [done|]. by rewrite Qmult_0_l.
  - apply Qle_shift_div_r; [done|]. by rewrite Qmult_1_l.
Qed.

Lemma normalize_vertex_spec (v : nat) (gs : list VertexGroup) :
  weights_in_range gs → normalized_at [v] gs (normalize_vertex v gs).
Proof.
  intros Hr. unfold normalized_at, normalize_vertex.
  destruct (Qlt_le_dec 1 (total_weight v gs)) as [Hgt|Hle].
  - apply Forall2_fmap_r, Forall_Forall2_diag, Forall_forall.
    intros g Hg. simpl. split; [done|]. intros v'.
    case_bool_decide as Hv.
    + apply list_elem_of_singleton in Hv as ->.
      destruct (Qlt_le_dec 1 (total_weight v gs)); [|by exfalso; eapply Qlt_not_le].
      unfold vg_weight, vg_add. simpl. rewrite lookup_insert_eq.
      by rewrite clamp_weight_id by (by apply normalized_weight_in_range).
    + apply vg_weight_add_ne. intros ->. apply Hv, list_elem_of_here.
  - apply Forall_Forall2_diag, Forall_forall. intros g _. split; [done|].
    intros v'. case_bool_decide as Hv; [|done].
    apply list_elem_of_singleton in Hv as ->.
    destruct (Qlt_le_dec 1 (total_weight v gs)); [by exfalso; eapply Qlt_not_le | done].
Qed.

(** Normalization keeps the weights in the host's range. *)
Lemma normalized_at_in_range (vs : list nat) (gs gs' : list VertexGroup) :
  weights_in_range gs → normalized_at vs gs gs' → weights_in_range gs'.
Proof.
  intros Hr Hnorm. unfold weights_in_range. apply Forall_lookup.
  intros i g' Hi v w Hw.
  destruct (Forall2_lookup_r _ _ _ _ _ Hnorm Hi) as (g & Hg & _ & Hweights).
  apply list_elem_of_lookup_2 in Hg.
  change (vg_weight g' v = Some w) in Hw. rewrite Hweights in Hw.
  destruct (bool_decide (v ∈ vs)); [|by eapply weights_in_range_lookup].
  destruct (Qlt_le_dec 1 (total_weight v gs)) as [Hgt|];
    [|by eapply weights_in_range_lookup].
  injection Hw as <-. by apply normalized_weight_in_range.
Qed.

Lemma normalize_weights_spec (vs : list nat) (gs : list VertexGroup) :
  NoDup vs → weights_in_range gs → normalized_at vs gs (normalize_weights vs gs).
Proof.
  unfold normalize_weights. revert gs.
  induction vs as [|v0 vs IH]; intros gs Hnd Hr.
  - simpl. apply Forall_Forall2_diag, Forall_forall. intros g _. split; [done|].
    intros v. by rewrite bool_decide_eq_false_2 by apply not_elem_of_nil.
  - apply NoDup_cons in Hnd as [Hv0 Hnd]. cbn [foldl].
    pose proof (normalize_vertex_spec v0 gs Hr) as H0.
    specialize (IH (normalize_vertex v0 gs) Hnd (normalized_at_in_range _ _ _ Hr H0)).
    assert (Hother : ∀ v, v ≠ v0 →
      Forall2 (fun g g' => vg_weight g' v = vg_weight g v) gs (normalize_vertex v0 gs)).
    { intros v Hv. eapply Forall2_impl; [exact H0|].
      intros g g' [_ Hw]. rewrite Hw.
      rewrite bool_decide_eq_false_2; [done|].
      by intros ->%list_elem_of_singleton. }
    unfold normalized_at in *.
    eapply Forall2_trans; [|exact H0|exact IH].
    intros g g1 g2 [Hn1 Hw1] [Hn2 Hw2]. split; [congruence|].
    intros v. rewrite Hw2. unfold weight_or_zero. rewrite !Hw1.
    destruct (decide (v = v0)) as [->|Hne].
    + rewrite (bool_decide_eq_false_2 (v0 ∈ vs)) by done.
      rewrite (bool_decide_eq_true_2 (v0 ∈ [v0])) by apply list_elem_of_here.
      rewrite (bool_decide_eq_true_2 (v0 ∈ v0 :: vs)) by apply list_elem_of_here.
      done.
    + rewrite (bool_decide_eq_false_2 (v ∈ [v0])) by (by intros ?%list_elem_of_singleton).
      rewrite (total_weight_ext v gs (normalize_vertex v0 gs)) by (by apply Hother).
      rewrite (bool_decide_ext (v ∈ v0 :: vs) (v ∈ vs)); [done|].
      rewrite elem_of_cons. naive_solver.
Qed.

(** The normalization step assigns weights and nothing else. *)
Lemma normalize_weights_names (vs : list nat) (gs : list VertexGroup) :
  names (normalize_weights vs gs) = names gs.
Proof.
  unfold normalize_weights. revert gs.
  induction vs as [|v vs IH]; intros gs; [done|].
  cbn [foldl]. rewrite IH. unfold normalize_vertex.
  destruct (Qlt_le_dec 1 (total_weight v gs)); [|done].
  unfold names. rewrite <- list_fmap_compose. by apply list_fmap_ext.
Qed.

(** ** Merge *)

Lemma delete_app_l {X : Type} (l1 l2 : list X) (i : nat) :
  i < length l1 → delete i (l1 ++ l2) = delete i l1 ++ l2.
Proof.
  revert i. induction l1 as [|x l1 IH]; intros [|i] Hi; simpl in *; try lia; [done|].
  f_equal. apply IH. lia.
Qed.

Lemma filter_all {X : Type} (P : X → Prop) `{∀ x, Decision (P x)} (l : list X) :
  Forall P l → filter P l = l.
Proof.
  induction 1 as [|x l Hx _ IH]; [done|].
  by rewrite filter_cons, decide_True, IH by done.
Qed.

Lemma dict_keys_set_NoDup {K V : Type} `{EqDecision K} (d : list (K * V)) (k : K) (v : V) :
  NoDup (dict_keys d) → NoDup (dict_keys (dict_set d k v)).
Proof.
  intros Hnd. destruct (decide (k ∈ dict_keys d)) as [Hin|Hout].
  - by rewrite dict_keys_set_present.
  - rewrite dict_set_fresh by done. unfold dict_keys in *.
    rewrite fmap_app. apply NoDup_app. repeat split; [done| |apply NoDup_singleton].
    intros k' Hk' ->%list_elem_of_singleton. done.
Qed.

Section removal.
Context {host : Host} {A : Type} {named : Named A}.
Implicit Types (l : list A) (x : A).

Lemma coll_get_lt l s i x : coll_get l s = Some (i, x) → i < length l.
Proof. intros (Hi & _)%coll_get_Some. by eapply lookup_lt_Some. Qed.

(** With distinct names, removing the member found under a name removes
    the members of that name. *)
Lemma delete_by_name l s i x :
  NoDup (names l) → coll_get l s = Some (i, x) →
  delete i l = filter (fun y => name_of y ≠ s) l.
Proof.
  revert i x. induction l as [|y l IH]; intros i x Hnd; [done|].
  unfold names in Hnd. rewrite fmap_cons in Hnd. apply NoDup_cons in Hnd as [Hy Hnd].
  simpl. rewrite filter_cons. case_decide as Hname.
  - intros [= <- <-]. rewrite decide_False by (by intros ?). simpl.
    symmetry. apply filter_all. apply Forall_forall. intros z Hz Heq.
    apply Hy. rewrite Hname, <- Heq. apply list_elem_of_fmap. by exists z.
  - destruct (coll_get l s) as [[i' x']|] eqn:E; simpl; [|done].
    intros [= <- <-]. rewrite decide_True by done. simpl. f_equal. by eapply IH.
Qed.

(** The removal loop of a merge, for source names that are distinct and all
    present: the sources go, and the reference to the temporary member,
    which is the last one, stays good. *)
Lemma remove_sources l (t : A) (sources : list string) :
  NoDup (names l) → NoDup sources → (∀ s, s ∈ sources → s ∈ names l) →
  foldl (fun st s => remove_named s st) (l ++ [t], Some (length l)) sources
  = (filter (fun y => name_of y ∉ sources) l ++ [t],
     Some (length (filter (fun y => name_of y ∉ sources) l))).
Proof.
  revert l. induction sources as [|s sources IH]; intros l Hnd Hsrc Hin.
  - simpl. rewrite filter_all; [done|].
    apply Forall_forall. intros y _. apply not_elem_of_nil.
  - apply NoDup_cons in Hsrc as [Hs Hsrc]. cbn [foldl].
    destruct (coll_get_is_Some l s) as [[i x] Hget]; [apply Hin, list_elem_of_here|].
    pose proof (coll_get_lt _ _ _ _ Hget) as Hlt.
    unfold remove_named at 2. cbn [fst snd].
    rewrite coll_get_app_l by apply Hin, list_elem_of_here.
    rewrite Hget. simpl.
    rewrite decide_False by lia. rewrite decide_True by done.
    rewrite delete_app_l by done.
    replace (Init.Nat.pred (length l)) with (length (delete i l))
      by (rewrite length_delete by (by apply lookup_lt_is_Some_2); lia).
    rewrite (delete_by_name l s i x) by done.
    rewrite IH.
    + rewrite list_filter_filter.
      assert (Hext : filter (fun a => (name_of a ∉ sources) ∧ name_of a ≠ s) l
                     = filter (fun y => name_of y ∉ s :: sources) l).
      { apply list_filter_iff. intros y. rewrite not_elem_of_cons. tauto. }
      by rewrite Hext.
    + eapply sublist_NoDup; [exact Hnd|]. apply fmap_sublist, sublist_filter.
    + done.
    + intros s' Hs'. assert (s' ∈ names l) as (y & Heq & Hy)%list_elem_of_fmap
        by (by apply Hin, list_elem_of_further).
      apply list_elem_of_fmap. exists y. split; [done|].
      apply list_elem_of_filter. split; [|done]. intros Hys. apply Hs. congruence.
Qed.

(** Naming the last member. *)
Lemma set_name_last l (t : A) (n : string) :
  set_name (length l) n (l ++ [t]) = l ++ [with_name (unique_name (names l) n) t].
Proof.
  unfold set_name. rewrite list_lookup_middle by done.
  rewrite delete_middle, app_nil_r.
  rewrite insert_app_r_alt, Nat.sub_diag by done. done.
Qed.

End removal.

Section merge_facts.
Context {host : Host}.
Implicit Types (gs : list VertexGroup) (g : VertexGroup) (v : nat).

(** The inner accumulation loop, over the vertices, for one group. *)
Lemma accumulate_group (d : list (nat * Q)) (vs : list nat) g v :
  NoDup vs →
  let d' := foldl (fun sum v =>
                     let weight := weight_or_zero g v in
                     match dict_get sum v with
                     | Some s => dict_set sum v (s + weight)%Q
                     | None => dict_set sum v weight
                     end) d vs in
  dict_get d' v
  = (if bool_decide (v ∈ vs) then Some (add_weight (dict_get d v) (weight_or_zero g v))
     else dict_get d v)
  ∧ (NoDup (dict_keys d) → NoDup (dict_keys d')).
Proof.
  revert d. induction vs as [|v0 vs IH]; intros d Hnd; [done|].
  apply NoDup_cons in Hnd as [Hv0 Hnd]. cbn [foldl]. cbv zeta.
  set (d1 := match dict_get d v0 with
             | Some s => dict_set d v0 (s + weight_or_zero g v0)%Q
             | None => dict_set d v0 (weight_or_zero g v0)
             end).
  assert (Hd1 : d1 = dict_set d v0 (add_weight (dict_get d v0) (weight_or_zero g v0))).
  { unfold d1, add_weight. by destruct (dict_get d v0). }
  destruct (IH d1 Hnd) as [Hget Hkeys]. cbv zeta in Hget, Hkeys. split.
  - rewrite Hget, Hd1, dict_get_set.
    destruct (decide (v0 = v)) as [->|Hne].
    + rewrite (bool_decide_eq_false_2 (v ∈ vs)) by done.
      by rewrite (bool_decide_eq_true_2 (v ∈ v :: vs)) by apply list_elem_of_here.
    + rewrite (bool_decide_ext (v ∈ v0 :: vs) (v ∈ vs)); [done|].
      rewrite elem_of_cons. naive_solver.
  - intros Hd. apply Hkeys. rewrite Hd1. by apply dict_keys_set_NoDup.
Qed.

Lemma accumulate_weights_get (vs : list nat) gs (sources : list string) v :
  NoDup vs →
  dict_get (accumulate_weights vs gs sources) v
  = (if bool_decide (v ∈ vs) then sum_sources gs v None sources else None)
  ∧ NoDup (dict_keys (accumulate_weights vs gs sources)).
Proof.
  intros Hnd. unfold accumulate_weights, sum_sources.
  assert (Hgen : ∀ d : list (nat * Q),
    NoDup (dict_keys d) → (v ∉ vs → dict_get d v = None) →
    let d' := foldl (fun vertex_weight_sum group_name =>
                       match coll_get gs group_name with
                       | None => vertex_weight_sum
                       | Some (_, group) =>
                           foldl (fun sum v =>
                                    let weight := weight_or_zero group v in
                                    match dict_get sum v with
                                    | Some s => dict_set sum v (s + weight)%Q
                                    | None => dict_set sum v weight
                                    end)
                                 vertex_weight_sum vs
                       end) d sources in
    dict_get d' v
    = (if bool_decide (v ∈ vs) then
         foldl (fun o s =>
                  match coll_get gs s with
                  | Some (_, g) => Some (add_weight o (weight_or_zero g v))
                  | None => o
                  end) (dict_get d v) sources
       else None)
    ∧ NoDup (dict_keys d')).
  { induction sources as [|s sources IH]; intros d Hd Hout.
    - cbn [foldl]. split; [|done]. case_bool_decide; [done | by apply Hout].
    - cbn [foldl]. destruct (coll_get gs s) as [[i g]|] eqn:E; [|by apply IH].
      destruct (accumulate_group d vs g v Hnd) as [Hget Hkeys]. cbv zeta in Hget, Hkeys.
      match goal with |- context [foldl _ (foldl ?f d vs) sources] =>
        set (d1 := foldl f d vs) in * end.
      destruct (IH d1) as [Hget' Hkeys']; [by apply Hkeys | |].
      { intros Hv. rewrite Hget. rewrite bool_decide_eq_false_2 by done. by apply Hout. }
      cbv zeta in Hget', Hkeys'. split; [|done].
      rewrite Hget', Hget. by case_bool_decide. }
  destruct (Hgen []) as [Hget Hkeys]; [constructor | done |].
  done.
Qed.

Lemma sum_sources_Qsum gs v (o : option Q) (sources : list string) :
  (∀ s, s ∈ sources → is_Some (coll_get gs s)) →
  is_Some o ∨ sources ≠ [] →
  ∃ w, sum_sources gs v o sources = Some w
       ∧ (w == default 0 o + Qsum (source_weight gs v <$> sources))%Q.
Proof.
  unfold sum_sources. revert o.
  induction sources as [|s sources IH]; intros o Hfound Ho.
  - destruct Ho as [[w ->]|?]; [|done]. exists w. split; [done|].
    change (w == w + 0)%Q. ring.
  - cbn [foldl]. rewrite fmap_cons, Qsum_cons.
    destruct (Hfound s (list_elem_of_here _ _)) as [[i g] Hg].
    unfold source_weight at 1. rewrite Hg.
    destruct (IH (Some (add_weight o (weight_or_zero g v)))) as (w & -> & Hw).
    + intros s' Hs'. by apply Hfound, list_elem_of_further.
    + left. by eexists.
    + exists w. split; [done|]. rewrite Hw.
      set (S := Qsum _). set (x := weight_or_zero g v).
      destruct o as [a|];
        [change (a + x + S == a + (x + S))%Q | change (x + S == 0 + (x + S))%Q]; ring.
Qed.

(** A loop of in-place changes to one member is one change to it. *)
Lemma foldl_alter {X I : Type} (F : I → X → X) (t : nat) (l : list X) (items : list I) :
  foldl (fun l item => alter (F item) t l) l items
  = alter (fun x => foldl (fun x item => F item x) x items) t l.
Proof.
  revert l. induction items as [|item items IH]; intros l.
  - simpl. symmetry. apply list_alter_id. done.
  - cbn [foldl]. by rewrite IH, list_alter_alter_eq.
Qed.

(** Adding the summed weights to a group, one vertex at a time. *)
Lemma add_items_weight g (items : list (nat * Q)) v :
  NoDup (dict_keys items) →
  let g' := foldl (fun g item => vg_add item.1 item.2 ADD g) g items in
  vg_name g' = vg_name g
  ∧ vg_weight g' v
    = match dict_get items v with
      | Some w =>
          Some (match vg_weight g v with
                | Some old =>
                    if Qlt_le_dec 1 (old + clamp_weight w) then 1%Q
                    else (old + clamp_weight w)%Q
                | None => clamp_weight w
                end)
      | None => vg_weight g v
      end.
Proof.
  revert g. unfold dict_keys.
  induction items as [|[k w] items IH]; intros g Hnd; [done|].
  rewrite fmap_cons in Hnd. apply NoDup_cons in Hnd as [Hk Hnd].
  cbn [foldl fst snd]. destruct (IH (vg_add k w ADD g) Hnd) as [Hname Hw]. cbv zeta in *.
  split; [by rewrite Hname|]. rewrite Hw. simpl.
  case_decide as Hkv.
  - subst v. rewrite (proj2 (dict_get_None items k)) by done.
    unfold vg_weight, vg_add. simpl. rewrite lookup_insert_eq.
    unfold vg_weight. by destruct (vg_weights g !! k).
  - rewrite !(vg_weight_add_ne g k v w ADD Hkv). done.
Qed.

End merge_facts.

Section merge_theorems.
Context {host : Host}.
Implicit Types (gs : list VertexGroup) (g : VertexGroup) (v : nat) (obj : Object).

Lemma sum_sources_ext gs1 gs2 v (o : option Q) (sources : list string) :
  (∀ s, s ∈ sources → coll_get gs1 s = coll_get gs2 s) →
  sum_sources gs1 v o sources = sum_sources gs2 v o sources.
Proof.
  unfold sum_sources. revert o.
  induction sources as [|s sources IH]; intros o Hext; [done|].
  cbn [foldl]. rewrite (Hext s) by apply list_elem_of_here.
  apply IH. intros s' Hs'. by apply Hext, list_elem_of_further.
Qed.

(** [merge_vertex_groups] before its normalization step, for source names
    that are distinct and all present in a collection with distinct names:
    the source groups are gone, the other groups are as they were, and the
    merged group is the last one. *)
Lemma merge_groups_unnormalized_spec obj (target : string) (sources : list string) :
  NoDup (names (vertex_groups obj)) → NoDup sources →
  (∀ s, s ∈ sources → s ∈ names (vertex_groups obj)) →
  let rest := filter (fun g => vg_name g ∉ sources) (vertex_groups obj) in
  ∃ merged,
    merge_groups_unnormalized obj target sources = Some (rest ++ [merged])
    ∧ vg_name merged = unique_name (names rest) target
    ∧ ∀ v, vg_weight merged v
           = if bool_decide (v < n_vertices obj)
             then clamp_weight <$> sum_sources (vertex_groups obj) v None sources
             else None.
Proof.
  intros Hnd Hsrc Hin rest. unfold merge_groups_unnormalized.
  set (gs := vertex_groups obj) in *.
  set (tmp := with_name (unique_name (names gs) ("__temp_merge_" +:+ target +:+ "__"))
                {| vg_name := ""; vg_weights := ∅ |}).
  change (coll_new ("__temp_merge_" +:+ target +:+ "__")
            {| vg_name := ""; vg_weights := ∅ |} gs) with (gs ++ [tmp]).
  set (items := accumulate_weights (obj_vertices obj) (gs ++ [tmp]) sources).
  rewrite (foldl_alter (fun item => vg_add item.1 item.2 ADD)).
  set (G := fun x => foldl (fun x item => vg_add item.1 item.2 ADD x) x items).
  rewrite alter_app_r_alt, Nat.sub_diag by done.
  change (alter G 0 [tmp]) with [G tmp].
  rewrite (remove_sources gs (G tmp) sources) by done.
  cbn [snd fst mbind option_bind].
  rewrite set_name_last.
  exists (with_name (unique_name (names rest) target) (G tmp)).
  split; [done|]. split; [done|].
  intros v.
  destruct (accumulate_weights_get (obj_vertices obj) (gs ++ [tmp]) sources v)
    as [Hget Hkeys]; [apply NoDup_seq|].
  destruct (add_items_weight tmp items v Hkeys) as [_ Hw]. cbv zeta in Hw.
  change (vg_weight (with_name (unique_name (names rest) target) (G tmp)) v)
    with (vg_weight (G tmp) v).
  unfold G. rewrite Hw. fold items in Hget. rewrite Hget.
  rewrite (bool_decide_ext (v ∈ obj_vertices obj) (v < n_vertices obj))
    by (unfold obj_vertices; rewrite elem_of_seq; lia).
  rewrite (sum_sources_ext (gs ++ [tmp]) gs)
    by (intros s Hs; by apply coll_get_app_l, Hin).
  assert (Htmp : vg_weight tmp v = None) by apply lookup_empty.
  rewrite Htmp. destruct (bool_decide (v < n_vertices obj)); [|done].
  by destruct (sum_sources gs v None sources).
Qed.

(** The groups that a merge leaves before its normalization step hold
    weights of the host's range when the groups of the mesh did. *)
Lemma merged_in_range obj (sources : list string) (merged : VertexGroup) :
  weights_in_range (vertex_groups obj) →
  (∀ v, vg_weight merged v
        = if bool_decide (v < n_vertices obj)
          then clamp_weight <$> sum_sources (vertex_groups obj) v None sources
          else None) →
  weights_in_range
    (filter (fun g => vg_name g ∉ sources) (vertex_groups obj) ++ [merged]).
Proof.
  intros Hr Hw. unfold weights_in_range in *. apply Forall_app. split.
  - rewrite Forall_forall in Hr. apply Forall_forall.
    intros g Hg%list_elem_of_filter. apply Hr, Hg.
  - apply Forall_singleton. intros v w Hv.
    change (vg_weight merged v = Some w) in Hv. rewrite Hw in Hv.
    destruct (bool_decide (v < n_vertices obj)); [|done].
    destruct (sum_sources (vertex_groups obj) v None sources) as [w0|]; [|done].
    injection Hv as <-. apply clamp_weight_in_range.
Qed.


End merge_theorems.



(** ** The rename loop returns *)

Lemma dict_get_Some_split {K V : Type} `{EqDecision K} (d : list (K * V)) (k : K) (v : V) :
  dict_get d k = Some v → ∃ d1 d2, d = d1 ++ (k, v) :: d2 ∧ k ∉ dict_keys d1.
Proof.
  unfold dict_keys. induction d as [|[k' v'] d IH]; simpl; [done|].
  case_decide as Hk.
  - intros [= ->]. subst k'. exists [], d. split; [done|]. apply not_elem_of_nil.
  - intros (d1 & d2 & -> & Hd1)%IH. exists ((k', v') :: d1), d2. split; [done|].
    rewrite fmap_cons, not_elem_of_cons. by split; [intros ->|].
Qed.

Lemma all_sources_app (b1 b2 : list (string * list string)) :
  all_sources (b1 ++ b2) = all_sources b1 ++ all_sources b2.
Proof. unfold all_sources. by rewrite fmap_app, join_app. Qed.

Lemma all_sources_cons (b : string * list string) (bs : list (string * list string)) :
  all_sources (b :: bs) = b.2 ++ all_sources bs.
Proof. reflexivity. Qed.

(** [new_to_sources] holds every member name that has a rule once, and no
    bucket of it is empty. *)
Lemma group_by_target_sources (rules : ruleset) (ns : list string) :
  all_sources (group_by_target rules ns)
    ≡ₚ filter (fun n => is_Some (dict_get rules n)) ns
  ∧ Forall (fun b => b.2 ≠ []) (group_by_target rules ns).
Proof.
  unfold group_by_target.
  assert (Hgen : ∀ acc : list (string * list string),
    Forall (fun b => b.2 ≠ []) acc →
    let res :=
      foldl (fun new_to_sources name =>
               match dict_get rules name with
               | Some new_name =>
                   match dict_get new_to_sources new_name with
                   | Some sources => dict_set new_to_sources new_name (sources ++ [name])
                   | None => dict_set new_to_sources new_name [name]
                   end
               | None => new_to_sources
               end) acc ns in
    all_sources res ≡ₚ all_sources acc ++ filter (fun n => is_Some (dict_get rules n)) ns
    ∧ Forall (fun b => b.2 ≠ []) res).
  { induction ns as [|n ns IH]; intros acc Hacc.
    - simpl. by rewrite app_nil_r.
    - cbn [foldl]. rewrite filter_cons.
      destruct (dict_get rules n) as [new|] eqn:Hr.
      + rewrite decide_True by done.
        destruct (dict_get acc new) as [srcs|] eqn:Hacc_get.
        * destruct (dict_get_Some_split _ _ _ Hacc_get) as (d1 & d2 & -> & Hd1).
          rewrite dict_set_middle by done.
          destruct (IH (d1 ++ (new, srcs ++ [n]) :: d2)) as [Hp Hf].
          { apply Forall_app in Hacc as [H1 H2]. apply Forall_cons in H2 as [_ H2].
            apply Forall_app. split; [done|]. apply Forall_cons. split; [|done].
            simpl. by destruct srcs. }
          cbv zeta in *. split; [|done]. rewrite Hp.
          rewrite !all_sources_app, !all_sources_cons. simpl.
          rewrite <- !app_assoc. simpl.
          do 2 apply Permutation_app_head. apply Permutation_middle.
        * rewrite dict_set_fresh by (by apply dict_get_None).
          destruct (IH (acc ++ [(new, [n])])) as [Hp Hf].
          { apply Forall_app. split; [done|]. by apply Forall_singleton. }
          cbv zeta in *. split; [|done]. rewrite Hp.
          rewrite all_sources_app. unfold all_sources at 2. simpl.
          by rewrite <- app_assoc.
      + rewrite decide_False by (by intros [? ?]). by apply IH. }
  destruct (Hgen []) as [Hp Hf]; [constructor|]. done.
Qed.

Section totality.
Context {A : Type} {host : Host} {named : Named A} {container : Container A}.
Implicit Types (l : list A) (obj : Object).

Lemma names_delete_other l i x n :
  l !! i = Some x → n ∈ names l → n ≠ name_of x → n ∈ names (delete i l).
Proof.
  intros Hi (y & -> & [j Hj]%list_elem_of_lookup)%list_elem_of_fmap Hne.
  apply list_elem_of_fmap. exists y. split; [done|].
  apply list_elem_of_lookup.
  destruct (decide (j < i)).
  - exists j. by rewrite list_lookup_delete_lt.
  - assert (j ≠ i) by (intros ->; congruence).
    exists (j - 1). rewrite list_lookup_delete_ge by lia.
    by replace (S (j - 1)) with j by lia.
Qed.

Lemma names_set_name_other l i new n x :
  l !! i = Some x → n ∈ names l → n ≠ name_of x → n ∈ names (set_name i new l).
Proof.
  intros Hi (y & -> & [j Hj]%list_elem_of_lookup)%list_elem_of_fmap Hne.
  apply list_elem_of_fmap. exists y. split; [done|].
  apply list_elem_of_lookup. exists j. unfold set_name. rewrite Hi.
  rewrite list_lookup_insert_ne; [done|]. intros ->. congruence.
Qed.

(** The removal loop of a merge for source names that are distinct and all
    present, whatever the other names are: the temporary member stays, and
    so does every name that is not a source. *)
Lemma remove_sources_keeps_temp l (t : A) (sources : list string) :
  NoDup sources → (∀ s, s ∈ sources → s ∈ names l) →
  ∃ l1,
    foldl (fun st s => remove_named s st) (l ++ [t], Some (length l)) sources
    = (l1 ++ [t], Some (length l1))
    ∧ ∀ n, n ∈ names l → n ∉ sources → n ∈ names l1.
Proof.
  revert l. induction sources as [|s sources IH]; intros l Hsrc Hin.
  - exists l. by split.
  - apply NoDup_cons in Hsrc as [Hs Hsrc]. cbn [foldl].
    destruct (coll_get_is_Some l s) as [[i x] Hget]; [apply Hin, list_elem_of_here|].
    pose proof (coll_get_lt _ _ _ _ Hget) as Hlt.
    pose proof (coll_get_Some _ _ _ _ Hget) as (Hi & Hname & _).
    unfold remove_named at 2. cbn [fst snd].
    rewrite coll_get_app_l by apply Hin, list_elem_of_here.
    rewrite Hget. simpl.
    rewrite decide_False by lia. rewrite decide_True by done.
    rewrite delete_app_l by done.
    replace (Init.Nat.pred (length l)) with (length (delete i l))
      by (rewrite length_delete by (by apply lookup_lt_is_Some_2); lia).
    destruct (IH (delete i l)) as (l1 & -> & Hkeep); [done| |].
    + intros s' Hs'. apply (names_delete_other l i x); [done| |congruence].
      by apply Hin, list_elem_of_further.
    + exists l1. split; [done|]. intros n Hn Hnot.
      apply not_elem_of_cons in Hnot as [Hns Hnot].
      apply Hkeep; [|done]. apply (names_delete_other l i x); [done..|congruence].
Qed.

Lemma apply_buckets_returns (buckets : list (string * list string))
    (st : Object * list event) :
  merge_returns →
  Forall (fun b => b.2 ≠ []) buckets →
  NoDup (all_sources buckets) →
  (∀ s, s ∈ all_sources buckets → s ∈ names (members st.1)) →
  is_Some (apply_buckets A buckets st).
Proof.
  intros Hmerge. revert st.
  induction buckets as [|b buckets IH]; intros [obj evs] Hne Hnd Hin; [by eexists|].
  apply Forall_cons in Hne as [Hb Hne].
  rewrite all_sources_cons in Hnd, Hin.
  apply NoDup_app in Hnd as (Hndb & Hdisj & Hnd).
  cbn [apply_buckets].
  assert (Hstep : ∃ obj1 evs1,
    apply_bucket A b (obj, evs) = Some (obj1, evs1)
    ∧ ∀ s, s ∈ all_sources buckets → s ∈ names (members obj1)).
  { unfold apply_bucket. cbn [fst snd]. case_decide as Hlen.
    - destruct (Hmerge obj b.1 b.2) as (obj1 & evs1 & -> & Hkeep); [done| |].
      { intros s Hs. apply Hin, elem_of_app. by left. }
      eexists _, _. split; [done|]. intros s Hs. apply Hkeep.
      + apply Hin, elem_of_app. by right.
      + intros Hsb. by apply (Hdisj s).
    - destruct b.2 as [|old rest] eqn:Hb2; [done|]. cbn [head mbind option_bind].
      destruct (coll_get (members obj) old) as [[i x]|] eqn:Hget.
      + apply coll_get_Some in Hget as (Hi & Hname & _).
        case_decide.
        * eexists _, _. split; [done|]. intros s Hs.
          rewrite members_with_members.
          apply (names_set_name_other _ i b.1 s x); [done| |].
          -- apply Hin, elem_of_app. by right.
          -- rewrite Hname. intros ->. apply (Hdisj old); [apply list_elem_of_here | done].
        * eexists _, _. split; [done|]. intros s Hs. apply Hin, elem_of_app. by right.
      + eexists _, _. split; [done|]. intros s Hs. apply Hin, elem_of_app. by right. }
  destruct Hstep as (obj1 & evs1 & -> & Hin1). simpl. by apply IH.
Qed.

(** On a collection with distinct names the rename loop returns. *)
Lemma apply_rules_returns (rules : ruleset) obj :
  merge_returns → NoDup (names (members obj)) →
  is_Some (apply_rules A rules obj).
Proof.
  intros Hmerge Hnd. unfold apply_rules.
  destruct (group_by_target_sources rules (names (members obj))) as [Hp Hf].
  apply apply_buckets_returns; [done | done | |].
  - rewrite Hp. by apply NoDup_filter.
  - intros s Hs. rewrite Hp in Hs. by apply list_elem_of_filter in Hs as [_ ?].
Qed.

End totality.

Section merges_return.
Context {host : Host}.

Lemma merge_vertex_groups_returns : merge_returns (A:=VertexGroup).
Proof.
  intros obj target sources Hnd Hin. simpl in *.
  unfold merge_vertex_groups. case_decide as Hsrc; [by eexists _, _|].
  unfold merge_groups_unnormalized.
  set (gs := vertex_groups obj) in *.
  set (tmp := with_name (unique_name (names gs) ("__temp_merge_" +:+ target +:+ "__"))
                {| vg_name := ""; vg_weights := ∅ |}).
  change (coll_new ("__temp_merge_" +:+ target +:+ "__")
            {| vg_name := ""; vg_weights := ∅ |} gs) with (gs ++ [tmp]).
  rewrite (foldl_alter (fun item => vg_add item.1 item.2 ADD)).
  rewrite alter_app_r_alt, Nat.sub_diag by done.
  match goal with |- context [alter ?G 0 [tmp]] =>
    change (alter G 0 [tmp]) with [G tmp]; set (t := G tmp) end.
  destruct (remove_sources_keeps_temp gs t sources Hnd Hin) as (l1 & -> & Hkeep).
  cbn [snd fst mbind option_bind]. rewrite set_name_last.
  eexists _, _. split; [done|]. intros n Hn Hnot. simpl.
  rewrite normalize_weights_names.
  unfold names. rewrite fmap_app, elem_of_app. left. by apply Hkeep.
Qed.

End merges_return.

(** ** The order of merges and normalization *)

Section trace.
Context {host : Host}.

Lemma merge_vertex_groups_events obj target sources obj' evs :
  merge_vertex_groups obj target sources = Some (obj', evs) →
  sources ≠ [] → evs = [Normalized].
Proof.
  unfold merge_vertex_groups. intros Hm Hne. rewrite decide_False in Hm by done.
  destruct (merge_groups_unnormalized obj target sources); by simplify_eq/=.
Qed.

Lemma merge_events_app evs1 evs2 :
  merge_events (evs1 ++ evs2) = merge_events evs1 ++ merge_events evs2.
Proof. apply filter_app. Qed.

Lemma apply_bucket_events (b : string * list string) st st' :
  apply_bucket VertexGroup b st = Some st' →
  merge_events st'.2
  = merge_events st.2
    ++ (if decide (1 < length b.2) then [Merging b.1 b.2; Normalized] else []).
Proof.
  unfold apply_bucket. case_decide as Hlen.
  - destruct (merge_members st.1 b.1 b.2) as [[obj' evs]|] eqn:Hm; [|done].
    intros [= <-]. simpl.
    apply merge_vertex_groups_events in Hm as ->;
      [|intros Heq; rewrite Heq in Hlen; simpl in Hlen; lia].
    by rewrite merge_events_app.
  - destruct (head b.2) as [old|]; [|done]. simpl.
    destruct (coll_get (vertex_groups st.1) old) as [[i g]|].
    + destruct (decide (vg_name g ≠ b.1)).
      * intros [= <-]. simpl. rewrite merge_events_app. simpl. by rewrite !app_nil_r.
      * intros [= <-]. by rewrite app_nil_r.
    + intros [= <-]. by rewrite app_nil_r.
Qed.

Lemma apply_buckets_events (buckets : list (string * list string)) st st' :
  apply_buckets VertexGroup buckets st = Some st' →
  merge_events st'.2
  = merge_events st.2
    ++ mjoin ((fun b => [Merging b.1 b.2; Normalized]) <$> merge_buckets buckets).
Proof.
  revert st. induction buckets as [|b buckets IH]; intros st.
  - intros [= <-]. by rewrite app_nil_r.
  - cbn [apply_buckets]. destruct (apply_bucket VertexGroup b st) as [st1|] eqn:Hb; [|done].
    simpl. intros Hrest. rewrite (IH _ Hrest), (apply_bucket_events _ _ _ Hb).
    unfold merge_buckets. rewrite filter_cons.
    case_decide; [|by rewrite app_nil_r].
    rewrite fmap_cons. simpl. by rewrite <- app_assoc.
Qed.

(** C1, as the code has it. The normalization step is the end of
    [merge_vertex_groups], so a rename pass over a mesh (whose groups have
    distinct names) runs it once for every merge, right after that merge
    and before the next bucket is handled: without the renames, the events
    of the pass are a [Merging] followed by a [Normalized] for every bucket
    with two or more sources, in bucket order, and there are as many
    normalization steps as merges. *)
Theorem normalization_after_each_merge (rules : ruleset) (obj : Object) :
  NoDup (names (vertex_groups obj)) →
  ∃ obj' evs,
    apply_rules VertexGroup rules obj = Some (obj', evs)
    ∧ let merges := merge_buckets (group_by_target rules (names (vertex_groups obj))) in
      merge_events evs = mjoin ((fun b => [Merging b.1 b.2; Normalized]) <$> merges)
      ∧ length (filter (fun e => e = Normalized) evs) = length merges.
Proof.
  intros Hnd.
  destruct (apply_rules_returns (A:=VertexGroup) rules obj
              merge_vertex_groups_returns Hnd) as [[obj' evs] Happ].
  exists obj', evs. split; [done|]. intros merges.
  unfold apply_rules in Happ.
  apply apply_buckets_events in Happ. simpl in Happ.
  change (names (members obj)) with (names (vertex_groups obj)) in Happ.
  fold merges in Happ. split; [done|].
  assert (Hcount : length (filter (fun e => e = Normalized) (merge_events evs))
                   = length merges).
  { rewrite Happ. clear Happ. induction merges as [|b merges IH]; [done|].
    replace (mjoin ((fun b => [Merging b.1 b.2; Normalized]) <$> b :: merges))
      with (Merging b.1 b.2 :: Normalized
              :: mjoin ((fun b => [Merging b.1 b.2; Normalized]) <$> merges))
      by reflexivity.
    rewrite !filter_cons.
    rewrite decide_False by done. rewrite decide_True by done. simpl. by rewrite IH. }
  rewrite <- Hcount. unfold merge_events. rewrite list_filter_filter.
  f_equal. apply list_filter_iff. intros e. split; [|tauto].
  intros ->. done.
Qed.

End trace.

(** C1, on a mesh where A, B go to T and C, D go to U: two merges, each
    followed by its normalization step. *)
Lemma normalization_after_each_merge_example :
  let obj := mesh_object "Body" []
               [group "A" [(0, 6 # 10)]; group "B" [(0, 6 # 10)];
                group "C" [(0, 3 # 10)]; group "D" [(0, 3 # 10)]] 1 in
  let rules := [("A", "T"); ("B", "T"); ("C", "U"); ("D", "U")] in
  ∃ obj' evs,
    apply_rules (host:=blender_host) VertexGroup rules obj = Some (obj', evs)
    ∧ merge_events evs
      = [Merging "T" ["A"; "B"]; Normalized; Merging "U" ["C"; "D"]; Normalized]
    ∧ length (filter (fun e => e = Normalized) evs) = 2.
Proof.
  intros obj rules.
  refine (normalization_after_each_merge (host:=blender_host) rules obj _).
  compute_done.
Defined.

(** C1 as it is worded fails: with two merges in one rename pass the
    normalization step runs twice, the first time before the second merge
    has begun. *)
Lemma normalization_runs_per_merge :
  let obj := mesh_object "Body" []
               [group "A" [(0, 6 # 10)]; group "B" [(0, 6 # 10)];
                group "C" [(0, 3 # 10)]; group "D" [(0, 3 # 10)]] 1 in
  let rules := [("A", "T"); ("B", "T"); ("C", "U"); ("D", "U")] in
  snd <$> apply_rules (host:=blender_host) VertexGroup rules obj
  = Some [Merging "T" ["A"; "B"]; Normalized; Merging "U" ["C"; "D"]; Normalized].
Proof. by vm_compute. Qed.

(** ** The operators *)

Lemma get_armatures_from_meshes_get (objects : list Object) (meshes : list nat)
    (m : nat) (mesh : Object) :
  objects !! m = Some mesh → m ∈ meshes →
  dict_get (get_armatures_from_meshes objects meshes) m
  = link_of (modifier_armatures objects mesh).
Proof.
  intros Hm Hin. unfold get_armatures_from_meshes.
  assert (Hgen : ∀ d : list (nat * armature_link),
    dict_get
      (foldl (fun mesh_to_armature mesh =>
                match modifier_armatures objects <$> objects !! mesh with
                | Some [armature] => dict_set mesh_to_armature mesh (Single armature)
                | Some (a1 :: a2 :: rest) =>
                    dict_set mesh_to_armature mesh (Multiple (a1 :: a2 :: rest))
                | _ => mesh_to_armature
                end) d meshes) m
    = match link_of (modifier_armatures objects mesh) with
      | Some l => if bool_decide (m ∈ meshes) then Some l else dict_get d m
      | None => dict_get d m
      end).
  { clear Hin. induction meshes as [|m' meshes IH]; intros d.
    - simpl. by destruct (link_of _).
    - cbn [foldl]. rewrite IH.
      destruct (decide (m' = m)) as [->|Hne].
      + rewrite Hm. simpl.
        rewrite (bool_decide_eq_true_2 (m ∈ m :: meshes)) by apply list_elem_of_here.
        destruct (modifier_armatures objects mesh) as [|a1 [|a2 rest]]; simpl;
          rewrite ?dict_get_set, ?decide_True by done; by case_bool_decide.
      + rewrite (bool_decide_ext (m ∈ m' :: meshes) (m ∈ meshes))
          by (rewrite elem_of_cons; naive_solver).
        destruct (modifier_armatures objects <$> objects !! m') as [[|a1 [|a2 rest]]|];
          rewrite ?dict_get_set, ?decide_False by done; done. }
  rewrite Hgen, (bool_decide_eq_true_2 _ Hin). by destruct (link_of _).
Qed.

(** A selected mesh with two or more armatures is among the meshes the
    operators report. *)
Lemma elem_of_meshes_with_multiple_armatures (objects : list Object)
    (meshes : list nat) (m : nat) (mesh : Object) (a1 a2 : nat) (rest : list nat) :
  objects !! m = Some mesh → m ∈ meshes →
  modifier_armatures objects mesh = a1 :: a2 :: rest →
  m ∈ meshes_with_multiple_armatures objects meshes.
Proof.
  intros Hm Hin Harm. unfold meshes_with_multiple_armatures.
  pose proof (get_armatures_from_meshes_get objects meshes m mesh Hm Hin) as Hget.
  rewrite Harm in Hget. simpl in Hget.
  apply dict_get_Some_elem in Hget.
  apply list_elem_of_fmap. exists (m, Multiple (a1 :: a2 :: rest)). split; [done|].
  by apply list_elem_of_filter.
Qed.

Lemma elem_of_selected_of_type (ty : object_type) (objects : list Object)
    (selected : list nat) (i : nat) :
  i ∈ selected_of_type ty objects selected
  ↔ i ∈ selected ∧ obj_type <$> objects !! i = Some ty.
Proof. unfold selected_of_type. rewrite list_elem_of_filter. tauto. Qed.

Section operator_theorems.
Context {host : Host}.

(** C7, as the code has it. With synchronization on, each of the three
    mesh operators rejects the whole selection when a selected mesh has
    two or more armatures: it is cancelled, no object is changed, and the
    one error reported lists the names of the meshes with several
    armatures, that mesh among them. The three armature operators have no
    such check: they do with synchronization on what they do with it off,
    and finish whenever an armature is selected, whatever number of meshes
    it is linked to. *)
Theorem ambiguous_links_rejected_for_meshes :
  (∀ (op : operator) (current_rules : preset) (selected : list nat)
     (objects : list Object) (m : nat) (mesh : Object) (a1 a2 : nat) (rest : list nat),
     on_meshes op = true →
     m ∈ selected → objects !! m = Some mesh → obj_type mesh = MESH →
     modifier_armatures objects mesh = a1 :: a2 :: rest →
     ∃ mesh_names,
       execute op current_rules true selected objects
       = Some (cancelled objects
                 (ERROR, "Meshes with multiple armatures detected: "
                           +:+ String.concat ", " mesh_names
                           +:+ ". Cannot synchronize."))
       ∧ obj_name mesh ∈ mesh_names)
  ∧ (∀ (op : operator) (current_rules : preset) (selected : list nat)
       (objects : list Object),
       on_meshes op = false →
       execute op current_rules true selected objects
       = execute op current_rules false selected objects
       ∧ ∀ out,
           execute op current_rules true selected objects = Some out →
           selected_of_type ARMATURE objects selected ≠ [] →
           out_result out = FINISHED).
Proof.
  split.
  - intros op current_rules selected objects m mesh a1 a2 rest Hop Hsel Hm Hty Harm.
    set (selected_meshes := selected_of_type MESH objects selected).
    assert (Hin : m ∈ selected_meshes).
    { apply elem_of_selected_of_type. by rewrite Hm, <- Hty. }
    pose proof (elem_of_meshes_with_multiple_armatures
                  objects selected_meshes m mesh a1 a2 rest Hm Hin Harm) as Hmulti.
    exists (omap (fun mesh => obj_name <$> objects !! mesh)
                 (meshes_with_multiple_armatures objects selected_meshes)).
    split.
    + assert (Hne : selected_meshes ≠ []) by (intros Heq; rewrite Heq in Hin; by apply elem_of_nil in Hin).
      assert (Hcond : bool_decide (meshes_with_multiple_armatures objects selected_meshes ≠ [])
                      = true).
      { apply bool_decide_eq_true_2. intros Heq. rewrite Heq in Hmulti.
        by apply elem_of_nil in Hmulti. }
      destruct op; try discriminate Hop; simpl;
        unfold rename_vertex_groups_execute, undo_vertex_group_rename_execute,
          quick_mirror_vertex_groups_execute;
        fold selected_meshes; rewrite decide_False by done; simpl; by rewrite Hcond.
    + apply list_elem_of_omap. exists m. by rewrite Hm.
  - intros op current_rules selected objects Hop. split.
    + by destruct op.
    + intros out Hout Hsel.
      destruct op; try discriminate Hop; simpl in Hout;
        unfold rename_bones_execute, undo_bone_renames_execute,
          quick_mirror_bone_names_execute in Hout;
        rewrite decide_False in Hout by done; simpl in Hout.
      * destruct (for_each _ _ _) in Hout; by simplify_eq/=.
      * by simplify_eq.
      * by simplify_eq.
Qed.

End operator_theorems.

(** C7, on the spec's example: the mesh M has the armature S, the mesh M2
    has S and S2; renaming both with synchronization on is cancelled with
    an error that names M2, and the objects are as they were. An armature
    operator finishes on S, which two meshes are linked to. *)
Lemma ambiguous_links_rejected_for_meshes_example :
  let objects :=
    [mesh_object "M" [armature_modifier 2] [group "a" []] 0;
     mesh_object "M2" [armature_modifier 2; armature_modifier 3] [group "a" []] 0;
     armature_object "S" [bone "a"];
     armature_object "S2" [bone "a"]] in
  let rules := [("", [("a", "T")])] in
  (∃ mesh_names,
     execute (host:=blender_host) RENAME_VERTEX_GROUPS rules true [0; 1] objects
     = Some (cancelled objects
               (ERROR, "Meshes with multiple armatures detected: "
                         +:+ String.concat ", " mesh_names
                         +:+ ". Cannot synchronize."))
     ∧ "M2" ∈ mesh_names)
  ∧ ∀ out,
      execute (host:=blender_host) RENAME_BONES rules true [2] objects = Some out →
      out_result out = FINISHED.
Proof.
  intros objects rules.
  destruct (ambiguous_links_rejected_for_meshes (host:=blender_host)) as [Hmesh Harm].
  split.
  - exact (Hmesh RENAME_VERTEX_GROUPS rules [0; 1] objects 1
             (mesh_object "M2" [armature_modifier 2; armature_modifier 3] [group "a" []] 0)
             2 3 [] eq_refl ltac:(compute_done) eq_refl eq_refl eq_refl).
  - intros out Hout.
    destruct (Harm RENAME_BONES rules [2] objects eq_refl) as [_ Hfin].
    apply (Hfin out Hout). compute_done.
Defined.

(** C7 as it is worded fails for an armature with two meshes: with
    synchronization on, the rename operator for armatures is not cancelled
    and renames the bone of S, which M and M2 are both linked to. *)
Lemma armature_with_two_meshes_not_rejected :
  let objects :=
    [mesh_object "M" [armature_modifier 2] [group "a" []] 0;
     mesh_object "M2" [armature_modifier 2] [group "a" []] 0;
     armature_object "S" [bone "a"]] in
  let rules := [("", [("a", "T")])] in
  linked_meshes objects 2 = [0; 1]
  ∧ execute (host:=blender_host) RENAME_BONES rules true [2] objects
    = Some {| out_result := FINISHED;
              out_objects :=
                [mesh_object "M" [armature_modifier 2] [group "T" []] 0;
                 mesh_object "M2" [armature_modifier 2] [group "T" []] 0;
                 armature_object "S" [bone "T"]];
              out_reports := [];
              out_events := [Renaming "a" "T"] |}.
Proof. by vm_compute. Qed.

(** C2, on a ruleset that merges: a mesh Body with the vertex groups a
    and b and its armature Rig with the bones a and b, both names sent to
    T. With synchronization on, the rename operator for meshes merges the
    vertex groups of Body (its loop over the selected meshes, which is all
    the operator does without synchronization, gives the one group T) and
    then raises in [merge_bones] for Rig: the bones are not merged. The
    rename operator for armatures raises there as well. *)
Lemma sync_merge_raises :
  let mesh := mesh_object "Body" [armature_modifier 1] [group "a" []; group "b" []] 0 in
  let arm := armature_object "Rig" [bone "a"; bone "b"] in
  let rules := [("", [("a", "T"); ("b", "T")])] in
  rename_vertex_groups_execute (host:=blender_host) rules true [0] [mesh; arm] = None
  ∧ rename_vertex_groups_execute (host:=blender_host) rules false [0] [mesh; arm]
    = Some {| out_result := FINISHED;
              out_objects :=
                [mesh_object "Body" [armature_modifier 1] [group "T" []] 0; arm];
              out_reports := [];
              out_events := [Merging "T" ["a"; "b"]; Normalized] |}
  ∧ merge_bones (host:=blender_host) arm "T" ["a"; "b"] = None
  ∧ rename_bones_execute (host:=blender_host) rules true [1] [mesh; arm] = None.
Proof. by vm_compute. Qed.

(** ** Preset operators *)

Section dict_more.
Context {K V : Type} `{EqDecision K}.
Implicit Types (d o : list (K * V)) (k : K) (v : V).

Lemma dict_get_middle d1 d2 k v :
  k ∉ dict_keys d1 → dict_get (d1 ++ (k, v) :: d2) k = Some v.
Proof.
  intros Hk. rewrite dict_get_app_r by done. simpl. by rewrite decide_True.
Qed.

Lemma dict_del_middle d1 d2 k v :
  k ∉ dict_keys d1 → dict_del (d1 ++ (k, v) :: d2) k = d1 ++ d2.
Proof.
  unfold dict_keys. induction d1 as [|[k1 v1] d1 IH]; simpl.
  - intros _. by rewrite decide_True.
  - rewrite not_elem_of_cons. intros [? ?].
    case_decide; [congruence|]. by rewrite IH.
Qed.

Lemma dict_in_false d k : dict_in d k = false ↔ k ∉ dict_keys d.
Proof.
  rewrite <- dict_in_keys. destruct (dict_in d k); split; congruence.
Qed.

Lemma dict_in_middle d1 d2 k v : dict_in (d1 ++ (k, v) :: d2) k = true.
Proof.
  apply dict_in_keys. unfold dict_keys. rewrite fmap_app, fmap_cons.
  apply elem_of_app. right. apply list_elem_of_here.
Qed.

Lemma dict_keys_middle d1 d2 k v k' :
  k' ∈ dict_keys (d1 ++ (k, v) :: d2) ↔ k' = k ∨ k' ∈ dict_keys (d1 ++ d2).
Proof.
  unfold dict_keys. rewrite !fmap_app, fmap_cons, !elem_of_app, elem_of_cons.
  simpl. tauto.
Qed.

Lemma dict_keys_set d k v :
  dict_keys (dict_set d k v)
  = dict_keys d ++ (if bool_decide (k ∈ dict_keys d) then [] else [k]).
Proof.
  case_bool_decide as Hk.
  - rewrite dict_keys_set_present by done. by rewrite app_nil_r.
  - rewrite dict_set_fresh by done. unfold dict_keys. by rewrite fmap_app.
Qed.

(** A loop of assignments [d[k x] = v x]: a key has the value of the last
    assignment to it. *)
Lemma foldl_dict_set_get {X : Type} (key : X → K) (val : X → V) (xs : list X) d k :
  dict_get (foldl (fun d x => dict_set d (key x) (val x)) d xs) k
  = match last (filter (fun x => key x = k) xs) with
    | Some x => Some (val x)
    | None => dict_get d k
    end.
Proof.
  induction xs as [|x xs IH] using rev_ind; [done|].
  rewrite foldl_app. cbn [foldl]. rewrite dict_get_set.
  rewrite filter_app, filter_cons, filter_nil.
  destruct (decide (key x = k)) as [Hk|Hk].
  - by rewrite last_snoc.
  - by rewrite app_nil_r.
Qed.

(** The same for a loop that makes two assignments a turn, for a key that
    the second one never has. *)
Lemma foldl_dict_set_last {X : Type} (k1 k2 : X → K) (v1 v2 : X → V)
    (xs : list X) d k :
  (∀ x, x ∈ xs → k2 x ≠ k) →
  dict_get (foldl (fun d x => dict_set (dict_set d (k1 x) (v1 x)) (k2 x) (v2 x)) d xs) k
  = match last (filter (fun x => k1 x = k) xs) with
    | Some x => Some (v1 x)
    | None => dict_get d k
    end.
Proof.
  induction xs as [|x xs IH] using rev_ind; intros Hk2; [done|].
  rewrite foldl_app. cbn [foldl]. rewrite !dict_get_set.
  rewrite decide_False by (apply Hk2, elem_of_app; right; apply list_elem_of_here).
  rewrite filter_app, filter_cons, filter_nil.
  destruct (decide (k1 x = k)) as [Hk|Hk].
  - by rewrite last_snoc.
  - rewrite app_nil_r. apply IH. intros y Hy. apply Hk2, elem_of_app. by left.
Qed.

Lemma dict_update_snoc d o k v :
  dict_update d (o ++ [(k, v)]) = dict_set (dict_update d o) k v.
Proof. unfold dict_update. by rewrite foldl_app. Qed.

Lemma dict_update_get d o k :
  NoDup (dict_keys o) →
  dict_get (dict_update d o) k
  = match dict_get o k with Some v => Some v | None => dict_get d k end.
Proof.
  induction o as [|[k' v'] o IH] using rev_ind; intros Hnd; [done|].
  unfold dict_keys in Hnd. rewrite fmap_app in Hnd.
  apply NoDup_app in Hnd as (Hnd & Hdisj & _).
  rewrite dict_update_snoc, dict_get_set, IH by done.
  destruct (decide (k' = k)) as [->|Hne].
  - rewrite dict_get_app_r.
    + simpl. by rewrite decide_True.
    + intros Hin. apply (Hdisj _ Hin). simpl. apply list_elem_of_here.
  - destruct (decide (k ∈ dict_keys o)) as [Hin|Hout].
    + by rewrite dict_get_app_l.
    + rewrite dict_get_app_r by done. simpl. rewrite decide_False by done.
      apply dict_get_None in Hout. by rewrite Hout.
Qed.

Lemma dict_update_keys d o :
  NoDup (dict_keys o) →
  dict_keys (dict_update d o)
  = dict_keys d ++ filter (fun k => k ∉ dict_keys d) (dict_keys o).
Proof.
  induction o as [|[k' v'] o IH] using rev_ind; intros Hnd.
  - simpl. by rewrite app_nil_r.
  - unfold dict_keys in Hnd. rewrite fmap_app in Hnd.
    apply NoDup_app in Hnd as (Hnd & Hdisj & _).
    rewrite dict_update_snoc, dict_keys_set, IH by done.
    replace (dict_keys (o ++ [(k', v')])) with (dict_keys o ++ [k'])
      by (unfold dict_keys; by rewrite fmap_app).
    rewrite filter_app, app_assoc. f_equal.
    rewrite filter_cons, filter_nil.
    assert (Hk : k' ∉ o.*1).
    { intros Hin. apply (Hdisj _ Hin). simpl. apply list_elem_of_here. }
    case_bool_decide as Hin.
    + apply elem_of_app in Hin as [Hin|Hin].
      * by rewrite decide_False by (intros Hn; by apply Hn).
      * apply list_elem_of_filter in Hin as [_ Hin]. done.
    + rewrite decide_True; [done|].
      intros Hd. apply Hin, elem_of_app. by left.
Qed.

Lemma dict_update_nonempty d o : d ≠ [] → dict_update d o ≠ [].
Proof.
  intros Hd. induction o as [|[k v] o IH] using rev_ind; [done|].
  rewrite dict_update_snoc. destruct (dict_update d o) as [|[k1 v1] r]; [done|].
  simpl. by case_decide.
Qed.

End dict_more.

(** After the loop of [set_current_preset] and [initialize_presets] every
    prefix of the preset has the state [False], and no other prefix has
    one. *)
Lemma collapsed_get (rules : preset) (q : string) :
  dict_get (collapsed rules) q
  = if bool_decide (q ∈ dict_keys rules) then Some false else None.
Proof.
  unfold collapsed.
  assert (Hgen : ∀ (ks : list string) (acc : list (string * bool)),
    dict_get (foldl (fun states prefix => dict_set states prefix false) acc ks) q
    = if bool_decide (q ∈ ks) then Some false else dict_get acc q).
  { induction ks as [|k ks IH]; intros acc; [done|]. cbn [foldl].
    rewrite IH, dict_get_set.
    destruct (decide (k = q)) as [->|Hne].
    - rewrite (bool_decide_eq_true_2 (q ∈ q :: ks)) by apply list_elem_of_here.
      by case_bool_decide.
    - rewrite (bool_decide_ext (q ∈ k :: ks) (q ∈ ks)); [done|].
      rewrite elem_of_cons. naive_solver. }
  by rewrite Hgen.
Qed.

Lemma collapsed_all_false (rules : preset) (q : string) :
  default false (dict_get (collapsed rules) q) = false.
Proof. rewrite collapsed_get. by case_bool_decide. Qed.

(** [initialize_presets], as one state. *)
Lemma initialize_presets_eq (st : addon) :
  initialize_presets st
  = let loaded := load_presets (presets_file st) in
    let t := if decide (loaded = []) then [("Default", [])] else loaded in
    let current := if dict_in t (the_current_preset st) then the_current_preset st
                   else "Default" in
    {| rule_store := {| presets := t; current_preset := current;
                        preset_dropdown := the_preset_dropdown st |};
       prefix_expand_states := collapsed (default [] (dict_get t current));
       presets_file := presets_file st |}.
Proof.
  unfold initialize_presets. cbn zeta.
  destruct (decide (load_presets (presets_file st) = [])) as [->|Hne];
    by destruct (dict_in _ _).
Qed.

(** Saving a table to a writable file and reading it back: the table is
    the one saved. *)
Lemma initialize_after_save (t : preset_table) (st : addon) :
  file_writable (presets_file st) = true → t ≠ [] →
  initialize_presets (save (put_presets t st))
  = let current := if dict_in t (the_current_preset st) then the_current_preset st
                   else "Default" in
    {| rule_store := {| presets := t; current_preset := current;
                        preset_dropdown := the_preset_dropdown st |};
       prefix_expand_states := collapsed (default [] (dict_get t current));
       presets_file := {| file_content := Some t; file_writable := true |} |}.
Proof.
  intros Hw Ht. rewrite initialize_presets_eq.
  unfold save, put_presets, load_presets, save_presets.
  cbn [presets_file rule_store prefix_expand_states the_presets presets].
  rewrite Hw. cbn [file_content default]. cbn zeta.
  by rewrite decide_False by done.
Qed.

(** Saving to a file that cannot be written and reading it back: the
    table is the one of the file, whatever was to be saved. *)
Lemma initialize_after_failed_save (t : preset_table) (st : addon) :
  file_writable (presets_file st) = false →
  initialize_presets (save (put_presets t st)) = initialize_presets st.
Proof.
  intros Hw. rewrite !initialize_presets_eq.
  unfold save, put_presets, save_presets.
  cbn [presets_file rule_store]. by rewrite Hw.
Qed.

Lemma initialize_presets_table (st : addon) (on_disk : preset_table) :
  file_content (presets_file st) = Some on_disk → on_disk ≠ [] →
  the_presets (initialize_presets st) = on_disk.
Proof.
  intros Hf Hne. rewrite initialize_presets_eq. unfold load_presets. rewrite Hf.
  cbn. by rewrite decide_False.
Qed.

(** An edit of the current preset, saved and read back. *)
Lemma edit_current_preset (st : addon) (t1 t2 : preset_table) (old new : preset) :
  the_presets st = t1 ++ (the_current_preset st, old) :: t2 →
  the_current_preset st ∉ dict_keys t1 →
  file_writable (presets_file st) = true →
  initialize_presets
    (save (put_presets (dict_set (the_presets st) (the_current_preset st) new) st))
  = edited st t1 t2 new.
Proof.
  intros Ht Hcp Hw. rewrite Ht, dict_set_middle by done.
  rewrite initialize_after_save; [|done|by destruct t1].
  cbn zeta. rewrite dict_in_middle, dict_get_middle by done. done.
Qed.

Lemma select_after (name : string) (st : addon) :
  set_current_preset name (put_preset_dropdown name st)
  = selected (the_presets st) name (presets_file st).
Proof. reflexivity. Qed.

(** Adding a rule that is new to its ruleset. *)
Lemma add_rule_execute_new (st : addon) (prefix original_name new_name : string)
    (t1 t2 : preset_table) (p1 p2 : preset) (rule_set : ruleset) :
  the_presets st
  = t1 ++ (the_current_preset st, p1 ++ (prefix, rule_set) :: p2) :: t2 →
  the_current_preset st ∉ dict_keys t1 →
  prefix ∉ dict_keys p1 →
  file_writable (presets_file st) = true →
  original_name ≠ "" → new_name ≠ "" → original_name ∉ dict_keys rule_set →
  add_rule_execute prefix original_name new_name st
  = Some (FINISHED,
          edited st t1 t2
            (p1 ++ (prefix, rule_set ++ [(original_name, new_name)]) :: p2),
          [(INFO, "Rule '" +:+ original_name +:+ "' -> '" +:+ new_name
                    +:+ "' added to prefix '" +:+ prefix +:+ "'.")]).
Proof.
  intros Ht Hcp Hp Hw Ho Hn Hout. unfold add_rule_execute.
  assert (Hget : dict_get (the_presets st) (the_current_preset st)
                 = Some (p1 ++ (prefix, rule_set) :: p2))
    by (rewrite Ht; by apply dict_get_middle).
  rewrite !bool_decide_eq_false_2 by done. cbn [orb].
  rewrite Hget. cbn [mbind option_bind].
  rewrite dict_get_middle by done. cbn [mbind option_bind].
  pose proof Hout as Hout'. apply dict_in_false in Hout'. rewrite Hout'.
  rewrite (dict_set_fresh rule_set), (dict_set_middle p1) by done.
  by rewrite (edit_current_preset st t1 t2 (p1 ++ (prefix, rule_set) :: p2)).
Qed.

(** Removing a rule that its ruleset has. *)
Lemma remove_rule_execute_found (st : addon) (prefix original_name new_name : string)
    (t1 t2 : preset_table) (p1 p2 : preset) (r1 r2 : ruleset) :
  the_presets st
  = t1 ++ (the_current_preset st,
           p1 ++ (prefix, r1 ++ (original_name, new_name) :: r2) :: p2) :: t2 →
  the_current_preset st ∉ dict_keys t1 →
  prefix ∉ dict_keys p1 →
  original_name ∉ dict_keys r1 →
  file_writable (presets_file st) = true →
  remove_rule_execute prefix original_name st
  = Some (FINISHED,
          edited st t1 t2 (p1 ++ (prefix, r1 ++ r2) :: p2),
          [(INFO, "Rule '" +:+ original_name +:+ "' removed from prefix '"
                    +:+ prefix +:+ "'.")]).
Proof.
  intros Ht Hcp Hp Ho Hw. unfold remove_rule_execute.
  assert (Hget : dict_get (the_presets st) (the_current_preset st)
                 = Some (p1 ++ (prefix, r1 ++ (original_name, new_name) :: r2) :: p2))
    by (rewrite Ht; by apply dict_get_middle).
  rewrite Hget. cbn [mbind option_bind].
  rewrite dict_get_middle by done.
  rewrite dict_in_middle, dict_del_middle, (dict_set_middle p1) by done.
  by rewrite (edit_current_preset st t1 t2
                (p1 ++ (prefix, r1 ++ (original_name, new_name) :: r2) :: p2)).
Qed.

(** [OBJECT_OT_rename_prefix.execute]: a ruleset whose prefix is renamed
    keeps its rules and becomes the last ruleset of the preset, wherever it
    stood; the other rulesets keep their order. A new prefix that the
    preset has already, the old prefix itself included, cancels with an
    error, and an old prefix that the preset has not with a warning: the
    state is then as it was. The preset file is writable here. *)
Theorem rename_prefix_moves_last (st : addon) (prefix new_prefix : string)
    (t1 t2 : preset_table) (p : preset) :
  the_presets st = t1 ++ (the_current_preset st, p) :: t2 →
  the_current_preset st ∉ dict_keys t1 →
  file_writable (presets_file st) = true →
  (new_prefix ∈ dict_keys p →
   rename_prefix_execute prefix new_prefix st
   = Some (CANCELLED, st,
           [(ERROR, "Prefix '" +:+ new_prefix +:+ "' already exists.")]))
  ∧ (new_prefix ∉ dict_keys p → prefix ∉ dict_keys p →
     rename_prefix_execute prefix new_prefix st
     = Some (CANCELLED, st, [(WARNING, "Prefix '" +:+ prefix +:+ "' not found.")]))
  ∧ (∀ (p1 p2 : preset) (rules : ruleset),
       new_prefix ∉ dict_keys p →
       p = p1 ++ (prefix, rules) :: p2 → prefix ∉ dict_keys p1 →
       rename_prefix_execute prefix new_prefix st
       = Some (FINISHED, edited st t1 t2 (p1 ++ p2 ++ [(new_prefix, rules)]),
               [(INFO, "Prefix '" +:+ prefix +:+ "' renamed to '" +:+ new_prefix
                         +:+ "'.")])).
Proof.
  intros Ht Hcp Hw. unfold rename_prefix_execute.
  assert (Hget : dict_get (the_presets st) (the_current_preset st) = Some p)
    by (rewrite Ht; by apply dict_get_middle).
  rewrite Hget. cbn [mbind option_bind].
  split; [|split].
  - intros Hnew%dict_in_keys. by rewrite Hnew.
  - intros Hnew%dict_in_false Hp%dict_get_None. by rewrite Hnew, Hp.
  - intros p1 p2 rules Hnew -> Hp.
    pose proof Hnew as Hnew'. apply dict_in_false in Hnew'. rewrite Hnew'.
    rewrite dict_get_middle, dict_del_middle by done.
    rewrite (dict_set_fresh (p1 ++ p2)).
    + rewrite (edit_current_preset st t1 t2 (p1 ++ (prefix, rules) :: p2)) by done.
      by rewrite <- app_assoc.
    + intros Hin. apply Hnew, dict_keys_middle. by right.
Qed.

(** Renaming the prefix "Char_" of the first of two rulesets to "Hero_":
    the ruleset is the second one afterwards. *)
Lemma rename_prefix_moves_last_example :
  let st := addon_with [("Default", [("Char_", [("a", "x")]); ("", [])])] in
  rename_prefix_execute "Char_" "Hero_" st
  = Some (FINISHED,
          edited st [] [] [("", []); ("Hero_", [("a", "x")])],
          [(INFO, "Prefix 'Char_' renamed to 'Hero_'.")]).
Proof.
  intros st.
  refine (proj2 (proj2 (rename_prefix_moves_last st "Char_" "Hero_" [] []
                          [("Char_", [("a", "x")]); ("", [])] eq_refl _ eq_refl))
            [] [("", [])] [("a", "x")] _ eq_refl _); compute_done.
Defined.

(** [OBJECT_OT_add_rule.execute]: an empty old or new name, or an old name
    that the ruleset has already, cancels with an error and changes
    nothing; otherwise the rule becomes the last rule of its ruleset, and
    the rulesets and presets keep their places. The preset file is
    writable here. *)
Theorem add_rule_appends (st : addon) (prefix original_name new_name : string)
    (t1 t2 : preset_table) (p1 p2 : preset) (rule_set : ruleset) :
  the_presets st
  = t1 ++ (the_current_preset st, p1 ++ (prefix, rule_set) :: p2) :: t2 →
  the_current_preset st ∉ dict_keys t1 →
  prefix ∉ dict_keys p1 →
  file_writable (presets_file st) = true →
  (original_name = "" ∨ new_name = "" →
   add_rule_execute prefix original_name new_name st
   = Some (CANCELLED, st, [(ERROR, "Both Old and New names must be provided.")]))
  ∧ (original_name ≠ "" → new_name ≠ "" → original_name ∈ dict_keys rule_set →
     add_rule_execute prefix original_name new_name st
     = Some (CANCELLED, st,
             [(ERROR, "Rule '" +:+ original_name +:+ "' already exists in prefix '"
                        +:+ prefix +:+ "'.")]))
  ∧ (original_name ≠ "" → new_name ≠ "" → original_name ∉ dict_keys rule_set →
     add_rule_execute prefix original_name new_name st
     = Some (FINISHED,
             edited st t1 t2
               (p1 ++ (prefix, rule_set ++ [(original_name, new_name)]) :: p2),
             [(INFO, "Rule '" +:+ original_name +:+ "' -> '" +:+ new_name
                       +:+ "' added to prefix '" +:+ prefix +:+ "'.")])).
Proof.
  intros Ht Hcp Hp Hw.
  split; [|split].
  - unfold add_rule_execute. intros [-> | ->]; [done|].
    by rewrite (bool_decide_eq_true_2 ("" = "")), orb_true_r by done.
  - unfold add_rule_execute. intros Ho Hn Hin%dict_in_keys.
    rewrite !bool_decide_eq_false_2 by done. cbn [orb].
    rewrite Ht, dict_get_middle by done. cbn [mbind option_bind].
    rewrite dict_get_middle by done. cbn [mbind option_bind]. by rewrite Hin.
  - intros Ho Hn Hout. by apply add_rule_execute_new.
Qed.

(** Adding the rule b -> y to a ruleset that has a -> x. *)
Lemma add_rule_appends_example :
  let st := addon_with [("Default", [("", [("a", "x")])])] in
  add_rule_execute "" "b" "y" st
  = Some (FINISHED, edited st [] [] [("", [("a", "x"); ("b", "y")])],
          [(INFO, "Rule 'b' -> 'y' added to prefix ''.")]).
Proof.
  intros st.
  refine (proj2 (proj2 (add_rule_appends st "" "b" "y" [] [] [] [] [("a", "x")]
                          eq_refl _ _ eq_refl)) _ _ _); compute_done.
Defined.

(** [OBJECT_OT_remove_rule.execute] and [OBJECT_OT_remove_prefix.execute]:
    what is there is taken out and the rest keeps its order; what is not
    there gives a warning, and the operator finishes with the state as it
    was. The preset file is writable here. *)
Theorem remove_rule_and_prefix (st : addon) (prefix original_name : string)
    (t1 t2 : preset_table) (p : preset) :
  the_presets st = t1 ++ (the_current_preset st, p) :: t2 →
  the_current_preset st ∉ dict_keys t1 →
  file_writable (presets_file st) = true →
  (prefix ∉ dict_keys p →
   remove_prefix_execute prefix st
   = Some (FINISHED, st, [(WARNING, "Prefix '" +:+ prefix +:+ "' not found.")])
   ∧ remove_rule_execute prefix original_name st
     = Some (FINISHED, st, [(WARNING, "Prefix '" +:+ prefix +:+ "' not found.")]))
  ∧ (∀ (p1 p2 : preset) (rule_set : ruleset),
       p = p1 ++ (prefix, rule_set) :: p2 → prefix ∉ dict_keys p1 →
       remove_prefix_execute prefix st
       = Some (FINISHED, edited st t1 t2 (p1 ++ p2),
               [(INFO, "Prefix '" +:+ prefix +:+ "' removed.")])
       ∧ (original_name ∉ dict_keys rule_set →
          remove_rule_execute prefix original_name st
          = Some (FINISHED, st,
                  [(WARNING, "Rule '" +:+ original_name +:+ "' not found in prefix '"
                               +:+ prefix +:+ "'.")]))
       ∧ ∀ (r1 r2 : ruleset) (new_name : string),
           rule_set = r1 ++ (original_name, new_name) :: r2 →
           original_name ∉ dict_keys r1 →
           remove_rule_execute prefix original_name st
           = Some (FINISHED,
                   edited st t1 t2 (p1 ++ (prefix, r1 ++ r2) :: p2),
                   [(INFO, "Rule '" +:+ original_name +:+ "' removed from prefix '"
                             +:+ prefix +:+ "'.")])).
Proof.
  intros Ht Hcp Hw.
  assert (Hget : dict_get (the_presets st) (the_current_preset st) = Some p)
    by (rewrite Ht; by apply dict_get_middle).
  split.
  - unfold remove_prefix_execute, remove_rule_execute.
    rewrite Hget. cbn [mbind option_bind].
    intros Hp. pose proof Hp as Hp'. apply dict_in_false in Hp'.
    apply dict_get_None in Hp. by rewrite Hp, Hp'.
  - intros p1 p2 rule_set -> Hp. split; [|split].
    + unfold remove_prefix_execute. rewrite Hget. cbn [mbind option_bind].
      rewrite dict_in_middle, dict_del_middle by done.
      by rewrite (edit_current_preset st t1 t2 (p1 ++ (prefix, rule_set) :: p2)).
    + unfold remove_rule_execute. rewrite Hget. cbn [mbind option_bind].
      rewrite dict_get_middle by done.
      intros Ho%dict_in_false. by rewrite Ho.
    + intros r1 r2 new_name -> Ho. by eapply remove_rule_execute_found.
Qed.

(** Removing the rule a -> x from between two others, and removing a
    ruleset. *)
Lemma remove_rule_and_prefix_example :
  let st := addon_with [("Default", [("Char_", [("z", "w"); ("a", "x"); ("b", "y")]);
                                     ("", [])])] in
  remove_rule_execute "Char_" "a" st
  = Some (FINISHED,
          edited st [] [] [("Char_", [("z", "w"); ("b", "y")]); ("", [])],
          [(INFO, "Rule 'a' removed from prefix 'Char_'.")])
  ∧ remove_prefix_execute "Char_" st
    = Some (FINISHED, edited st [] [] [("", [])], [(INFO, "Prefix 'Char_' removed.")]).
Proof.
  intros st.
  destruct (proj2 (remove_rule_and_prefix st "Char_" "a" [] []
                     [("Char_", [("z", "w"); ("a", "x"); ("b", "y")]); ("", [])]
                     eq_refl ltac:(compute_done) eq_refl)
              [] [("", [])] [("z", "w"); ("a", "x"); ("b", "y")]
              eq_refl ltac:(compute_done)) as (Hprefix & _ & Hrule).
  split; [|exact Hprefix].
  exact (Hrule [("z", "w")] [("b", "y")] "x" eq_refl ltac:(compute_done)).
Defined.

(** Adding a rule and removing it again: the table of presets is as it
    was. *)
Theorem add_then_remove_rule (st : addon) (prefix original_name new_name : string)
    (t1 t2 : preset_table) (p1 p2 : preset) (rule_set : ruleset) :
  the_presets st
  = t1 ++ (the_current_preset st, p1 ++ (prefix, rule_set) :: p2) :: t2 →
  the_current_preset st ∉ dict_keys t1 →
  prefix ∉ dict_keys p1 →
  file_writable (presets_file st) = true →
  original_name ≠ "" → new_name ≠ "" → original_name ∉ dict_keys rule_set →
  ∃ st1 st2 reports1 reports2,
    add_rule_execute prefix original_name new_name st = Some (FINISHED, st1, reports1)
    ∧ dict_get rule_set original_name = None
    ∧ remove_rule_execute prefix original_name st1 = Some (FINISHED, st2, reports2)
    ∧ the_presets st2 = the_presets st
    ∧ the_current_preset st2 = the_current_preset st.
Proof.
  intros Ht Hcp Hp Hw Ho Hn Hout.
  eexists _, _, _, _. split; [by eapply add_rule_execute_new|].
  split; [by apply dict_get_None|].
  split.
  - eapply (remove_rule_execute_found _ prefix original_name new_name t1 t2 p1 p2
              rule_set []); done.
  - rewrite app_nil_r. by rewrite Ht.
Qed.

(** Adding b -> y and removing it again. *)
Lemma add_then_remove_rule_example :
  let st := addon_with [("Default", [("", [("a", "x")])])] in
  ∃ st1 st2 reports1 reports2,
    add_rule_execute "" "b" "y" st = Some (FINISHED, st1, reports1)
    ∧ dict_get [("a", "x")] "b" = None
    ∧ remove_rule_execute "" "b" st1 = Some (FINISHED, st2, reports2)
    ∧ the_presets st2 = the_presets st
    ∧ the_current_preset st2 = the_current_preset st.
Proof.
  intros st.
  refine (add_then_remove_rule st "" "b" "y" [] [] [] [] [("a", "x")]
            eq_refl _ _ eq_refl _ _ _); compute_done.
Defined.

(** *** Whitespace *)

Lemma lstrip_head (c : ascii) (s rest : string) :
  lstrip s = String c rest → is_space c = false.
Proof.
  induction s as [|d s IH]; simpl; [done|].
  destruct (is_space d) eqn:E; [done|]. by intros [= <- _].
Qed.

Lemma lstrip_fixed (s : string) :
  lstrip s = s ↔ s = "" ∨ ∃ c rest, s = String c rest ∧ is_space c = false.
Proof.
  split.
  - destruct s as [|c s]; [by left|]. intros Hs. right. exists c, s. split; [done|].
    by apply (lstrip_head c (String c s) s).
  - intros [->|(c & rest & -> & Hc)]; [done|]. simpl. by rewrite Hc.
Qed.

Lemma rstrip_cons (c : ascii) (s : string) :
  rstrip (String c s)
  = match rstrip s with
    | EmptyString => if is_space c then EmptyString else String c EmptyString
    | rest => String c rest
    end.
Proof. reflexivity. Qed.

Lemma rstrip_rstrip (s : string) : rstrip (rstrip s) = rstrip s.
Proof.
  induction s as [|c s IH]; [done|]. rewrite rstrip_cons.
  destruct (rstrip s) as [|d r] eqn:E.
  - destruct (is_space c) eqn:Ec; [done|]. rewrite rstrip_cons. simpl. by rewrite Ec.
  - rewrite rstrip_cons, IH. done.
Qed.

Lemma rstrip_keeps_head (c : ascii) (s : string) :
  is_space c = false → ∃ rest, rstrip (String c s) = String c rest.
Proof.
  intros Hc. rewrite rstrip_cons. destruct (rstrip s); [rewrite Hc|]; eauto.
Qed.

Lemma lstrip_strip (s : string) : lstrip (strip s) = strip s.
Proof.
  unfold strip. apply lstrip_fixed.
  destruct (lstrip s) as [|c r] eqn:E; [by left|]. right.
  pose proof (lstrip_head c s r E) as Hc.
  destruct (rstrip_keeps_head c r Hc) as [rest ->]. eauto.
Qed.

Lemma strip_spaces (s : string) :
  Forall (fun c => is_space c = true) (String.list_ascii_of_string s) → strip s = "".
Proof.
  unfold strip. induction s as [|c s IH]; simpl; [done|].
  intros [Hc Hs]%Forall_cons. rewrite Hc. auto.
Qed.

(** *** Rulesets and presets *)

(** [OBJECT_OT_add_prefix.execute]: the prefix is stored without the
    whitespace at its two ends, so that one of whitespace only gives the
    ruleset without prefix; the new ruleset is empty and the last of the
    preset. When the stripped prefix is there already the operator cancels
    with an error and changes nothing. The preset file is writable
    here. *)
Theorem add_prefix_strips (st : addon) (new_prefix : string)
    (t1 t2 : preset_table) (p : preset) :
  the_presets st = t1 ++ (the_current_preset st, p) :: t2 →
  the_current_preset st ∉ dict_keys t1 →
  file_writable (presets_file st) = true →
  let trimmed_prefix := strip new_prefix in
  (trimmed_prefix ∈ dict_keys p →
   add_prefix_execute new_prefix st
   = Some (CANCELLED, st,
           [(ERROR, "Prefix '" +:+ trimmed_prefix +:+ "' already exists.")]))
  ∧ (trimmed_prefix ∉ dict_keys p →
     add_prefix_execute new_prefix st
     = Some (FINISHED, edited st t1 t2 (p ++ [(trimmed_prefix, [])]),
             [(INFO, "Prefix '" +:+ trimmed_prefix +:+ "' added.")]))
  ∧ lstrip trimmed_prefix = trimmed_prefix
  ∧ rstrip trimmed_prefix = trimmed_prefix
  ∧ (Forall (fun c => is_space c = true) (String.list_ascii_of_string new_prefix) →
     trimmed_prefix = "").
Proof.
  intros Ht Hcp Hw trimmed_prefix. unfold add_prefix_execute. fold trimmed_prefix.
  assert (Hget : dict_get (the_presets st) (the_current_preset st) = Some p)
    by (rewrite Ht; by apply dict_get_middle).
  rewrite Hget. cbn [mbind option_bind].
  split; [|split; [|split; [|split]]].
  - intros Hin%dict_in_keys. by rewrite Hin.
  - intros Hout. pose proof Hout as Hout'. apply dict_in_false in Hout'. rewrite Hout'.
    rewrite (dict_set_fresh p) by done.
    by rewrite (edit_current_preset st t1 t2 p).
  - apply lstrip_strip.
  - apply rstrip_rstrip.
  - apply strip_spaces.
Qed.

(** Adding the prefix " Char_ " to a preset with one ruleset without
    prefix: the prefix "Char_" is added after it. *)
Lemma add_prefix_strips_example :
  let st := addon_with [("Default", [("", [("a", "x")])])] in
  add_prefix_execute " Char_ " st
  = Some (FINISHED, edited st [] [] [("", [("a", "x")]); ("Char_", [])],
          [(INFO, "Prefix 'Char_' added.")]).
Proof.
  intros st.
  refine (proj1 (proj2 (add_prefix_strips st " Char_ " [] [] [("", [("a", "x")])]
                          eq_refl _ eq_refl)) _); compute_done.
Defined.

(** [OBJECT_OT_create_preset.execute]: an empty name and a name that is
    taken both give the warning that the name exists, with the state as it
    was, and the operator finishes all the same; any other name, which is
    not stripped, gives a new empty preset, the last of the table, which
    is selected and has no ruleset to show. *)
Theorem create_preset_appends (st : addon) (new_preset_name : string) :
  (new_preset_name = "" ∨ new_preset_name ∈ dict_keys (the_presets st) →
   create_preset_execute new_preset_name st
   = (FINISHED, st, [(WARNING, "Preset name already exists")]))
  ∧ (new_preset_name ≠ "" → new_preset_name ∉ dict_keys (the_presets st) →
     let t := the_presets st ++ [(new_preset_name, [])] in
     create_preset_execute new_preset_name st
     = (FINISHED, selected t new_preset_name (save_presets t (presets_file st)), [])
     ∧ ∀ f, prefix_expand_states (selected t new_preset_name f) = []).
Proof.
  unfold create_preset_execute. split.
  - intros [->|Hin%dict_in_keys]; [done|]. by rewrite Hin, andb_false_r.
  - cbn zeta. intros Hne Hout. set (t := the_presets st ++ [(new_preset_name, [])]).
    pose proof Hout as Hout'. apply dict_in_false in Hout'.
    rewrite Hout', bool_decide_eq_true_2 by done. cbn [andb negb].
    rewrite dict_set_fresh by done. fold t. split.
    + rewrite select_after. reflexivity.
    + intros f. unfold selected, t. cbn [prefix_expand_states].
      rewrite dict_get_app_r by done. simpl. by rewrite decide_True.
Qed.

(** [OBJECT_OT_duplicate_preset.execute]: the stripped name must be
    non-empty and new, or the operator cancels with an error and changes
    nothing; then the copy holds what the current preset holds, is the
    last preset of the table and is selected, and the current preset is
    still there. The preset file is writable here. *)
Theorem duplicate_preset_copies (st : addon) (new_preset_name : string)
    (t1 t2 : preset_table) (p : preset) :
  the_presets st = t1 ++ (the_current_preset st, p) :: t2 →
  the_current_preset st ∉ dict_keys t1 →
  file_writable (presets_file st) = true →
  let name := strip new_preset_name in
  (name = "" →
   duplicate_preset_execute new_preset_name st
   = Some (CANCELLED, st, [(ERROR, "Preset name cannot be empty.")]))
  ∧ (name ≠ "" → name ∈ dict_keys (the_presets st) →
     duplicate_preset_execute new_preset_name st
     = Some (CANCELLED, st, [(ERROR, "Preset '" +:+ name +:+ "' already exists.")]))
  ∧ (name ≠ "" → name ∉ dict_keys (the_presets st) →
     let t := the_presets st ++ [(name, p)] in
     duplicate_preset_execute new_preset_name st
     = Some (FINISHED,
             selected t name {| file_content := Some t; file_writable := true |},
             [(INFO, "Preset '" +:+ the_current_preset st +:+ "' duplicated as '"
                       +:+ name +:+ "' and selected.")])
     ∧ dict_get t (the_current_preset st) = Some p
     ∧ dict_get t name = Some p).
Proof.
  intros Ht Hcp Hw name. unfold duplicate_preset_execute. fold name.
  assert (Hget : dict_get (the_presets st) (the_current_preset st) = Some p)
    by (rewrite Ht; by apply dict_get_middle).
  split; [|split].
  - intros ->. done.
  - intros Hne Hin%dict_in_keys. rewrite decide_False by done. by rewrite Hin.
  - cbn zeta. intros Hne Hout. set (t := the_presets st ++ [(name, p)]).
    pose proof Hout as Hout'. apply dict_in_false in Hout'.
    rewrite decide_False by done. rewrite Hout', Hget. cbn [mbind option_bind].
    rewrite dict_set_fresh by done. fold t.
    rewrite initialize_after_save; [|done|unfold t; by destruct (the_presets st)].
    split; [|split].
    + rewrite select_after. reflexivity.
    + unfold t. rewrite dict_get_app_l; [done|].
      apply dict_in_keys. unfold dict_in. by rewrite Hget, bool_decide_eq_true_2.
    + unfold t. rewrite dict_get_app_r by done. simpl. by rewrite decide_True.
Qed.

(** Duplicating the preset Default as "Mine". *)
Lemma duplicate_preset_copies_example :
  let st := addon_with [("Default", [("", [("a", "x")])])] in
  let t := [("Default", [("", [("a", "x")])]); ("Mine", [("", [("a", "x")])])] in
  duplicate_preset_execute " Mine" st
  = Some (FINISHED,
          selected t "Mine" {| file_content := Some t; file_writable := true |},
          [(INFO, "Preset 'Default' duplicated as 'Mine' and selected.")]).
Proof.
  intros st t.
  refine (proj1 (proj2 (proj2 (duplicate_preset_copies st " Mine" [] []
                                 [("", [("a", "x")])] eq_refl _ eq_refl)) _ _));
    compute_done.
Defined.

(** [OBJECT_OT_rename_preset.execute]: the stripped name must be non-empty
    and new (the preset's own name is not), or the operator cancels with an
    error and changes nothing; then the preset keeps what it holds, takes
    the new name, becomes the last preset of the table and is selected.
    Nothing makes an exception of the preset "Default". The preset file is
    writable here. *)
Theorem rename_preset_moves_last (st : addon) (new_preset_name : string)
    (t1 t2 : preset_table) (p : preset) :
  the_presets st = t1 ++ (the_current_preset st, p) :: t2 →
  the_current_preset st ∉ dict_keys t1 →
  file_writable (presets_file st) = true →
  let name := strip new_preset_name in
  (name = "" →
   rename_preset_execute new_preset_name st
   = Some (CANCELLED, st, [(ERROR, "Preset name cannot be empty.")]))
  ∧ (name ≠ "" → name ∈ dict_keys (the_presets st) →
     rename_preset_execute new_preset_name st
     = Some (CANCELLED, st, [(ERROR, "Preset '" +:+ name +:+ "' already exists.")]))
  ∧ (name ≠ "" → name ∉ dict_keys (the_presets st) →
     let t := t1 ++ t2 ++ [(name, p)] in
     rename_preset_execute new_preset_name st
     = Some (FINISHED,
             selected t name {| file_content := Some t; file_writable := true |},
             [(INFO, "Preset '" +:+ the_current_preset st +:+ "' renamed to '"
                       +:+ name +:+ "' and selected.")])
     ∧ dict_get t name = Some p).
Proof.
  intros Ht Hcp Hw name. unfold rename_preset_execute. fold name.
  assert (Hget : dict_get (the_presets st) (the_current_preset st) = Some p)
    by (rewrite Ht; by apply dict_get_middle).
  split; [|split].
  - intros ->. done.
  - intros Hne Hin%dict_in_keys. rewrite decide_False by done. by rewrite Hin.
  - cbn zeta. intros Hne Hout. set (t := t1 ++ t2 ++ [(name, p)]).
    pose proof Hout as Hout'. apply dict_in_false in Hout'.
    rewrite decide_False by done. rewrite Hout', Hget. cbn [mbind option_bind].
    assert (Hfresh : name ∉ dict_keys (t1 ++ t2)).
    { intros Hin. apply Hout. rewrite Ht. apply dict_keys_middle. by right. }
    rewrite Ht at 1. rewrite dict_del_middle by done.
    rewrite dict_set_fresh by done. rewrite <- app_assoc. fold t.
    rewrite initialize_after_save; [|done|unfold t; by destruct t1, t2].
    split.
    + rewrite select_after. reflexivity.
    + unfold t. rewrite app_assoc, dict_get_app_r by done. simpl. by rewrite decide_True.
Qed.

(** Renaming the preset Default, the first of two, to "Mine": no preset
    is named Default afterwards. *)
Lemma rename_preset_moves_last_example :
  let st := addon_with [("Default", [("", [("a", "x")])]); ("Other", [])] in
  let t := [("Other", []); ("Mine", [("", [("a", "x")])])] in
  rename_preset_execute "Mine" st
  = Some (FINISHED,
          selected t "Mine" {| file_content := Some t; file_writable := true |},
          [(INFO, "Preset 'Default' renamed to 'Mine' and selected.")]).
Proof.
  intros st t.
  refine (proj1 (proj2 (proj2 (rename_preset_moves_last st "Mine" [] [("Other", [])]
                                 [("", [("a", "x")])] eq_refl _ eq_refl)) _ _));
    compute_done.
Defined.

(** [OBJECT_OT_import_preset.execute]: a preset of the document replaces
    the preset of its name where that one stands, the presets with new
    names follow the table in the order of the document, and the other
    presets stay; the last preset of the document is selected, whether its
    name was new or not. An empty document leaves the table as it is, and
    a file that cannot be read cancels with an error and changes nothing.
    The preset file is writable here. *)
Theorem import_preset_updates (st : addon) (filepath : string)
    (imported_presets : preset_table) :
  NoDup (dict_keys imported_presets) →
  file_writable (presets_file st) = true →
  the_presets st ≠ [] →
  let t := dict_update (the_presets st) imported_presets in
  dict_keys t
  = dict_keys (the_presets st)
    ++ filter (fun k => k ∉ dict_keys (the_presets st)) (dict_keys imported_presets)
  ∧ (∀ name, dict_get t name
             = match dict_get imported_presets name with
               | Some p => Some p
               | None => dict_get (the_presets st) name
               end)
  ∧ (∀ last_preset, last (dict_keys imported_presets) = Some last_preset →
       import_preset_execute filepath (Json imported_presets) st
       = (FINISHED,
          selected t last_preset {| file_content := Some t; file_writable := true |},
          [(INFO, "Presets imported from '" +:+ filepath +:+ "' and '"
                    +:+ last_preset +:+ "' selected.")]))
  ∧ (imported_presets = [] →
     ∃ st', import_preset_execute filepath (Json imported_presets) st
            = (FINISHED, st',
               [(INFO, "No new presets were imported from '" +:+ filepath +:+ "'.")])
            ∧ the_presets st' = the_presets st
            ∧ the_preset_dropdown st' = the_preset_dropdown st)
  ∧ (∀ e, import_preset_execute filepath (Unreadable e) st
          = (CANCELLED, st, [(ERROR, "Failed to import presets: " +:+ e)])).
Proof.
  intros Hnd Hw Hne t.
  split; [by apply dict_update_keys|].
  split; [intros name; by apply dict_update_get|].
  split; [|split; [|done]].
  - intros last_preset Hlast. unfold import_preset_execute. rewrite Hlast. fold t.
    rewrite initialize_after_save; [|done|by apply dict_update_nonempty].
    by rewrite select_after.
  - intros ->. unfold import_preset_execute. cbn [dict_keys fmap list_fmap last].
    eexists. split; [reflexivity|].
    change (dict_update (the_presets st) []) with (the_presets st).
    by rewrite initialize_after_save.
Qed.

(** Importing a document with the presets Default and New into a table
    with Default and Mine: Default is replaced in its place, New follows
    Mine and is selected. *)
Lemma import_preset_updates_example :
  let st := addon_with [("Default", [("", [("a", "x")])]); ("Mine", [])] in
  let t := [("Default", [("Char_", [])]); ("Mine", []); ("New", [])] in
  import_preset_execute "f.json" (Json [("Default", [("Char_", [])]); ("New", [])]) st
  = (FINISHED,
     selected t "New" {| file_content := Some t; file_writable := true |},
     [(INFO, "Presets imported from 'f.json' and 'New' selected.")]).
Proof.
  intros st t.
  refine (proj1 (proj2 (proj2 (import_preset_updates st "f.json"
                                 [("Default", [("Char_", [])]); ("New", [])]
                                 _ eq_refl _))) "New" eq_refl);
    [compute_done | done].
Defined.

(** When the preset file cannot be written, [save_presets] prints the
    failure and [initialize_presets] then reads the old file: whenever one
    of the operators that save and read back reports success, the table in
    memory is the one of the file, not the edited one. *)
Theorem failed_save_loses_edit (st : addon) (on_disk : preset_table)
    (prefix new_prefix original_name new_name new_preset_name filepath : string)
    (imported_presets : preset_table) :
  file_writable (presets_file st) = false →
  file_content (presets_file st) = Some on_disk → on_disk ≠ [] →
  ∀ (result : op_result) (st' : addon) (message : string),
    Some (result, st', [(INFO, message)])
    ∈ [remove_prefix_execute prefix st;
       rename_prefix_execute prefix new_prefix st;
       remove_rule_execute prefix original_name st;
       add_rule_execute prefix original_name new_name st;
       add_prefix_execute new_prefix st;
       duplicate_preset_execute new_preset_name st;
       rename_preset_execute new_preset_name st;
       Some (import_preset_execute filepath (Json imported_presets) st)] →
    the_presets st' = on_disk ∧ presets_file st' = presets_file st.
Proof.
  intros Hw Hf Hne result st' message Hin.
  assert (Hinit : ∀ t, the_presets (initialize_presets (save (put_presets t st))) = on_disk
                       ∧ presets_file (initialize_presets (save (put_presets t st)))
                         = presets_file st).
  { intros t. rewrite initialize_after_failed_save by done.
    split; [by apply initialize_presets_table|].
    by rewrite initialize_presets_eq. }
  assert (Hsel : ∀ t name,
            the_presets (set_current_preset name
                           (put_preset_dropdown name
                              (initialize_presets (save (put_presets t st))))) = on_disk
            ∧ presets_file (set_current_preset name
                              (put_preset_dropdown name
                                 (initialize_presets (save (put_presets t st)))))
              = presets_file st).
  { intros t name. rewrite select_after. cbn. apply Hinit. }
  unfold remove_prefix_execute, rename_prefix_execute, remove_rule_execute,
    add_rule_execute, add_prefix_execute, duplicate_preset_execute,
    rename_preset_execute, import_preset_execute in Hin.
  repeat (apply elem_of_cons in Hin as [Hin|Hin]);
    [..|by apply elem_of_nil in Hin];
    repeat (match type of Hin with
            | context [mbind _ ?o] => destruct o; cbn [mbind option_bind] in Hin
            | context [match ?o with _ => _ end] => destruct o
            | context [if ?b then _ else _] => destruct b
            end; try discriminate Hin);
    injection Hin as -> -> ->; first [apply Hinit | apply Hsel].
Qed.

(** Adding a rule while the file is read-only: the operator reports that
    the rule was added, and the ruleset is as it was. *)
Lemma failed_save_loses_edit_example :
  let t := [("Default", [("", [("a", "x")])])] in
  let st := addon_read_only t in
  ∃ st',
    add_rule_execute "" "b" "y" st
    = Some (FINISHED, st', [(INFO, "Rule 'b' -> 'y' added to prefix ''.")])
    ∧ the_presets st' = t
    ∧ presets_file st' = presets_file st.
Proof.
  intros t st.
  destruct (add_rule_execute "" "b" "y" st) as [[[result st'] reports]|] eqn:Hadd;
    [|by vm_compute in Hadd].
  assert (Hres : result = FINISHED
                 ∧ reports = [(INFO, "Rule 'b' -> 'y' added to prefix ''.")])
    by (vm_compute in Hadd; by simplify_eq).
  destruct Hres as [-> ->].
  exists st'. split; [done|].
  refine (failed_save_loses_edit st t "" "" "b" "y" "" "" []
            eq_refl eq_refl _ FINISHED st' _ _); [done|].
  rewrite Hadd. do 3 apply list_elem_of_further. apply list_elem_of_here.
Defined.

(** The operators that read [presets[current_preset]] without a test do
    not return when the current preset is no preset of the table: the
    lookup raises. [initialize_presets] leaves such a state when the file
    holds neither the current preset nor one named "Default". *)
Theorem missing_current_preset_raises (st : addon)
    (prefix new_prefix original_name new_name new_preset_name : string) :
  the_current_preset st ∉ dict_keys (the_presets st) →
  remove_prefix_execute prefix st = None
  ∧ rename_prefix_execute prefix new_prefix st = None
  ∧ remove_rule_execute prefix original_name st = None
  ∧ add_prefix_execute new_prefix st = None
  ∧ (original_name ≠ "" → new_name ≠ "" →
     add_rule_execute prefix original_name new_name st = None)
  ∧ (strip new_preset_name ≠ "" →
     strip new_preset_name ∉ dict_keys (the_presets st) →
     duplicate_preset_execute new_preset_name st = None
     ∧ rename_preset_execute new_preset_name st = None).
Proof.
  intros Hcp%dict_get_None.
  unfold remove_prefix_execute, rename_prefix_execute, remove_rule_execute,
    add_rule_execute, add_prefix_execute, duplicate_preset_execute,
    rename_preset_execute.
  rewrite !Hcp. repeat split; try done.
  - intros Ho Hn. by rewrite !bool_decide_eq_false_2.
  - rewrite decide_False by done.
    by match goal with H : _ ∉ dict_keys _ |- _ =>
         apply dict_in_false in H; rewrite H end.
  - rewrite decide_False by done.
    by match goal with H : _ ∉ dict_keys _ |- _ =>
         apply dict_in_false in H; rewrite H end.
Qed.

(** A file whose one preset is "Mine", read in a scene whose current
    preset is "Default": the current preset stays "Default", which is no
    preset, and adding a ruleset raises. *)
Lemma missing_current_preset_raises_example :
  let st := initialize_presets (addon_with [("Mine", [])]) in
  the_current_preset st = "Default"
  ∧ the_presets st = [("Mine", [])]
  ∧ add_prefix_execute "Char_" st = None.
Proof.
  intros st. split; [done|]. split; [done|].
  refine (proj1 (proj2 (proj2 (proj2
            (missing_current_preset_raises st "" "Char_" "" "" "" _))))).
  compute_done.
Defined.

(** What the panel shows expanded: [OBJECT_OT_toggle_expand_prefix]
    changes the state of its prefix and of no other; after
    [set_current_preset] and after [initialize_presets], which end every
    operator that edits or selects, no ruleset is expanded. *)
Theorem edits_collapse_rulesets (st : addon) (prefix q name : string) :
  is_expanded (toggle_expand_prefix_execute prefix st).2 q
  = (if decide (q = prefix) then negb (is_expanded st prefix) else is_expanded st q)
  ∧ is_expanded (set_current_preset name st) q = false
  ∧ is_expanded (initialize_presets st) q = false
  ∧ (∀ t1 t2 rules, is_expanded (edited st t1 t2 rules) q = false)
  ∧ (∀ t f, is_expanded (selected t name f) q = false).
Proof.
  unfold is_expanded. repeat split.
  - cbn. rewrite dict_get_set. repeat case_decide; by subst.
  - apply collapsed_all_false.
  - rewrite initialize_presets_eq. apply collapsed_all_false.
  - intros t1 t2 rules. apply collapsed_all_false.
  - intros t f. apply collapsed_all_false.
Qed.

(** *** Row properties *)

Lemma string_app_cons (c : ascii) (s1 s2 : string) :
  String c s1 +:+ s2 = String c (s1 +:+ s2).
Proof. reflexivity. Qed.

Lemma string_app_assoc (s1 s2 s3 : string) : (s1 +:+ s2) +:+ s3 = s1 +:+ s2 +:+ s3.
Proof.
  induction s1 as [|c s1 IH]; [done|]. rewrite !string_app_cons. by f_equal.
Qed.

Lemma replace_char_app (old new : ascii) (s1 s2 : string) :
  replace_char old new (s1 +:+ s2) = replace_char old new s1 +:+ replace_char old new s2.
Proof.
  induction s1 as [|c s1 IH]; [done|]. rewrite !string_app_cons. simpl.
  by rewrite IH, ?string_app_cons.
Qed.

Lemma sanitize_property_name_app (s1 s2 : string) :
  sanitize_property_name (s1 +:+ s2)
  = sanitize_property_name s1 +:+ sanitize_property_name s2.
Proof. unfold sanitize_property_name. by rewrite !replace_char_app. Qed.

Lemma sanitize_replaced (old : ascii) (s : string) :
  old ∈ ["."; " "; "-"]%char →
  sanitize_property_name (replace_char old "_" s) = sanitize_property_name s.
Proof.
  intros Hold. unfold sanitize_property_name.
  induction s as [|c s IH]; simpl; [done|]. rewrite IH. f_equal.
  repeat (apply elem_of_cons in Hold as [->|Hold]);
    [..|by apply elem_of_nil in Hold];
    repeat (case_decide; subst; try done).
Qed.

Lemma prop_names_differ (cp cp' p p' o o' : string) :
  new_prop_name cp p o ≠ original_prop_name cp' p' o'.
Proof. unfold new_prop_name, original_prop_name. simpl. intros [=]. Qed.

(** The two loops of [register_dynamic_properties] as one loop over the
    rows. *)
Lemma register_dynamic_properties_rows (current_preset : string)
    (presets : preset_table) :
  register_dynamic_properties current_preset presets
  = foldl (fun scene row =>
             dict_set
               (dict_set scene (original_prop_name current_preset row.1.1 row.1.2)
                  (original_property row))
               (new_prop_name current_preset row.1.1 row.1.2)
               {| prop_default := row.2; prop_prefix := row.1.1;
                  prop_original := row.1.2; prop_new := row.2 |})
          [] (rule_rows (default [] (dict_get presets current_preset))).
Proof.
  unfold register_dynamic_properties.
  generalize (default [] (dict_get presets current_preset)) as current_rules.
  generalize (@nil (string * rule_property)) as scene.
  intros scene current_rules. revert scene.
  induction current_rules as [|[prefix rule_set] current_rules IH]; intros scene; [done|].
  cbn [foldl]. rewrite IH. unfold rule_rows. cbn [flat_map]. rewrite foldl_app.
  f_equal. cbn [fst snd]. clear IH. revert scene.
  induction rule_set as [|[original new] rule_set IH]; intros scene; [done|].
  cbn [foldl fmap list_fmap]. by rewrite IH.
Qed.

(** [register_dynamic_properties]: the text field that the panel shows
    for the old name of a rule is the one made for the last rule of the
    preset whose field has the same name. Names are not kept apart: a name
    with ".", " " or "-" gives the field of the name with "_" in their
    place, and a "_" between prefix and old name can be read either
    way. *)
Theorem row_properties_shared (current_preset : string) (presets : preset_table)
    (prefix original : string) :
  let rows := rule_rows (default [] (dict_get presets current_preset)) in
  let same_name (row : string * string * string) :=
    original_prop_name current_preset row.1.1 row.1.2
    = original_prop_name current_preset prefix original in
  dict_get (register_dynamic_properties current_preset presets)
           (original_prop_name current_preset prefix original)
  = original_property <$> last (filter same_name rows)
  ∧ (∀ (old : ascii) (suffix : string),
       old ∈ ["."; " "; "-"]%char →
       original_prop_name current_preset prefix (replace_char old "_" original)
       = original_prop_name current_preset prefix original
       ∧ original_prop_name current_preset (prefix +:+ "_" +:+ original) suffix
         = original_prop_name current_preset prefix (original +:+ "_" +:+ suffix)).
Proof.
  intros rows same_name. split.
  - rewrite register_dynamic_properties_rows. fold rows.
    rewrite foldl_dict_set_last by (intros; apply prop_names_differ).
    by destruct (last _).
  - intros old suffix Hold. unfold original_prop_name. split.
    + by rewrite sanitize_replaced.
    + rewrite !sanitize_property_name_app.
      change (sanitize_property_name "_") with "_".
      by rewrite !string_app_assoc.
Qed.

(** *** Export *)

Lemma lower_app (s1 s2 : string) : lower (s1 +:+ s2) = lower s1 +:+ lower s2.
Proof.
  induction s1 as [|c s1 IH]; [done|]. rewrite !string_app_cons. simpl.
  by rewrite IH, ?string_app_cons.
Qed.

Lemma length_app_string (s1 s2 : string) :
  String.length (s1 +:+ s2) = String.length s1 + String.length s2.
Proof.
  induction s1 as [|c s1 IH]; [done|]. rewrite !string_app_cons. simpl.
  by rewrite IH.
Qed.

Lemma drop_chars_app (s1 s2 : string) :
  drop_chars (String.length s1) (s1 +:+ s2) = s2.
Proof.
  induction s1 as [|c s1 IH]; [by destruct s2|]. by rewrite string_app_cons.
Qed.

Lemma endswith_app (s p : string) : endswith (s +:+ p) p = true.
Proof.
  unfold endswith. rewrite length_app_string.
  rewrite bool_decide_eq_true_2 by lia.
  replace (String.length s + String.length p - String.length p) with (String.length s)
    by lia.
  by rewrite drop_chars_app, bool_decide_eq_true_2.
Qed.

(** The path [OBJECT_OT_export_preset.execute] writes to ends in ".json"
    in some letter case: a path that does so already is kept, any other
    gets ".json" added; doing it twice adds nothing more. *)
Theorem export_filepath_json (filepath : string) :
  endswith (lower (export_filepath filepath)) ".json" = true
  ∧ (endswith (lower filepath) ".json" = true → export_filepath filepath = filepath)
  ∧ (endswith (lower filepath) ".json" = false →
     export_filepath filepath = filepath +:+ ".json")
  ∧ export_filepath (export_filepath filepath) = export_filepath filepath.
Proof.
  assert (H1 : endswith (lower (export_filepath filepath)) ".json" = true).
  { unfold export_filepath. destruct (endswith (lower filepath) ".json") eqn:E; [done|].
    rewrite lower_app. apply endswith_app. }
  split; [done|]. unfold export_filepath at 1 2.
  split; [by intros ->|]. split; [by intros ->|].
  unfold export_filepath at 1. by rewrite H1.
Qed.

(** ** Rules turned round and grouped *)

(** [reverse_rules] of the undo operators: a new name is turned back into
    the old name of the last rule that gives it. When several old names
    share a new name, as for a merge, the undo knows that last one only. *)
Theorem reverse_rules_last_wins (rules : ruleset) (new_name : string) :
  dict_get (reverse_rules rules) new_name
  = fst <$> last (filter (fun rule => rule.2 = new_name) rules).
Proof.
  unfold reverse_rules.
  rewrite (foldl_dict_set_get snd fst rules [] new_name).
  by destruct (last _).
Qed.

(** One more member for [new_to_sources]. *)
Lemma group_by_target_snoc (rules : ruleset) (ns : list string) (n : string) :
  group_by_target rules (ns ++ [n])
  = match dict_get rules n with
    | Some new_name =>
        match dict_get (group_by_target rules ns) new_name with
        | Some sources => dict_set (group_by_target rules ns) new_name (sources ++ [n])
        | None => dict_set (group_by_target rules ns) new_name [n]
        end
    | None => group_by_target rules ns
    end.
Proof. unfold group_by_target. by rewrite foldl_app. Qed.

(** [new_to_sources] of the rename operators: every new name is there
    once, with the members that the rules give this name, in the order of
    the collection; a new name that no member is given is not there. *)
Theorem group_by_target_buckets (rules : ruleset) (member_names : list string) :
  NoDup (dict_keys (group_by_target rules member_names))
  ∧ ∀ new_name,
      dict_get (group_by_target rules member_names) new_name
      = let sources := filter (fun n => dict_get rules n = Some new_name) member_names in
        if decide (sources = []) then None else Some sources.
Proof.
  induction member_names as [|n ns [IHnd IH]] using rev_ind.
  - split; [apply NoDup_nil_2 | done].
  - rewrite group_by_target_snoc. split.
    + destruct (dict_get rules n) as [new_name|]; [|done].
      destruct (dict_get (group_by_target rules ns) new_name);
        by apply dict_keys_set_NoDup.
    + intros new_name. cbn zeta. rewrite filter_app, filter_cons, filter_nil.
      specialize (IH new_name). cbn zeta in IH.
      set (before := filter (fun n => dict_get rules n = Some new_name) ns) in *.
      destruct (dict_get rules n) as [target|] eqn:Hn.
      * destruct (decide (target = new_name)) as [->|Hne].
        -- rewrite (decide_True (P := Some new_name = Some new_name)) by done.
           destruct (dict_get (group_by_target rules ns) new_name) as [sources|] eqn:Hg;
             rewrite dict_get_set, (decide_True (P := new_name = new_name)) by done.
           ++ destruct (decide (before = [])) as [Hs|Hs]; [done|]. injection IH as ->.
              rewrite decide_False; [done|]. by intros [? ?]%app_eq_nil.
           ++ destruct (decide (before = [])) as [Hs|Hs]; [|done]. by rewrite Hs.
        -- rewrite (decide_False (P := Some target = Some new_name)) by congruence.
           rewrite app_nil_r.
           destruct (dict_get (group_by_target rules ns) target);
             by rewrite dict_get_set, (decide_False (P := target = new_name)).
      * rewrite (decide_False (P := None = Some new_name)) by done.
        by rewrite app_nil_r.
Qed.

(** ** Renaming a key of a dictionary *)

Lemma foldl_ext_elem {X S : Type} (f g : S → X → S) (s : S) (xs : list X) :
  (∀ a x, x ∈ xs → f a x = g a x) → foldl f s xs = foldl g s xs.
Proof.
  revert s. induction xs as [|x xs IH]; intros s Hfg; [done|]. simpl.
  rewrite Hfg by apply list_elem_of_here.
  apply IH. intros a y Hy. apply Hfg. by apply list_elem_of_further.
Qed.

(** [rename_key_in_ordered_dict] on a dictionary: a key that is not there,
    and a key renamed to itself, leave the dictionary as it is; renaming a
    key to a new one and back gives the dictionary back, and the new key
    has the value of the old one. *)
Theorem rename_key_round_trip {V : Type} (d : list (string * V))
    (old_key new_key : string) :
  NoDup (dict_keys d) →
  (old_key ∉ dict_keys d → rename_key_in_ordered_dict d old_key new_key = d)
  ∧ rename_key_in_ordered_dict d old_key old_key = d
  ∧ (new_key ∉ dict_keys d →
     rename_key_in_ordered_dict (rename_key_in_ordered_dict d old_key new_key)
       new_key old_key = d
     ∧ dict_get (rename_key_in_ordered_dict d old_key new_key) new_key
       = dict_get d old_key).
Proof.
  intros Hnd.
  assert (Hid : ∀ g : string * V → string * V,
            (∀ kv, kv ∈ d → g kv = kv) → g <$> d = d).
  { intros g Hg. rewrite <- (list_fmap_id d) at 2.
    apply list_fmap_ext. intros i kv Hi. apply Hg. by eapply list_elem_of_lookup_2. }
  assert (Hsame : rename_key_in_ordered_dict d old_key old_key = d).
  { rewrite rename_key_in_ordered_dict_map by done.
    apply Hid. intros [k v] _. simpl. by case_decide; subst. }
  split; [|split; [done|]].
  - intros Hold. rewrite <- Hsame at 2. unfold rename_key_in_ordered_dict.
    apply foldl_ext_elem. intros acc [k v] Hin. simpl.
    rewrite !decide_False; [done|..];
      intros ->; apply Hold; apply list_elem_of_fmap; by exists (old_key, v).
  - intros Hnew.
    set (g := fun kv : string * V =>
                (if decide (kv.1 = old_key) then new_key else kv.1, kv.2)).
    assert (Hmap : rename_key_in_ordered_dict d old_key new_key = g <$> d)
      by (by apply rename_key_in_ordered_dict_map).
    assert (Hkeys : dict_keys (g <$> d)
                    = (fun k => if decide (k = old_key) then new_key else k) <$> dict_keys d).
    { unfold dict_keys. rewrite <- !list_fmap_compose. by apply list_fmap_ext. }
    rewrite Hmap. split.
    + rewrite rename_key_in_ordered_dict_map.
      * rewrite <- list_fmap_compose. apply Hid. intros [k v] Hin. unfold g. simpl.
        destruct (decide (k = old_key)) as [->|Hk]; simpl.
        -- by rewrite decide_True.
        -- rewrite decide_False; [done|]. intros ->. apply Hnew.
           apply list_elem_of_fmap. by exists (new_key, v).
      * rewrite Hkeys. apply NoDup_replace_key; [done|]. by intros ?.
      * rewrite Hkeys. intros (k & Hk & Hin)%list_elem_of_fmap.
        case_decide; [congruence|]. by subst.
    + clear Hmap Hkeys Hid Hsame Hnd. unfold dict_keys in Hnew.
      induction d as [|[k v] d IH]; [done|].
      rewrite fmap_cons, not_elem_of_cons in Hnew. destruct Hnew as [Hk Hnew].
      rewrite fmap_cons. unfold g at 1. simpl in *.
      destruct (decide (k = old_key)) as [->|Hne]; simpl.
      * by rewrite decide_True.
      * rewrite decide_False by congruence. by apply IH.
Qed.

(** Renaming b to bb and back in the dictionary a: x, b: y, c: z. *)
Lemma rename_key_round_trip_example :
  let d := [("a", "x"); ("b", "y"); ("c", "z")] in
  rename_key_in_ordered_dict (rename_key_in_ordered_dict d "b" "bb") "bb" "b" = d
  ∧ dict_get (rename_key_in_ordered_dict d "b" "bb") "bb" = dict_get d "b".
Proof.
  intros d.
  refine (proj2 (proj2 (rename_key_round_trip d "b" "bb" _)) _); compute_done.
Defined.

(** ** What renaming leaves alone *)

Section data_frame.
Context {host : Host} {A B : Type} {named : Named A}.
Context (f : A → B) (Hf : ∀ n x, f (with_name n x) = f x).
Implicit Types (l : list A).

Lemma set_name_data i n l : f <$> set_name i n l = f <$> l.
Proof.
  unfold set_name. destruct (l !! i) as [x|] eqn:Hi; [|done].
  rewrite list_fmap_insert, Hf. apply list_insert_id.
  by rewrite list_lookup_fmap, Hi.
Qed.

Lemma rename_if_found_data old new l : f <$> rename_if_found A old new l = f <$> l.
Proof.
  unfold rename_if_found. destruct (coll_get l old) as [[i x]|]; [|done].
  apply set_name_data.
Qed.

Lemma foldl_data {X : Type} (step : list A → X → list A) (xs : list X) l :
  (∀ l x, f <$> step l x = f <$> l) → f <$> foldl step l xs = f <$> l.
Proof.
  intros Hstep. revert l. induction xs as [|x xs IH]; intros l; [done|].
  simpl. by rewrite IH, Hstep.
Qed.

Lemma mirror_names_data `{!Container A} (obj : Object) :
  f <$> members (mirror_names A obj) = f <$> members obj.
Proof.
  unfold mirror_names. rewrite members_with_members.
  rewrite !foldl_data; [done|..]; intros; apply rename_if_found_data.
Qed.

Lemma undo_rules_data `{!Container A} (rules : ruleset) (obj : Object) :
  f <$> members (undo_rules A rules obj) = f <$> members obj.
Proof.
  unfold undo_rules. rewrite members_with_members.
  rewrite foldl_data; [done|]. intros l i.
  destruct (l !! i) as [vg|]; [|done].
  destruct (dict_get _ _); [|done]. apply set_name_data.
Qed.

End data_frame.

(** [mirror_names] and the undo loop give names and nothing else: the
    vertex groups keep their number, their order and their weights, and
    the bones their number, their order and their placement, whatever the
    host does when a name is taken. *)
Theorem renaming_keeps_weights_and_placement {host : Host} (rules : ruleset)
    (obj : Object) :
  let placement (b : Bone) := (bone_head b, bone_tail b, bone_roll b) in
  vg_weights <$> vertex_groups (mirror_names VertexGroup obj)
  = vg_weights <$> vertex_groups obj
  ∧ vg_weights <$> vertex_groups (undo_rules VertexGroup rules obj)
    = vg_weights <$> vertex_groups obj
  ∧ placement <$> bones (mirror_names Bone obj) = placement <$> bones obj
  ∧ placement <$> bones (undo_rules Bone rules obj) = placement <$> bones obj.
Proof.
  intros placement. repeat split.
  - by refine (mirror_names_data (A:=VertexGroup) vg_weights _ obj).
  - by refine (undo_rules_data (A:=VertexGroup) vg_weights _ rules obj).
  - by refine (mirror_names_data (A:=Bone) placement _ obj).
  - by refine (undo_rules_data (A:=Bone) placement _ rules obj).
Qed.

(** ** Links between meshes and armatures *)

Lemma elem_of_modifier_armatures (objects : list Object) (mesh : Object) (a : nat) :
  a ∈ modifier_armatures objects mesh
  ↔ ∃ md target, md ∈ modifiers mesh ∧ mod_type md = ARMATURE_MODIFIER
                 ∧ mod_object md = Some a ∧ objects !! a = Some target
                 ∧ obj_type target = ARMATURE.
Proof.
  unfold modifier_armatures. rewrite list_elem_of_omap. split.
  - intros (md & Hmd & Hsome). exists md.
    case_decide as Hty; [|done].
    destruct (mod_object md) as [b|] eqn:Hb; [|done]. cbn in Hsome.
    destruct (objects !! b) as [target|] eqn:Ht; [|done]. cbn in Hsome.
    case_decide; [|done]. injection Hsome as ->. by exists target.
  - intros (md & target & Hmd & Hty & Hobj & Ht & Harm). exists md. split; [done|].
    rewrite decide_True, Hobj by done. cbn. rewrite Ht. cbn. by rewrite decide_True.
Qed.

Lemma elem_of_linked_meshes (objects : list Object) (a m : nat) :
  m ∈ linked_meshes objects a
  ↔ ∃ mesh md, objects !! m = Some mesh ∧ obj_type mesh = MESH
               ∧ md ∈ modifiers mesh ∧ mod_type md = ARMATURE_MODIFIER
               ∧ mod_object md = Some a.
Proof.
  unfold linked_meshes. rewrite list_elem_of_join. split.
  - intros (l & Hm & [i Hl]%list_elem_of_lookup).
    rewrite list_lookup_imap in Hl.
    destruct (objects !! i) as [obj|] eqn:Hi; [|done]. cbn in Hl.
    injection Hl as <-. case_decide as Hty; [|by apply elem_of_nil in Hm].
    apply list_elem_of_omap in Hm as (md & Hmd & Hsome).
    case_decide as Hc; [|done]. injection Hsome as ->.
    destruct Hc. by exists obj, md.
  - intros (mesh & md & Hm & Hty & Hmd & Hmt & Hobj).
    eexists. split; [|apply list_elem_of_lookup; exists m;
                      rewrite list_lookup_imap, Hm; reflexivity].
    cbn. rewrite decide_True by done. apply list_elem_of_omap. exists md.
    split; [done|]. by rewrite decide_True.
Qed.

(** [get_armatures_from_meshes] and [get_meshes_from_armatures]: a mesh
    of the list has an entry when it has an armature modifier on an
    armature, the armature itself for one such modifier and the list of
    them for several, also when they are modifiers on one armature; an
    armature of the list has an entry when a mesh has an armature modifier
    on it, the meshes once for each such modifier. Between a mesh and an
    armature the two agree: the armature is one of the mesh's when the
    mesh is one of the armature's. *)
Theorem links_both_ways (objects : list Object) :
  (∀ (meshes : list nat) (m : nat),
     dict_get (get_armatures_from_meshes objects meshes) m
     = if bool_decide (m ∈ meshes)
       then mesh ← objects !! m; link_of (modifier_armatures objects mesh)
       else None)
  ∧ (∀ (armatures : list nat) (a : nat),
       dict_get (get_meshes_from_armatures objects armatures) a
       = if bool_decide (a ∈ armatures ∧ linked_meshes objects a ≠ [])
         then Some (linked_meshes objects a) else None)
  ∧ (∀ (m a : nat) (mesh arm : Object),
       objects !! m = Some mesh → obj_type mesh = MESH →
       objects !! a = Some arm → obj_type arm = ARMATURE →
       (a ∈ modifier_armatures objects mesh ↔ m ∈ linked_meshes objects a)).
Proof.
  split; [|split].
  - intros meshes m. unfold get_armatures_from_meshes.
    induction meshes as [|x meshes IH] using rev_ind; [done|].
    rewrite foldl_app. cbn [foldl].
    set (acc := foldl _ [] meshes) in *.
    assert (Hstep : dict_get
      match modifier_armatures objects <$> objects !! x with
      | Some [armature] => dict_set acc x (Single armature)
      | Some (a1 :: a2 :: rest) => dict_set acc x (Multiple (a1 :: a2 :: rest))
      | _ => acc
      end m
      = if decide (x = m)
        then match objects !! x ≫= (fun mesh => link_of (modifier_armatures objects mesh)) with
             | Some link => Some link
             | None => dict_get acc m
             end
        else dict_get acc m).
    { destruct (objects !! x) as [mesh|]; cbn.
      2: by destruct (decide (x = m)).
      destruct (modifier_armatures objects mesh) as [|a1 [|a2 rest]]; cbn;
        rewrite ?dict_get_set; by destruct (decide (x = m)). }
    rewrite Hstep, IH. clear Hstep.
    destruct (decide (x = m)) as [->|Hne].
    + rewrite (bool_decide_eq_true_2 (m ∈ meshes ++ [m]))
        by (apply elem_of_app; right; apply list_elem_of_here).
      destruct (objects !! m ≫= _) eqn:E; [done|]. by case_bool_decide.
    + apply (f_equal (fun b : bool => if b then _ else _)).
      apply bool_decide_ext. rewrite elem_of_app, list_elem_of_singleton. naive_solver.
  - intros armatures a. unfold get_meshes_from_armatures.
    induction armatures as [|x armatures IH] using rev_ind.
    { cbn. rewrite bool_decide_eq_false_2; [done|]. intros [[]%elem_of_nil _]. }
    rewrite foldl_app. cbn [foldl].
    set (acc := foldl _ [] armatures) in *.
    assert (Hin : ∀ P : Prop, (a ∈ armatures ++ [x] ∧ P) ↔ ((a ∈ armatures ∧ P) ∨ (x = a ∧ P))).
    { intros P. rewrite elem_of_app, list_elem_of_singleton. naive_solver. }
    destruct (decide (x = a)) as [->|Hne].
    + destruct (linked_meshes objects a) as [|m ms] eqn:E.
      * rewrite IH. apply (f_equal (fun b : bool => if b then _ else _)).
        apply bool_decide_ext. rewrite Hin. naive_solver.
      * rewrite dict_get_set, decide_True by done.
        rewrite bool_decide_eq_true_2; [done|]. rewrite Hin. by right.
    + assert (Hget : dict_get
                       match linked_meshes objects x with
                       | [] => acc
                       | m :: ms => dict_set acc x (m :: ms)
                       end a = dict_get acc a).
      { destruct (linked_meshes objects x); [done|]. by rewrite dict_get_set, decide_False. }
      rewrite Hget, IH. apply (f_equal (fun b : bool => if b then _ else _)).
      apply bool_decide_ext. rewrite Hin. naive_solver.
  - intros m a mesh arm Hm Hmty Ha Haty.
    rewrite elem_of_modifier_armatures, elem_of_linked_meshes. split.
    + intros (md & target & Hmd & Hty & Hobj & _). by exists mesh, md.
    + intros (mesh' & md & Hm' & _ & Hmd & Hty & Hobj).
      assert (mesh' = mesh) as -> by congruence. by exists md, arm.
Qed.

(** ** A rename pass, and a second one *)

Section rename_pass.
Context {A : Type} {host : Host} {named : Named A} {container : Container A}.

(** Buckets of a name under itself: nothing is renamed and nothing is
    printed. *)
Lemma apply_buckets_identity (ks : list string) (obj : Object) (evs : list event) :
  apply_buckets A ((fun k => (k, [k])) <$> ks) (obj, evs) = Some (obj, evs).
Proof.
  induction ks as [|k ks IH]; [done|].
  rewrite fmap_cons. cbn [apply_buckets].
  assert (Hb : apply_bucket A (k, [k]) (obj, evs) = Some (obj, evs)).
  { unfold apply_bucket. cbn [fst snd length head]. rewrite decide_False by lia.
    cbn [mbind option_bind].
    destruct (coll_get (members obj) k) as [[i x]|] eqn:E; [|done].
    apply coll_get_Some in E as (_ & Hx & _). by rewrite decide_False by (by intros ?). }
  rewrite Hb. cbn [mbind option_bind]. apply IH.
Qed.

(** The rename loop on a collection with distinct names, for a ruleset in
    which no two rules share a new name and no member has the new name of
    another member's rule: every member gets the name its rule gives it,
    and keeps its place. When, besides, no new name is the old name of a
    rule to another name, a second pass finds nothing to do: it renames
    nothing and prints nothing. *)
Theorem rename_pass_twice (rules : ruleset) (obj : Object) :
  NoDup (names (members obj)) → NoDup rules.*2 →
  (∀ old new, dict_get rules old = Some new →
              new ∈ names (members obj) → old = new) →
  ∃ obj' evs,
    apply_rules A rules obj = Some (obj', evs)
    ∧ members obj'
      = (fun x => with_name (target_name rules (name_of x)) x) <$> members obj
    ∧ ((∀ old new, dict_get rules old = Some new →
                   dict_get rules new = None ∨ dict_get rules new = Some new) →
       apply_rules A rules obj' = Some (obj', [])).
Proof.
  intros Hnd Hval Hfree.
  destruct (apply_rules_renames rules obj Hnd Hval Hfree) as (obj' & evs & Happ & Hm).
  exists obj', evs. split; [done|]. split; [done|]. intros Hstop.
  set (ns := names (members obj)) in *.
  assert (Hns' : names (members obj') = target_name rules <$> ns).
  { rewrite Hm. unfold ns, names. rewrite <- !list_fmap_compose.
    apply list_fmap_ext. intros i x _. simpl. apply name_of_with_name. }
  assert (Hnd' : NoDup (names (members obj'))).
  { rewrite Hns'. apply NoDup_fmap_2_strong; [|done].
    intros n1 n2 Hn1 Hn2. unfold target_name.
    destruct (dict_get rules n1) as [v1|] eqn:H1,
             (dict_get rules n2) as [v2|] eqn:H2; simpl.
    - intros ->. by apply (dict_get_unique_value rules n1 n2 v2).
    - intros ->. by apply Hfree.
    - intros <-. symmetry. by apply Hfree.
    - done. }
  unfold apply_rules. rewrite group_by_target_single by done.
  assert (Hb : omap (fun n => (fun new => (new, [n])) <$> dict_get rules n)
                    (names (members obj'))
               = (fun k => (k, [k]))
                   <$> filter (fun n => is_Some (dict_get rules n)) (names (members obj'))).
  { rewrite Hns'. clear Hnd' Hns'. induction ns as [|n ns IH]; [done|].
    rewrite fmap_cons, filter_cons.
    change (omap ?f (?x :: ?l)) with (match f x with Some y => y :: omap f l
                                                  | None => omap f l end).
    assert (Hnd2 : NoDup ns) by (by apply NoDup_cons in Hnd as [_ ?]).
    assert (Hfree2 : ∀ old new, dict_get rules old = Some new → new ∈ ns → old = new).
    { intros old new Hr Hin. apply Hfree; [done|]. by apply list_elem_of_further. }
    specialize (IH Hnd2 Hfree2).
    destruct (dict_get rules n) as [v|] eqn:Hn.
    + assert (Ht : target_name rules n = v) by (unfold target_name; by rewrite Hn).
      rewrite Ht.
      destruct (Hstop n v Hn) as [Hv|Hv]; rewrite Hv; simpl.
      * exact IH.
      * f_equal. exact IH.
    + assert (Ht : target_name rules n = n) by (unfold target_name; by rewrite Hn).
      rewrite Ht, Hn. simpl. exact IH. }
  rewrite Hb. apply apply_buckets_identity.
Qed.

End rename_pass.

(** The rules a -> x, b -> y on the groups a, b, c, and a second pass. *)
Lemma rename_pass_twice_example :
  let obj := mesh_object "Body" [] [group "a" [(0, 1 # 2)]; group "b" []; group "c" []] 1 in
  let rules := [("a", "x"); ("b", "y")] in
  ∃ obj' evs,
    apply_rules (host:=blender_host) VertexGroup rules obj = Some (obj', evs)
    ∧ vertex_groups obj' = [group "x" [(0, 1 # 2)]; group "y" []; group "c" []]
    ∧ apply_rules (host:=blender_host) VertexGroup rules obj' = Some (obj', []).
Proof.
  intros obj rules.
  destruct (rename_pass_twice (host:=blender_host) (A:=VertexGroup) rules obj)
    as (obj' & evs & Happ & Hm & Hagain); [compute_done | compute_done | |].
  { intros old new Hr Hnew. unfold rules in Hr. simpl in Hr.
    repeat (case_decide; [injection Hr as <-; subst old; exfalso; revert Hnew;
                                apply (bool_decide_unpack (_ ∉ _)); compute_done|]).
    done. }
  exists obj', evs. split; [exact Happ|]. split; [exact Hm|].
  apply Hagain. intros old new Hr. left. unfold rules in Hr. simpl in Hr.
  repeat (case_decide; [by injection Hr as <-|]). done.
Defined.

(** ** A merge keeps every vertex's total *)

Lemma Qsum_filter_split {X : Type} (f : X → Q) (P : X → Prop)
    `{∀ x, Decision (P x)} (xs : list X) :
  (Qsum (f <$> xs)
   == Qsum (f <$> filter P xs) + Qsum (f <$> filter (fun x => ¬ P x) xs))%Q.
Proof.
  induction xs as [|x xs IH]; [reflexivity|].
  rewrite !filter_cons, fmap_cons, Qsum_cons, IH.
  destruct (decide (P x)) as [Hp|Hp].
  - rewrite decide_False by (by intros ?). rewrite fmap_cons, Qsum_cons. ring.
  - rewrite decide_True by done. rewrite fmap_cons, Qsum_cons. ring.
Qed.

Lemma Qsum_filter_none {X : Type} (f : X → Q) (P : X → Prop)
    `{∀ x, Decision (P x)} (xs : list X) :
  (∀ x, x ∈ xs → ¬ P x) → Qsum (f <$> filter P xs) = 0%Q.
Proof.
  induction xs as [|x xs IH]; intros Hno; [done|].
  rewrite filter_cons, decide_False by apply Hno, list_elem_of_here.
  apply IH. intros y Hy. apply Hno. by apply list_elem_of_further.
Qed.

Section conservation.
Context {host : Host}.
Implicit Types (gs : list VertexGroup) (g : VertexGroup) (v : nat).

Lemma source_weight_cons g gs v (s : string) :
  source_weight (g :: gs) v s
  = if decide (vg_name g = s) then weight_or_zero g v else source_weight gs v s.
Proof.
  unfold source_weight. cbn [coll_get name_of VertexGroup_named].
  case_decide; [done|]. by destruct (coll_get gs s) as [[i x]|].
Qed.

Lemma source_weight_filter gs v (s : string) :
  NoDup (names gs) →
  (Qsum ((fun g => weight_or_zero g v) <$> filter (fun g => vg_name g = s) gs)
   == source_weight gs v s)%Q.
Proof.
  induction gs as [|g gs IH]; intros Hnd; [reflexivity|].
  unfold names in Hnd. rewrite fmap_cons in Hnd. apply NoDup_cons in Hnd as [Hg Hnd].
  rewrite source_weight_cons, filter_cons.
  destruct (decide (vg_name g = s)) as [Hs|Hs].
  - rewrite fmap_cons, Qsum_cons, Qsum_filter_none; [ring|].
    intros x Hx Hname. apply Hg. apply list_elem_of_fmap. exists x.
    split; [|done]. simpl. congruence.
  - by apply IH.
Qed.

Lemma sources_weight_filter gs v (sources : list string) :
  NoDup (names gs) → NoDup sources →
  (Qsum (source_weight gs v <$> sources)
   == Qsum ((fun g => weight_or_zero g v) <$> filter (fun g => vg_name g ∈ sources) gs))%Q.
Proof.
  intros Hnd. induction sources as [|s sources IH]; intros Hsrc.
  - rewrite Qsum_filter_none; [reflexivity|]. intros x _. apply not_elem_of_nil.
  - apply NoDup_cons in Hsrc as [Hs Hsrc].
    rewrite fmap_cons, Qsum_cons, IH, <- source_weight_filter by done.
    clear IH Hnd. induction gs as [|g gs IHg]; [reflexivity|].
    rewrite !filter_cons.
    destruct (decide (vg_name g = s)) as [Hgs|Hgs].
    + rewrite decide_False by congruence.
      rewrite decide_True by (rewrite Hgs; apply list_elem_of_here).
      rewrite !fmap_cons, !Qsum_cons, <- IHg. ring.
    + destruct (decide (vg_name g ∈ sources)) as [Hin|Hout].
      * rewrite decide_True by (by apply list_elem_of_further).
        rewrite !fmap_cons, !Qsum_cons, <- IHg. ring.
      * rewrite decide_False; [exact IHg|].
        rewrite elem_of_cons. naive_solver.
Qed.

(** What the host stores for a sum of weights of its range. *)
Lemma clamp_weight_sum (w : Q) :
  (0 <= w)%Q →
  (clamp_weight w <= w)%Q ∧ ((w <= 1)%Q → clamp_weight w = w).
Proof.
  intros H0. unfold clamp_weight.
  destruct (Qlt_le_dec w 0) as [Hneg|_]; [by exfalso; apply (Qlt_not_le _ _ Hneg)|].
  destruct (Qlt_le_dec 1 w) as [Hbig|Hsmall].
  - split; [by apply Qlt_le_weak|]. intros Hle. exfalso. by apply (Qlt_not_le _ _ Hbig).
  - split; [apply Qle_refl | done].
Qed.


End conservation.


(** ** The normalization step, once more *)

Lemma normalize_vertex_small (v : nat) (gs : list VertexGroup) :
  (total_weight v gs <= 1)%Q → normalize_vertex v gs = gs.
Proof.
  intros Hle. unfold normalize_vertex.
  destruct (Qlt_le_dec 1 (total_weight v gs)) as [Hgt|]; [|done].
  exfalso. by apply (Qlt_not_le _ _ Hgt).
Qed.

Lemma normalize_weights_small (vs : list nat) (gs : list VertexGroup) :
  (∀ v, v ∈ vs → (total_weight v gs <= 1)%Q) → normalize_weights vs gs = gs.
Proof.
  intros Hle. unfold normalize_weights. apply foldl_unchanged.
  intros v Hv. by apply normalize_vertex_small, Hle.
Qed.

(** The normalization step of [merge_vertex_groups], on the vertices of
    a mesh whose groups hold weights between 0 and 1: afterwards no vertex
    has a total above one, a second run changes nothing, and a mesh in
    which no vertex has a total above one is left as it is. Weights are
    exact rationals here. *)
Theorem normalization_settles (vs : list nat) (gs : list VertexGroup) :
  NoDup vs → weights_in_range gs →
  (∀ v, v ∈ vs → (total_weight v (normalize_weights vs gs) <= 1)%Q)
  ∧ normalize_weights vs (normalize_weights vs gs) = normalize_weights vs gs
  ∧ ((∀ v, v ∈ vs → (total_weight v gs <= 1)%Q) → normalize_weights vs gs = gs).
Proof.
  intros Hnd Hr.
  pose proof (normalize_weights_spec vs gs Hnd Hr) as Hnorm.
  assert (Hle : ∀ v, v ∈ vs → (total_weight v (normalize_weights vs gs) <= 1)%Q).
  { intros v Hv.
    destruct (Qlt_le_dec 1 (total_weight v gs)) as [Hgt|Hsmall].
    - rewrite total_weight_Qsum.
      rewrite <- (Qsum_Forall2 (fun g => weight_or_zero g v / total_weight v gs)%Q
                    (fun g' => weight_or_zero g' v) gs (normalize_weights vs gs)).
      + rewrite (list_fmap_compose (fun g => weight_or_zero g v)
                   (fun w => w / total_weight v gs)%Q).
        rewrite Qsum_div, <- total_weight_Qsum.
        assert (Heq : (total_weight v gs / total_weight v gs == 1)%Q).
        { field. intros Hz. rewrite Hz in Hgt. by apply (Qlt_not_le _ _ Hgt). }
        rewrite Heq. apply Qle_refl.
      + eapply Forall2_impl; [exact Hnorm|]. intros g g' [_ Hw].
        unfold weight_or_zero at 2. rewrite Hw, bool_decide_eq_true_2 by done.
        destruct (Qlt_le_dec 1 (total_weight v gs)) as [|Hno];
          [reflexivity | by exfalso; apply (Qlt_not_le _ _ Hgt)].
    - rewrite (total_weight_ext v gs (normalize_weights vs gs)); [done|].
      eapply Forall2_impl; [exact Hnorm|]. intros g g' [_ Hw].
      rewrite Hw, bool_decide_eq_true_2 by done.
      destruct (Qlt_le_dec 1 (total_weight v gs)) as [Hgt|]; [|done].
      exfalso. by apply (Qlt_not_le _ _ Hgt). }
  split; [done|]. split; [by apply normalize_weights_small|].
  apply normalize_weights_small.
Qed.

(** A vertex with 0.8 and 0.8 in two groups, normalized twice. *)
Lemma normalization_settles_example :
  let gs := [group "A" [(0, 8 # 10)]; group "B" [(0, 8 # 10)]] in
  (total_weight 0%nat (normalize_weights [0%nat] gs) <= 1)%Q
  ∧ normalize_weights [0%nat] (normalize_weights [0%nat] gs) = normalize_weights [0%nat] gs.
Proof.
  intros gs.
  destruct (normalization_settles [0%nat] gs) as (Hle & Hagain & _);
    [compute_done | compute_done |].
  split; [apply Hle; compute_done | exact Hagain].
Defined.

(** ** What the operators leave alone *)

Lemma uses_armature_modifiers (a : nat) (o o' : Object) :
  modifiers o' = modifiers o → uses_armature a o' = uses_armature a o.
Proof. unfold uses_armature. by intros ->. Qed.

Lemma changed_within_refl (meshes arms : list nat) (objects : list Object) :
  changed_within meshes arms objects objects.
Proof. split; [done|]. intros j o Hj. exists o. by repeat split. Qed.

Lemma changed_within_trans (meshes arms : list nat) (o1 o2 o3 : list Object) :
  changed_within meshes arms o1 o2 → changed_within meshes arms o2 o3 →
  changed_within meshes arms o1 o3.
Proof.
  intros [Hl1 H1] [Hl2 H2]. split; [congruence|].
  intros j o Hj.
  destruct (H1 j o Hj) as (o' & Hj' & Hn & Ht & Hm & Hv & Hb & Hg).
  destruct (H2 j o' Hj') as (o'' & Hj'' & Hn' & Ht' & Hm' & Hv' & Hb' & Hg').
  exists o''. repeat split; try congruence.
  - intros Hout. rewrite Hb', Hb; done.
  - intros Hout Hno. rewrite Hg', Hg; try done.
    intros a Ha. rewrite (uses_armature_modifiers a o o') by done. by apply Hno.
Qed.

Lemma changed_within_mono (m1 a1 m2 a2 : list nat) (o1 o2 : list Object) :
  (∀ j, j ∈ m1 → j ∈ m2) → (∀ j, j ∈ a1 → j ∈ a2) →
  changed_within m1 a1 o1 o2 → changed_within m2 a2 o1 o2.
Proof.
  intros Hm Ha [Hl H]. split; [done|]. intros j o Hj.
  destruct (H j o Hj) as (o' & Hj' & Hn & Ht & Hmod & Hv & Hb & Hg).
  exists o'. repeat split; try done.
  - intros Hout. apply Hb. auto.
  - intros Hout Hno. apply Hg; auto.
Qed.

Lemma foldl_changed_within {X : Type} (meshes arms : list nat)
    (step : list Object → X → list Object) (xs : list X) (objects : list Object) :
  (∀ objs x, x ∈ xs → changed_within meshes arms objs (step objs x)) →
  changed_within meshes arms objects (foldl step objects xs).
Proof.
  revert objects. induction xs as [|x xs IH]; intros objects Hstep.
  - apply changed_within_refl.
  - cbn [foldl]. eapply changed_within_trans.
    + apply Hstep, list_elem_of_here.
    + apply IH. intros objs y Hy. apply Hstep. by apply list_elem_of_further.
Qed.

Section frame.
Context {host : Host}.

Lemma for_each_changed_within {X E : Type} (meshes arms : list nat)
    (body : X → list Object * E → option (list Object * E))
    (xs : list X) (st st' : list Object * E) :
  (∀ x s s', x ∈ xs → body x s = Some s' → changed_within meshes arms s.1 s'.1) →
  for_each body xs st = Some st' →
  changed_within meshes arms st.1 st'.1.
Proof.
  revert st. induction xs as [|x xs IH]; intros st Hbody.
  - intros [= <-]. apply changed_within_refl.
  - cbn [for_each]. destruct (body x st) as [s1|] eqn:Hb; [|done].
    cbn [mbind option_bind]. intros Hrest. eapply changed_within_trans.
    + apply (Hbody x st s1); [apply list_elem_of_here | done].
    + apply (IH s1); [|done]. intros y s s' Hy. apply Hbody.
      by apply list_elem_of_further.
Qed.

(** The vertex groups that follow a bone. *)
Lemma follow_bone_rename_within (a : nat) (old new : string) (objects : list Object) :
  changed_within [] [a] objects (follow_bone_rename a old new objects).
Proof.
  unfold follow_bone_rename. split; [apply length_fmap|]. intros j o Hj.
  exists (follow_bone_rename_in a old new o).
  rewrite list_lookup_fmap, Hj. split; [done|].
  unfold follow_bone_rename_in.
  destruct (uses_armature a o) eqn:Hu; repeat split; try done.
  intros _ Hno. rewrite Hno in Hu; [done | apply list_elem_of_here].
Qed.

Lemma insert_bones_within (a : nat) (bs : list Bone) (armature : Object)
    (objects : list Object) :
  objects !! a = Some armature →
  changed_within [] [a] objects (<[a := with_bones bs armature]> objects).
Proof.
  intros Ha. split; [apply length_insert|]. intros j o Hj.
  destruct (decide (j = a)) as [->|Hne].
  - exists (with_bones bs armature).
    rewrite list_lookup_insert_eq by (by eapply lookup_lt_Some).
    assert (o = armature) by congruence. subst o.
    repeat split; try done. intros Hout. destruct Hout. apply list_elem_of_here.
  - exists o. rewrite list_lookup_insert_ne by done. by repeat split.
Qed.

Lemma set_bone_name_within (a i : nat) (n : string) (objects : list Object) :
  changed_within [] [a] objects (set_bone_name a i n objects).
Proof.
  unfold set_bone_name.
  destruct (objects !! a) as [armature|] eqn:Ha; [|apply changed_within_refl].
  destruct (bones armature !! i) as [b|]; [|apply changed_within_refl].
  case_decide.
  - by apply insert_bones_within.
  - eapply changed_within_trans; [by apply insert_bones_within|].
    apply follow_bone_rename_within.
Qed.

Lemma merge_bones_in_scene_within (a : nat) (target : string) (sources : list string)
    (objects objects' : list Object) :
  merge_bones_in_scene a target sources objects = Some objects' →
  changed_within [] [a] objects objects'.
Proof.
  unfold merge_bones_in_scene. case_decide; [intros [= <-]; apply changed_within_refl|].
  destruct (objects !! a) as [armature|] eqn:Ha; [|done]. cbn [mbind option_bind].
  destruct (merge_bones_sources armature target sources) as [edit_bones|]; [|done].
  cbn [mbind option_bind]. intros [= <-].
  eapply changed_within_trans; [by apply insert_bones_within|].
  apply set_bone_name_within.
Qed.

Lemma apply_bone_bucket_within (a : nat) (bucket : string * list string)
    (st st' : list Object * list event) :
  apply_bone_bucket a bucket st = Some st' → changed_within [] [a] st.1 st'.1.
Proof.
  unfold apply_bone_bucket. case_decide.
  - destruct (merge_bones_in_scene a bucket.1 bucket.2 st.1) as [merged|] eqn:Hm; [|done].
    cbn [mbind option_bind]. intros [= <-]. by eapply merge_bones_in_scene_within.
  - destruct (head bucket.2) as [old|]; [|done]. cbn [mbind option_bind].
    destruct (coll_get (bones_of a st.1) old) as [[i b]|];
      [|intros [= <-]; apply changed_within_refl].
    case_decide; intros [= <-]; [apply set_bone_name_within | apply changed_within_refl].
Qed.

Lemma rename_bones_step_within (current_rules : preset) (source a : nat)
    (st st' : list Object * list event) :
  rename_bones_step current_rules source a st = Some st' →
  changed_within [] [a] st.1 st'.1.
Proof.
  unfold rename_bones_step.
  destruct (st.1 !! source) as [src|]; [|intros [= <-]; apply changed_within_refl].
  destruct (st.1 !! a) as [arm|]; [|intros [= <-]; apply changed_within_refl].
  destruct (resolve_rules current_rules (obj_name src)) as [rules|];
    [|intros [= <-]; apply changed_within_refl].
  unfold apply_bone_rules. apply for_each_changed_within.
  intros b s s' _. apply apply_bone_bucket_within.
Qed.

Lemma undo_bones_step_within (current_rules : preset) (source a : nat)
    (objects : list Object) :
  changed_within [] [a] objects (undo_bones_step current_rules source a objects).
Proof.
  unfold undo_bones_step.
  destruct (objects !! source) as [src|]; [|apply changed_within_refl].
  destruct (objects !! a) as [arm|]; [|apply changed_within_refl].
  destruct (resolve_rules current_rules (obj_name src)) as [rules|];
    [|apply changed_within_refl].
  unfold undo_bone_rules. apply foldl_changed_within. intros objs i _.
  destruct (bones_of a objs !! i) as [b|]; [|apply changed_within_refl].
  destruct (dict_get _ _); [apply set_bone_name_within | apply changed_within_refl].
Qed.

Lemma rename_bone_if_found_within (a : nat) (old new : string) (objects : list Object) :
  changed_within [] [a] objects (rename_bone_if_found a old new objects).
Proof.
  unfold rename_bone_if_found.
  destruct (coll_get _ _) as [[i b]|];
    [apply set_bone_name_within | apply changed_within_refl].
Qed.

Lemma mirror_bone_names_within (a : nat) (objects : list Object) :
  changed_within [] [a] objects (mirror_bone_names a objects).
Proof.
  unfold mirror_bone_names.
  repeat (eapply changed_within_trans;
          [|apply foldl_changed_within; intros; apply rename_bone_if_found_within]).
  apply changed_within_refl.
Qed.

(** The passes over the vertex groups of a mesh. *)
Lemma insert_vertex_groups_within (m : nat) (gs : list VertexGroup) (mesh : Object)
    (objects : list Object) :
  objects !! m = Some mesh →
  changed_within [m] [] objects (<[m := with_vertex_groups gs mesh]> objects).
Proof.
  intros Hm. split; [apply length_insert|]. intros j o Hj.
  destruct (decide (j = m)) as [->|Hne].
  - exists (with_vertex_groups gs mesh).
    rewrite list_lookup_insert_eq by (by eapply lookup_lt_Some).
    assert (o = mesh) by congruence. subst o.
    repeat split; try done. intros Hout. destruct Hout. apply list_elem_of_here.
  - exists o. rewrite list_lookup_insert_ne by done. by repeat split.
Qed.

Lemma apply_rules_vertex_groups_only (rules : ruleset) (obj obj' : Object)
    (evs : list event) :
  apply_rules VertexGroup rules obj = Some (obj', evs) →
  obj' = with_vertex_groups (vertex_groups obj') obj.
Proof.
  unfold apply_rules.
  generalize (group_by_target rules (names (members (A:=VertexGroup) obj))).
  generalize (@nil event). intros evs0 buckets.
  assert (Hgen : ∀ obj0 evs0,
    obj0 = with_vertex_groups (vertex_groups obj0) obj →
    apply_buckets VertexGroup buckets (obj0, evs0) = Some (obj', evs) →
    obj' = with_vertex_groups (vertex_groups obj') obj).
  { clear evs0. induction buckets as [|b buckets IH]; intros obj0 evs0 H0.
    - by intros [= <- <-].
    - cbn [apply_buckets].
      destruct (apply_bucket VertexGroup b (obj0, evs0)) as [[obj1 evs1]|] eqn:Hb; [|done].
      cbn [mbind option_bind]. apply IH.
      unfold apply_bucket in Hb. cbn [fst snd] in Hb.
      case_decide.
      + cbn [merge_members vertex_group_container] in Hb.
        unfold merge_vertex_groups in Hb. case_decide; [by simplify_eq/=|].
        destruct (merge_groups_unnormalized obj0 b.1 b.2); [|done].
        simplify_eq/=. rewrite H0. done.
      + destruct (head b.2); [|done]. cbn [mbind option_bind] in Hb.
        destruct (coll_get (members obj0) s) as [[i x]|]; [|by simplify_eq].
        case_decide; simplify_eq; [|done].
        cbn [with_members vertex_group_container]. rewrite H0. done. }
  apply Hgen. by destruct obj.
Qed.

Lemma rename_step_within (current_rules : preset) (source m : nat)
    (st st' : list Object * list event) :
  rename_step VertexGroup current_rules source m st = Some st' →
  changed_within [m] [] st.1 st'.1.
Proof.
  unfold rename_step.
  destruct (st.1 !! source) as [src|]; [|intros [= <-]; apply changed_within_refl].
  destruct (st.1 !! m) as [obj|] eqn:Hm; [|intros [= <-]; apply changed_within_refl].
  destruct (resolve_rules current_rules (obj_name src)) as [rules|];
    [|intros [= <-]; apply changed_within_refl].
  destruct (apply_rules VertexGroup rules obj) as [[obj' evs]|] eqn:Happ; [|done].
  cbn [mbind option_bind fst snd]. intros [= <-]. cbn [fst].
  rewrite (apply_rules_vertex_groups_only _ _ _ _ Happ).
  by apply insert_vertex_groups_within.
Qed.

Lemma undo_step_within (current_rules : preset) (source m : nat)
    (objects : list Object) :
  changed_within [m] [] objects (undo_step VertexGroup current_rules source m objects).
Proof.
  unfold undo_step.
  destruct (objects !! source) as [src|]; [|apply changed_within_refl].
  destruct (objects !! m) as [obj|] eqn:Hm; [|apply changed_within_refl].
  destruct (resolve_rules current_rules (obj_name src)) as [rules|];
    [|apply changed_within_refl].
  by apply insert_vertex_groups_within.
Qed.

Lemma mirror_step_within (m : nat) (objects : list Object) :
  changed_within [m] [] objects (mirror_step VertexGroup m objects).
Proof.
  unfold mirror_step.
  destruct (objects !! m) as [obj|] eqn:Hm; [|apply changed_within_refl].
  by apply insert_vertex_groups_within.
Qed.

End frame.

Lemma elem_of_deformed_by (objects : list Object) (a j : nat) (o : Object) :
  objects !! j = Some o → uses_armature a o = true → j ∈ deformed_by objects a.
Proof.
  intros Hj Hu. unfold deformed_by. apply list_elem_of_filter. split.
  - by rewrite Hj; simpl; rewrite Hu.
  - apply elem_of_seq. split; [lia|]. simpl. by eapply lookup_lt_Some.
Qed.

Lemma changed_within_same_outside (meshes arms : list nat)
    (objects objects' : list Object) :
  changed_within meshes arms objects objects' →
  same_outside (meshes ++ arms ++ (arms ≫= deformed_by objects)) objects objects'.
Proof.
  intros [Hl H]. split; [done|]. intros i Hi.
  rewrite !elem_of_app in Hi.
  destruct (objects !! i) as [o|] eqn:Ho.
  - destruct (H i o Ho) as (o' & -> & Hn & Ht & Hm & Hv & Hb & Hg). f_equal.
    assert (Hbones : bones o' = bones o) by (apply Hb; tauto).
    assert (Hgroups : vertex_groups o' = vertex_groups o).
    { apply Hg; [tauto|]. intros a Ha.
      destruct (uses_armature a o) eqn:Hu; [|done].
      destruct Hi. right. right. apply list_elem_of_bind. exists a.
      split; [by eapply elem_of_deformed_by | done]. }
    destruct o, o'. simpl in *. by subst.
  - apply lookup_ge_None. rewrite Hl. by apply lookup_ge_None.
Qed.

Section frame_theorem.
Context {host : Host}.

(** Each of the six operators, when it returns, leaves the scene with as
    many objects as before, and every object is as it was but for the
    selected objects of the operator's type, for a mesh operator with
    synchronization the armatures of the selected meshes, and the objects
    with an armature modifier on an armature that the operator works on,
    whose vertex groups follow its bones. *)
Theorem operators_touch_only_their_objects (op : operator) (current_rules : preset)
    (sync_group_bone : bool) (selected_objects : list nat) (objects : list Object)
    (out : outcome) :
  execute op current_rules sync_group_bone selected_objects objects = Some out →
  same_outside (touched op sync_group_bone selected_objects objects)
    objects (out_objects out).
Proof.
  intros Hexec. unfold touched. apply changed_within_same_outside.
  set (meshes := selected_of_type MESH objects selected_objects) in *.
  set (arms := selected_of_type ARMATURE objects selected_objects) in *.
  set (linked := single_armatures objects meshes) in *.
  assert (Hmesh : ∀ A m o1 o2, m ∈ meshes → changed_within [m] [] o1 o2 →
                    changed_within meshes A o1 o2).
  { intros A m o1 o2 Hm. apply changed_within_mono.
    - by intros j ->%list_elem_of_singleton.
    - by intros j ?%elem_of_nil. }
  assert (Harm : ∀ M A a o1 o2, a ∈ A → changed_within [] [a] o1 o2 →
                   changed_within M A o1 o2).
  { intros M A a o1 o2 Ha. apply changed_within_mono.
    - by intros j ?%elem_of_nil.
    - by intros j ->%list_elem_of_singleton. }
  destruct op; cbn [execute on_meshes] in *.
  - (* rename vertex groups *)
    unfold rename_vertex_groups_execute in Hexec. fold meshes linked in Hexec.
    case_decide; [injection Hexec as <-; apply changed_within_refl|].
    destruct (sync_group_bone && _) eqn:Hrej;
      [injection Hexec as <-; apply changed_within_refl|].
    destruct (for_each _ meshes (objects, [])) as [st1|] eqn:H1; [|done].
    cbn [mbind option_bind] in Hexec.
    apply (for_each_changed_within meshes
             (if sync_group_bone then linked else [])) in H1;
      [|intros m s s' Hm Hs; apply (Hmesh _ m); [done|]; by eapply rename_step_within].
    cbn [fst] in H1.
    destruct sync_group_bone.
    + match type of Hexec with context [for_each ?b ?l st1] =>
        destruct (for_each b l st1) as [st2|] eqn:H2; [|done] end.
      cbn [mbind option_bind] in Hexec. injection Hexec as <-. cbn [out_objects].
      eapply changed_within_trans; [exact H1|].
      apply (for_each_changed_within meshes linked) in H2; [done|].
      intros a s s' Ha Hs.
      apply (for_each_changed_within meshes linked) in Hs; [done|].
      intros m s1 s2 _ Hstep. apply (Harm _ _ a); [done|].
      by eapply rename_bones_step_within.
    + cbn [mbind option_bind] in Hexec. injection Hexec as <-. done.
  - (* undo vertex groups *)
    injection Hexec as <-.
    unfold undo_vertex_group_rename_execute. fold meshes linked.
    case_decide; [apply changed_within_refl|].
    destruct (sync_group_bone && _) eqn:Hrej; [apply changed_within_refl|].
    cbn [out_objects].
    assert (H1 : ∀ A, changed_within meshes A objects
                   (foldl (fun objs mesh => undo_step VertexGroup current_rules mesh mesh objs)
                          objects meshes)).
    { intros A. apply foldl_changed_within. intros objs m Hm.
      apply (Hmesh _ m); [done|]. apply undo_step_within. }
    destruct sync_group_bone; [|apply H1].
    eapply changed_within_trans; [apply H1|].
    apply foldl_changed_within. intros objs a Ha.
    apply foldl_changed_within. intros objs' m _.
    apply (Harm _ _ a); [done|]. apply undo_bones_step_within.
  - (* mirror vertex groups *)
    injection Hexec as <-.
    unfold quick_mirror_vertex_groups_execute. fold meshes linked.
    case_decide; [apply changed_within_refl|].
    destruct (sync_group_bone && _) eqn:Hrej; [apply changed_within_refl|].
    cbn [out_objects].
    assert (H1 : ∀ A objs, changed_within meshes A objs
                   (foldl (fun objs mesh => mirror_step VertexGroup mesh objs) objs meshes)).
    { intros A objs. apply foldl_changed_within. intros objs' m Hm.
      apply (Hmesh _ m); [done|]. apply mirror_step_within. }
    destruct sync_group_bone; [|apply H1].
    eapply changed_within_trans; [apply H1|].
    eapply changed_within_trans; [|apply H1].
    apply foldl_changed_within. intros objs a Ha.
    apply (Harm _ _ a); [done|]. apply mirror_bone_names_within.
  - (* rename bones *)
    unfold rename_bones_execute in Hexec. fold arms in Hexec.
    case_decide; [injection Hexec as <-; apply changed_within_refl|].
    destruct (for_each _ arms (objects, [])) as [st1|] eqn:H1; [|done].
    cbn [mbind option_bind] in Hexec. injection Hexec as <-. cbn [out_objects].
    apply (for_each_changed_within [] arms) in H1; [done|].
    intros a s s' Ha Hs. apply (Harm _ _ a); [done|]. by eapply rename_bones_step_within.
  - (* undo bones *)
    injection Hexec as <-.
    unfold undo_bone_renames_execute. fold arms.
    case_decide; [apply changed_within_refl|]. cbn [out_objects].
    apply foldl_changed_within. intros objs a Ha.
    apply (Harm _ _ a); [done|]. apply undo_bones_step_within.
  - (* mirror bones *)
    injection Hexec as <-.
    unfold quick_mirror_bone_names_execute. fold arms.
    case_decide; [apply changed_within_refl|]. cbn [out_objects].
    apply foldl_changed_within. intros objs a Ha.
    apply (Harm _ _ a); [done|]. apply mirror_bone_names_within.
Qed.

End frame_theorem.

(** Renaming the bones of the selected armature Rig: the mesh Body, which
    Rig deforms, may change with it; the mesh Hat, which has no armature
    modifier, is as it was. *)
Lemma operators_touch_only_their_objects_example :
  let objects :=
    [mesh_object "Body" [armature_modifier 1] [group "a" []] 0;
     armature_object "Rig" [bone "a"];
     mesh_object "Hat" [] [group "a" []] 0] in
  ∃ out,
    execute (host:=blender_host) RENAME_BONES [("", [("a", "x")])] false [1]
      objects = Some out
    ∧ same_outside [1; 0] objects (out_objects out).
Proof.
  intros objects.
  destruct (execute (host:=blender_host) RENAME_BONES [("", [("a", "x")])]
              false [1] objects) as [out|] eqn:Hexec; [|by vm_compute in Hexec].
  exists out. split; [done|].
  exact (operators_touch_only_their_objects (host:=blender_host) RENAME_BONES
           [("", [("a", "x")])] false [1] objects out Hexec).
Defined.

(** ** Merging bones *)

(** What [new_to_sources] holds for a new name. *)
Lemma group_by_target_get (rules : ruleset) (member_names : list string)
    (new_name : string) :
  dict_get (group_by_target rules member_names) new_name
  = let sources := filter (fun n => dict_get rules n = Some new_name) member_names in
    if decide (sources = []) then None else Some sources.
Proof.
  induction member_names as [|n ns IH] using rev_ind; [done|].
  rewrite group_by_target_snoc. cbn zeta. rewrite filter_app, filter_cons, filter_nil.
  cbn zeta in IH.
  set (before := filter (fun n => dict_get rules n = Some new_name) ns) in *.
  destruct (dict_get rules n) as [target|] eqn:Hn.
  - destruct (decide (target = new_name)) as [->|Hne].
    + rewrite (decide_True (P := Some new_name = Some new_name)) by done.
      destruct (dict_get (group_by_target rules ns) new_name) as [sources|] eqn:Hg;
        rewrite dict_get_set, (decide_True (P := new_name = new_name)) by done.
      * destruct (decide (before = [])) as [Hs|Hs]; [done|]. injection IH as ->.
        rewrite decide_False; [done|]. by intros [? ?]%app_eq_nil.
      * destruct (decide (before = [])) as [Hs|Hs]; [|done]. by rewrite Hs.
    + rewrite (decide_False (P := Some target = Some new_name)) by congruence.
      rewrite app_nil_r.
      destruct (dict_get (group_by_target rules ns) target);
        by rewrite dict_get_set, (decide_False (P := target = new_name)).
  - rewrite (decide_False (P := None = Some new_name)) by done.
    by rewrite app_nil_r.
Qed.

(** Two members that the rules give one name are in one bucket. *)
Lemma group_by_target_merge_bucket (rules : ruleset) (ns : list string)
    (s1 s2 t : string) :
  s1 ∈ ns → s2 ∈ ns → s1 ≠ s2 →
  dict_get rules s1 = Some t → dict_get rules s2 = Some t →
  ∃ b, b ∈ group_by_target rules ns ∧ 1 < length b.2.
Proof.
  intros H1 H2 Hne Hr1 Hr2.
  set (sources := filter (fun n => dict_get rules n = Some t) ns).
  assert (Hs1 : s1 ∈ sources) by (by apply list_elem_of_filter).
  assert (Hs2 : s2 ∈ sources) by (by apply list_elem_of_filter).
  exists (t, sources). split.
  - apply dict_get_Some_elem. rewrite group_by_target_get. fold sources.
    rewrite decide_False; [done|]. intros Heq. rewrite Heq in Hs1.
    by apply elem_of_nil in Hs1.
  - simpl. destruct sources as [|x [|y rest]]; simpl; [|exfalso|lia].
    + by apply elem_of_nil in Hs1.
    + apply list_elem_of_singleton in Hs1, Hs2. congruence.
Qed.

Section merge_bones_facts.
Context {host : Host}.

(** The removal loop of [merge_bones] stops at the first source it
    finds. *)
Lemma merge_bones_sources_found (armature : Object) (target : string)
    (sources : list string) (s : string) :
  s ∈ sources → s ∈ names (bones armature) →
  merge_bones_sources armature target sources = None.
Proof.
  intros Hs Hin. unfold merge_bones_sources.
  match goal with |- foldl ?f (Some ?E) sources = None =>
    set (step := f); set (edit_bones := E) end.
  assert (Hnames : s ∈ names edit_bones).
  { assert (Hnew : s ∈ names (coll_new ("__temp_merge_" +:+ target +:+ "__") new_bone
                                 (bones armature))).
    { unfold coll_new, names. rewrite fmap_app, elem_of_app. by left. }
    unfold edit_bones.
    destruct (head sources ≫= coll_get _) as [[i first_bone]|]; [|done].
    unfold names in *.
    rewrite (list_fmap_alter name_of _ id) by (by apply Forall_forall).
    by rewrite list_alter_id. }
  assert (Hnone : ∀ l, foldl step None l = None) by (by induction l).
  clear Hin. revert Hs. generalize edit_bones Hnames. clear.
  intros E HE. induction sources as [|s0 sources IH]; [by intros ?%elem_of_nil|].
  intros [->|Hs]%elem_of_cons; cbn [foldl]; unfold step at 2; cbn [mbind option_bind].
  - destruct (coll_get_is_Some E s0 HE) as [[i x] ->].
    clear. by induction sources.
  - destruct (coll_get E s0) as [[i x]|]; [clear; by induction sources | by apply IH].
Qed.

Lemma bones_of_set_bone_name (a i : nat) (n : string) (objects : list Object) :
  bones_of a (set_bone_name a i n objects) = set_name i n (bones_of a objects).
Proof.
  unfold set_bone_name, bones_of.
  destruct (objects !! a) as [armature|] eqn:Ha; [|by rewrite Ha].
  cbn [fmap option_fmap option_map default].
  destruct (bones armature !! i) as [b|] eqn:Hi.
  - assert (Hlt : a < length objects) by (by eapply lookup_lt_Some).
    case_decide.
    + by rewrite list_lookup_insert_eq.
    + unfold follow_bone_rename. rewrite list_lookup_fmap, list_lookup_insert_eq by done.
      cbn [fmap option_fmap option_map default]. unfold follow_bone_rename_in.
      by destruct (uses_armature _ _).
  - rewrite Ha. cbn [fmap option_fmap option_map default id].
    unfold set_name. by rewrite Hi.
Qed.

(** The loop over the buckets for bones does not get past a bucket with
    two or more sources. *)
Lemma apply_bone_buckets_raise (a : nat) (buckets : list (string * list string))
    (st : list Object * list event) :
  (∃ b, b ∈ buckets ∧ 1 < length b.2) →
  NoDup (all_sources buckets) →
  (∀ s, s ∈ all_sources buckets → s ∈ names (bones_of a st.1)) →
  for_each (apply_bone_bucket a) buckets st = None.
Proof.
  revert st. induction buckets as [|b buckets IH]; intros st (b0 & Hb0 & Hlen) Hnd Hin.
  { by apply elem_of_nil in Hb0. }
  rewrite all_sources_cons in Hnd, Hin.
  apply NoDup_app in Hnd as (Hndb & Hdisj & Hnd).
  cbn [for_each].
  destruct (apply_bone_bucket a b st) as [st'|] eqn:Hstep; [|done].
  cbn [mbind option_bind]. unfold apply_bone_bucket in Hstep.
  case_decide as Hb.
  - exfalso. destruct b.2 as [|s rest] eqn:Hb2; [simpl in Hb; lia|].
    assert (Hs : s ∈ names (bones_of a st.1)).
    { apply Hin, elem_of_app. left. apply list_elem_of_here. }
    unfold merge_bones_in_scene in Hstep. rewrite decide_False in Hstep by done.
    unfold bones_of in Hs.
    destruct (st.1 !! a) as [armature|]; [|by apply elem_of_nil in Hs].
    cbn [mbind option_bind] in Hstep.
    rewrite (merge_bones_sources_found armature b.1 (s :: rest) s) in Hstep;
      [done | apply list_elem_of_here | done].
  - assert (Hrest : ∃ b1, b1 ∈ buckets ∧ 1 < length b1.2).
    { apply elem_of_cons in Hb0 as [->|?]; [done | by exists b0]. }
    apply IH; [done | done |]. intros s Hs.
    assert (Hs0 : s ∈ names (bones_of a st.1)) by (apply Hin, elem_of_app; by right).
    destruct (head b.2) as [old|] eqn:Hhead; [|done]. cbn [mbind option_bind] in Hstep.
    assert (Hold : old ∈ b.2) by (destruct b.2; simplify_eq/=; apply list_elem_of_here).
    destruct (coll_get (bones_of a st.1) old) as [[i x]|] eqn:Hget; [|by simplify_eq].
    apply coll_get_Some in Hget as (Hi & Hname & _).
    case_decide; simplify_eq; [|done]. cbn [fst].
    rewrite bones_of_set_bone_name.
    apply (names_set_name_other _ i b.1 s x); [done | done |].
    intros ->. by apply (Hdisj (name_of x)).
Qed.

(** One pass of the rename loop over the bones of an armature with two
    bones that the ruleset gives one name. *)
Lemma rename_bones_step_raises (current_rules : preset) (source a : nat)
    (st : list Object * list event) (src arm : Object) (rules : ruleset)
    (s1 s2 t : string) :
  st.1 !! source = Some src → st.1 !! a = Some arm →
  resolve_rules current_rules (obj_name src) = Some rules →
  NoDup (names (bones arm)) →
  s1 ∈ names (bones arm) → s2 ∈ names (bones arm) → s1 ≠ s2 →
  dict_get rules s1 = Some t → dict_get rules s2 = Some t →
  rename_bones_step current_rules source a st = None.
Proof.
  intros Hsrc Ha Hres Hnd H1 H2 Hne Hr1 Hr2.
  unfold rename_bones_step. rewrite Hsrc, Ha, Hres. unfold apply_bone_rules.
  assert (Hbones : bones_of a st.1 = bones arm) by (unfold bones_of; by rewrite Ha).
  destruct (group_by_target_sources rules (names (bones arm))) as [Hp _].
  apply apply_bone_buckets_raise; rewrite Hbones.
  - by apply (group_by_target_merge_bucket rules _ s1 s2 t).
  - rewrite Hp. by apply NoDup_filter.
  - intros s Hs. rewrite Hp in Hs. by apply list_elem_of_filter in Hs as [_ ?].
Qed.

(** The loop over the selected armatures, likewise: the passes before it
    leave the bones and the name of the armature alone. *)
Lemma rename_bones_loop_raises (current_rules : preset) (armatures : list nat)
    (a : nat) (names_a : list string) (name_a : string) (rules : ruleset)
    (s1 s2 t : string) (st : list Object * list event) :
  a ∈ armatures →
  (∃ arm, st.1 !! a = Some arm ∧ names (bones arm) = names_a ∧ obj_name arm = name_a) →
  resolve_rules current_rules name_a = Some rules →
  NoDup names_a → s1 ∈ names_a → s2 ∈ names_a → s1 ≠ s2 →
  dict_get rules s1 = Some t → dict_get rules s2 = Some t →
  for_each (fun armature => rename_bones_step current_rules armature armature)
           armatures st = None.
Proof.
  intros Ha Harm Hres Hnd H1 H2 Hne Hr1 Hr2. revert st Harm.
  induction armatures as [|x xs IH]; intros st (arm & Hlook & Hnames & Hname).
  { by apply elem_of_nil in Ha. }
  cbn [for_each].
  destruct (decide (x = a)) as [->|Hxa].
  - rewrite (rename_bones_step_raises current_rules a a st arm arm rules s1 s2 t);
      subst; done.
  - destruct (rename_bones_step current_rules x x st) as [st'|] eqn:Hstep; [|done].
    cbn [mbind option_bind]. apply IH.
    + apply elem_of_cons in Ha as [->|?]; done.
    + apply rename_bones_step_within in Hstep as [_ Hkept].
      destruct (Hkept a arm Hlook) as (arm' & Hlook' & Hn & _ & _ & _ & Hb & _).
      exists arm'. split; [done|]. rewrite Hb, Hn; [done|].
      intros ->%list_elem_of_singleton. done.
Qed.

(** [merge_bones] does not return when it finds a bone to remove, and so
    a ruleset that gives two bones of an armature one name cannot be
    applied to these bones: the rename operator for armatures raises on
    every selection with such an armature, whatever it has done to the
    armatures before it. *)
Theorem merging_bones_raises :
  (∀ (armature : Object) (target_bone_name : string)
     (source_bone_names : list string) (s : string),
     s ∈ source_bone_names → s ∈ names (bones armature) →
     merge_bones armature target_bone_name source_bone_names = None)
  ∧ (∀ (current_rules : preset) (sync_group_bone : bool) (selected_objects : list nat)
       (objects : list Object) (a : nat) (armature : Object) (rules : ruleset)
       (s1 s2 t : string),
       a ∈ selected_objects → objects !! a = Some armature →
       obj_type armature = ARMATURE →
       NoDup (names (bones armature)) →
       resolve_rules current_rules (obj_name armature) = Some rules →
       s1 ∈ names (bones armature) → s2 ∈ names (bones armature) → s1 ≠ s2 →
       dict_get rules s1 = Some t → dict_get rules s2 = Some t →
       rename_bones_execute current_rules sync_group_bone selected_objects objects
       = None).
Proof.
  split.
  - intros armature target sources s Hs Hin. unfold merge_bones.
    rewrite decide_False by (intros ->; by apply elem_of_nil in Hs).
    by rewrite (merge_bones_sources_found armature target sources s).
  - intros current_rules sync selected objects a armature rules s1 s2 t
           Hsel Ha Hty Hnd Hres H1 H2 Hne Hr1 Hr2.
    unfold rename_bones_execute.
    assert (Hin : a ∈ selected_of_type ARMATURE objects selected).
    { apply elem_of_selected_of_type. by rewrite Ha, <- Hty. }
    rewrite decide_False by (intros Heq; rewrite Heq in Hin; by apply elem_of_nil in Hin).
    rewrite (rename_bones_loop_raises current_rules _ a (names (bones armature))
               (obj_name armature) rules s1 s2 t); [done | done | | done..].
    by exists armature.
Qed.

End merge_bones_facts.

(** The armature Rig with the bones a, b and c, and rules that send a and
    b to T: [merge_bones] raises, and so does the rename operator for
    armatures with Rig selected after another armature. *)
Lemma merging_bones_raises_example :
  let rig := armature_object "Rig" [bone "a"; bone "b"; bone "c"] in
  let objects := [armature_object "Other" [bone "a"]; rig] in
  let rules := [("Rig", [("a", "T"); ("b", "T")]); ("", [("a", "x")])] in
  merge_bones (host:=blender_host) rig "T" ["a"; "b"] = None
  ∧ rename_bones_execute (host:=blender_host) rules false [0; 1] objects = None.
Proof.
  intros rig objects rules.
  destruct (merging_bones_raises (host:=blender_host)) as [Hmerge Hexec].
  split.
  - apply (Hmerge rig "T" ["a"; "b"] "a"); compute_done.
  - apply (Hexec rules false [0; 1] objects 1 rig [("a", "T"); ("b", "T")] "a" "b" "T");
      compute_done.
Defined.

(** ** Mirroring with synchronization *)

(** The two batches of renames that [mirror_names] comes to, for names
    [ns] that are distinct and do not begin with "__swap_temp__", on a
    collection of its own. *)
Section mirror_batches.
Context {A : Type} {named : Named A}.
Context (ns : list string).
Context (Hns : NoDup ns).
Context (Hns_temp : ∀ n, n ∈ ns → startswith n "__swap_temp__" = false).

Lemma elem_of_paired_names n : n ∈ paired_names ns ↔ n ∈ ns ∧ paired ns n = true.
Proof. unfold paired_names. rewrite list_elem_of_filter. tauto. Qed.

Lemma mirrored_name_inj n1 n2 :
  n1 ∈ ns → n2 ∈ ns → mirrored_name ns n1 = mirrored_name ns n2 → n1 = n2.
Proof.
  intros H1 H2 Heq.
  rewrite <- (mirrored_name_involutive ns n1), <- (mirrored_name_involutive ns n2) by done.
  by rewrite Heq.
Qed.

Lemma temp_not_in_names s : "__swap_temp__" +:+ s ∉ ns.
Proof. intros Hs. apply Hns_temp in Hs. by rewrite startswith_temp in Hs. Qed.

Lemma mirrored_paired n : n ∈ paired_names ns → mirrored_name ns n ∈ paired_names ns.
Proof.
  intros [Hn Hp]%elem_of_paired_names. apply elem_of_paired_names.
  split; [by apply mirrored_name_elem | by apply paired_mirrored].
Qed.

Lemma to_temp_names_1 : (to_temp_names ns).*1 = paired_names ns.
Proof. unfold to_temp_names. rewrite <- list_fmap_compose. apply list_fmap_id. Qed.

Lemma to_temp_names_2 :
  (to_temp_names ns).*2
  = (fun n => "__swap_temp__" +:+ mirrored_name ns n) <$> paired_names ns.
Proof. unfold to_temp_names. by rewrite <- list_fmap_compose. Qed.

Lemma from_temp_names_1 :
  (from_temp_names ns).*1
  = (fun n => "__swap_temp__" +:+ mirrored_name ns n) <$> paired_names ns.
Proof. unfold from_temp_names. by rewrite <- list_fmap_compose. Qed.

Lemma from_temp_names_2 : (from_temp_names ns).*2 = mirrored_name ns <$> paired_names ns.
Proof. unfold from_temp_names. by rewrite <- list_fmap_compose. Qed.

Lemma NoDup_temp_names :
  NoDup ((fun n => "__swap_temp__" +:+ mirrored_name ns n) <$> paired_names ns).
Proof.
  apply NoDup_fmap_2_strong; [|by apply NoDup_filter].
  intros n1 n2 [H1 _]%elem_of_paired_names [H2 _]%elem_of_paired_names Heq%temp_inj.
  by apply mirrored_name_inj.
Qed.

Lemma NoDup_mirrored_names : NoDup (mirrored_name ns <$> paired_names ns).
Proof.
  apply NoDup_fmap_2_strong; [|by apply NoDup_filter].
  intros n1 n2 [H1 _]%elem_of_paired_names [H2 _]%elem_of_paired_names.
  by apply mirrored_name_inj.
Qed.

(** What the two batches do to one member. *)
Lemma renamed_by_to_temp (x : A) :
  renamed_by (to_temp_names ns) x
  = if bool_decide (name_of x ∈ paired_names ns)
    then with_name ("__swap_temp__" +:+ mirrored_name ns (name_of x)) x else x.
Proof.
  unfold renamed_by, to_temp_names. case_bool_decide as Hp.
  - by rewrite (dict_get_graph (fun n => n)
                  (fun n => "__swap_temp__" +:+ mirrored_name ns n) (paired_names ns)
                  (name_of x)) by (done || by intros y _ ->).
  - rewrite dict_get_graph_None; [done|]. by rewrite list_fmap_id.
Qed.

Lemma renamed_by_from_temp (x : A) (n : string) :
  n ∈ paired_names ns → name_of x = "__swap_temp__" +:+ mirrored_name ns n →
  renamed_by (from_temp_names ns) x = with_name (mirrored_name ns n) x.
Proof.
  intros Hn Hx. unfold renamed_by, from_temp_names. rewrite Hx.
  by rewrite (dict_get_graph (fun n => "__swap_temp__" +:+ mirrored_name ns n)
                (mirrored_name ns) (paired_names ns) n)
    by (done || by intros y _ Heq%temp_inj).
Qed.

Lemma renamed_by_from_temp_other (x : A) :
  startswith (name_of x) "__swap_temp__" = false →
  renamed_by (from_temp_names ns) x = x.
Proof.
  intros Hx. unfold renamed_by, from_temp_names.
  rewrite dict_get_graph_None; [done|].
  intros (n & Heq & _)%list_elem_of_fmap. by rewrite Heq, startswith_temp in Hx.
Qed.

Lemma follows_bones_paired n :
  follows_bones ns n = if bool_decide (n ∈ paired_names ns) then mirrored_name ns n else n.
Proof.
  unfold follows_bones. case_bool_decide as Hn.
  - case_bool_decide as Hp; [done|].
    apply mirrored_name_unpaired. apply not_true_is_false. intros Hq.
    apply Hp, elem_of_paired_names. done.
  - rewrite bool_decide_eq_false_2; [done|]. by intros [? _]%elem_of_paired_names.
Qed.

Lemma renamed_by_both (x : A) :
  startswith (name_of x) "__swap_temp__" = false →
  renamed_by (from_temp_names ns) (renamed_by (to_temp_names ns) x)
  = with_name (follows_bones ns (name_of x)) x.
Proof.
  intros Hx. rewrite renamed_by_to_temp, follows_bones_paired.
  case_bool_decide as Hp.
  - rewrite (renamed_by_from_temp _ (name_of x)) by (done || apply name_of_with_name).
    apply with_name_with_name.
  - rewrite renamed_by_from_temp_other by done. symmetry. apply with_name_name_of.
Qed.

(** The conditions under which each batch is one pass of renames, on a
    collection [l] with distinct names that do not begin with
    "__swap_temp__" either. *)
Context (l : list A).
Context (Hl : NoDup (names l)).
Context (Hl_temp : ∀ n, n ∈ names l → startswith n "__swap_temp__" = false).

Lemma to_temp_names_ok :
  NoDup (to_temp_names ns).*1 ∧ NoDup (to_temp_names ns).*2
  ∧ (∀ new, new ∈ (to_temp_names ns).*2 → new ∉ names l)
  ∧ (∀ new, new ∈ (to_temp_names ns).*2 → new ∉ (to_temp_names ns).*1).
Proof.
  rewrite to_temp_names_1, to_temp_names_2.
  split; [by apply NoDup_filter|]. split; [apply NoDup_temp_names|]. split.
  - intros new (n & -> & _)%list_elem_of_fmap Hin. apply Hl_temp in Hin.
    by rewrite startswith_temp in Hin.
  - intros new (n & -> & _)%list_elem_of_fmap [Hin _]%elem_of_paired_names.
    by apply temp_not_in_names in Hin.
Qed.

Lemma names_renamed_by_to_temp :
  names (renamed_by (to_temp_names ns) <$> l)
  = (fun n => if bool_decide (n ∈ paired_names ns)
              then "__swap_temp__" +:+ mirrored_name ns n else n) <$> names l.
Proof.
  unfold names. rewrite <- !list_fmap_compose. apply list_fmap_ext. intros i x _.
  simpl. rewrite renamed_by_to_temp. case_bool_decide; [apply name_of_with_name | done].
Qed.

Lemma paired_name_gone n :
  n ∈ paired_names ns → n ∉ names (renamed_by (to_temp_names ns) <$> l).
Proof.
  intros Hn. rewrite names_renamed_by_to_temp.
  intros (k & Heq & Hk)%list_elem_of_fmap. case_bool_decide as Hp; subst n.
  - apply elem_of_paired_names in Hn as [Hn _]. by apply temp_not_in_names in Hn.
  - done.
Qed.

Lemma from_temp_names_ok :
  NoDup (names (renamed_by (to_temp_names ns) <$> l))
  ∧ NoDup (from_temp_names ns).*1 ∧ NoDup (from_temp_names ns).*2
  ∧ (∀ new, new ∈ (from_temp_names ns).*2 →
       new ∉ names (renamed_by (to_temp_names ns) <$> l))
  ∧ (∀ new, new ∈ (from_temp_names ns).*2 → new ∉ (from_temp_names ns).*1).
Proof.
  rewrite from_temp_names_1, from_temp_names_2.
  split; [|split; [apply NoDup_temp_names|split; [apply NoDup_mirrored_names|split]]].
  - rewrite names_renamed_by_to_temp. apply NoDup_fmap_2_strong; [|done].
    intros n1 n2 H1 H2. repeat case_bool_decide; intros Heq.
    + apply temp_inj in Heq.
      apply mirrored_name_inj; [by eapply elem_of_paired_names..|done].
    + apply Hl_temp in H2. by rewrite <- Heq, startswith_temp in H2.
    + apply Hl_temp in H1. by rewrite Heq, startswith_temp in H1.
    + done.
  - intros new (n & -> & Hn)%list_elem_of_fmap.
    by apply paired_name_gone, mirrored_paired.
  - intros new (n & -> & Hn)%list_elem_of_fmap (n' & Heq & _)%list_elem_of_fmap.
    apply mirrored_paired, elem_of_paired_names in Hn as [Hn _].
    rewrite Heq in Hn. by apply temp_not_in_names in Hn.
Qed.

End mirror_batches.


(** The host's renaming of a vertex group is a renaming as in
    [mirror_names], by a host that lets a group take any name. *)
Lemma follow_group_permissive (old new : string) (gs : list VertexGroup) :
  follow_group old new gs
  = rename_if_found (host:=permissive_host) VertexGroup old new gs.
Proof.
  unfold follow_group, rename_if_found.
  destruct (coll_get gs old) as [[i g]|] eqn:Hget; [|done].
  apply coll_get_Some in Hget as (Hi & _ & _). unfold set_name. by rewrite Hi.
Qed.

Lemma follow_groups_batch (ren : list (string * string)) (gs : list VertexGroup) :
  NoDup (names gs) → NoDup ren.*1 → NoDup ren.*2 →
  (∀ new, new ∈ ren.*2 → new ∉ names gs) →
  (∀ new, new ∈ ren.*2 → new ∉ ren.*1) →
  foldl (fun gs p => follow_group p.1 p.2 gs) gs ren = renamed_by ren <$> gs.
Proof.
  intros. rewrite <- (rename_batch (host:=permissive_host) ren gs) by done.
  apply foldl_ext_elem. intros. apply follow_group_permissive.
Qed.

Lemma renamed_by_nil {A : Type} {named : Named A} (l : list A) :
  renamed_by [] <$> l = l.
Proof. apply list_fmap_id. Qed.

Lemma names_renamed_by {A : Type} {named : Named A} (ren : list (string * string))
    (l : list A) (n : string) :
  n ∈ names (renamed_by ren <$> l) → n ∈ ren.*2 ∨ n ∈ names l.
Proof.
  unfold names. rewrite <- list_fmap_compose.
  intros (x & -> & Hx)%list_elem_of_fmap. simpl. unfold renamed_by.
  destruct (dict_get ren (name_of x)) as [new|] eqn:Hget.
  - left. rewrite name_of_with_name. apply dict_get_Some_elem in Hget.
    apply list_elem_of_fmap. by exists (name_of x, new).
  - right. apply list_elem_of_fmap. by exists x.
Qed.

Lemma names_renamed_by_other {A : Type} {named : Named A} (ren : list (string * string))
    (l : list A) (n : string) :
  n ∈ names l → n ∉ ren.*1 → n ∈ names (renamed_by ren <$> l).
Proof.
  intros (x & -> & Hx)%list_elem_of_fmap Hout.
  apply list_elem_of_fmap. exists (renamed_by ren x). split.
  - unfold renamed_by. by rewrite (proj2 (dict_get_None ren (name_of x))).
  - apply list_elem_of_fmap. by exists x.
Qed.

Section sync_mirror.
Context {host : Host}.

Lemma set_bone_name_lookup (a i : nat) (new : string) (objects : list Object)
    (armature : Object) (b : Bone) (j : nat) (o : Object) :
  objects !! a = Some armature → bones armature !! i = Some b →
  new ∉ names (bones armature) →
  objects !! j = Some o →
  set_bone_name a i new objects !! j
  = Some (follow_bone_rename_in a (bone_name b) new
            (if decide (j = a)
             then with_bones (set_name i new (bones armature)) o else o)).
Proof.
  intros Ha Hi Hnew Hj. unfold set_bone_name. rewrite Ha, Hi.
  rewrite decide_False.
  2:{ intros Heq. apply Hnew. rewrite <- Heq. apply list_elem_of_fmap.
      exists b. split; [done|]. by eapply list_elem_of_lookup_2. }
  rewrite unique_name_fresh
    by (intros Hin; by apply Hnew, (names_delete_subseteq _ i)).
  unfold follow_bone_rename. rewrite list_lookup_fmap.
  destruct (decide (j = a)) as [->|Hne].
  - rewrite list_lookup_insert_eq by (by eapply lookup_lt_Some).
    assert (o = armature) by congruence. by subst.
  - rewrite list_lookup_insert_ne by done. by rewrite Hj.
Qed.

(** A batch of renames of bones that are all there, to names that are
    free: the bones are renamed, and the vertex groups of the objects that
    the armature deforms follow each rename in turn. *)
Lemma rename_bones_batch (a : nat) (ren : list (string * string))
    (objects : list Object) (armature : Object) :
  objects !! a = Some armature →
  NoDup (names (bones armature)) → NoDup ren.*1 → NoDup ren.*2 →
  (∀ new, new ∈ ren.*2 → new ∉ names (bones armature)) →
  (∀ new, new ∈ ren.*2 → new ∉ ren.*1) →
  (∀ old, old ∈ ren.*1 → old ∈ names (bones armature)) →
  ∀ j o, objects !! j = Some o →
    foldl (fun objs p => rename_bone_if_found a p.1 p.2 objs) objects ren !! j
    = Some {| obj_name := obj_name o; obj_type := obj_type o;
              modifiers := modifiers o;
              vertex_groups :=
                if uses_armature a o
                then foldl (fun gs p => follow_group p.1 p.2 gs) (vertex_groups o) ren
                else vertex_groups o;
              n_vertices := n_vertices o;
              bones := if decide (j = a) then renamed_by ren <$> bones armature
                       else bones o |}.
Proof.
  intros Ha Hnd. induction ren as [|[old new] ren IH] using rev_ind;
    intros Ho Hn Hfree Hdisj Hfound j o Hj.
  - cbn [foldl]. rewrite Hj, renamed_by_nil. f_equal.
    destruct (decide (j = a)) as [->|_].
    + assert (o = armature) by congruence. subst o.
      destruct armature. by destruct (uses_armature _ _).
    + destruct o. by destruct (uses_armature _ _).
  - assert (Hfree1 : ∀ n, n ∈ ren.*2 → n ∉ names (bones armature)).
    { intros n Hin. apply Hfree. rewrite fmap_app, elem_of_app. by left. }
    assert (Hdisj1 : ∀ n, n ∈ ren.*2 → n ∉ ren.*1).
    { intros n Hin Hin'. apply (Hdisj n); rewrite fmap_app, elem_of_app; by left. }
    assert (Hfound1 : ∀ n, n ∈ ren.*1 → n ∈ names (bones armature)).
    { intros n Hin. apply Hfound. rewrite fmap_app, elem_of_app. by left. }
    assert (Hold_bone : old ∈ names (bones armature)).
    { apply Hfound. rewrite fmap_app, elem_of_app. right. apply list_elem_of_here. }
    assert (Hnew_bone : new ∉ names (bones armature)).
    { apply Hfree. rewrite fmap_app, elem_of_app. right. apply list_elem_of_here. }
    pose proof Ho as Ho2. pose proof Hn as Hn2.
    rewrite fmap_app in Ho, Hn. cbn [fmap list_fmap fst snd] in Ho, Hn.
    apply NoDup_app in Ho as (Ho & Hold & _). apply NoDup_app in Hn as (Hn & Hnew & _).
    assert (Hold' : old ∉ ren.*1).
    { intros Hin. apply (Hold old Hin), list_elem_of_here. }
    assert (Hnew' : new ∉ ren.*2).
    { intros Hin. apply (Hnew new Hin), list_elem_of_here. }
    assert (IH' := IH Ho Hn Hfree1 Hdisj1 Hfound1).
    clear IH. rewrite !foldl_app. cbn [foldl fst snd].
    set (objs := foldl (fun objs p => rename_bone_if_found a p.1 p.2 objs) objects ren)
      in *.
    set (bs := renamed_by ren <$> bones armature).
    pose proof (IH' a armature Ha) as Harm. rewrite decide_True in Harm by done.
    fold bs in Harm.
    match type of Harm with _ = Some ?x => set (arm1 := x) in * end.
    assert (Hold_in : old ∈ names bs) by (by apply names_renamed_by_other).
    assert (Hnew_out : new ∉ names bs) by (by intros [Hin|Hin]%names_renamed_by).
    destruct (coll_get_is_Some bs old Hold_in) as [[i b] Hget].
    pose proof (coll_get_Some _ _ _ _ Hget) as (Hi & Hb & _).
    unfold rename_bone_if_found. unfold bones_of. rewrite Harm.
    change (default [] (bones <$> Some arm1)) with bs. rewrite Hget.
    rewrite (set_bone_name_lookup a i new objs arm1 b j _ Harm Hi Hnew_out (IH' j o Hj)).
    f_equal. change (bones arm1) with bs.
    change (bone_name b) with (name_of b). rewrite Hb.
    assert (Hbs' : set_name i new bs
                   = renamed_by (ren ++ [(old, new)]) <$> bones armature).
    { rewrite <- (rename_batch (ren ++ [(old, new)]) (bones armature)) by done.
      rewrite foldl_app. cbn [foldl fst snd].
      rewrite (rename_batch ren (bones armature)) by done.
      fold bs. unfold rename_if_found. by rewrite Hget. }
    rewrite <- Hbs'. unfold follow_bone_rename_in.
    destruct (decide (j = a)) as [->|Hne];
      unfold with_bones, with_vertex_groups, uses_armature; cbn;
      by destruct (bool_decide _).
Qed.

(** [mirror_names] on the bones of an armature, in the scene: the bones
    are mirrored, and in every object that the armature deforms the vertex
    group of a bone that got the name of its counterpart has got that name
    as well. *)
Lemma mirror_bone_names_lookup (a : nat) (objects : list Object) (armature : Object) :
  objects !! a = Some armature →
  NoDup (names (bones armature)) →
  (∀ n, n ∈ names (bones armature) → startswith n "__swap_temp__" = false) →
  ∀ j o, objects !! j = Some o →
    ∃ o', mirror_bone_names a objects !! j = Some o'
      ∧ bones o'
        = (if decide (j = a)
           then (fun b => with_name
                            (mirrored_name (names (bones armature)) (bone_name b)) b)
                  <$> bones armature
           else bones o)
      ∧ (uses_armature a o = false → vertex_groups o' = vertex_groups o)
      ∧ (uses_armature a o = true →
         NoDup (names (vertex_groups o)) →
         (∀ n, n ∈ names (vertex_groups o) → startswith n "__swap_temp__" = false) →
         vertex_groups o'
         = (fun g => with_name (follows_bones (names (bones armature)) (vg_name g)) g)
             <$> vertex_groups o).
Proof.
  intros Ha Hnd Htemp j o Hj.
  set (ns := names (bones armature)) in *.
  unfold mirror_bone_names.
  assert (Hbones : bones_of a objects = bones armature)
    by (unfold bones_of; by rewrite Ha).
  rewrite Hbones. fold ns. rewrite name_swap_pairs_filter. fold (paired_names ns).
  (* the first loop *)
  assert (H1 : foldl (fun objs p => rename_bone_if_found a p.1 ("__swap_temp__" +:+ p.2) objs)
                 objects ((fun n => (n, mirrored_name ns n)) <$> paired_names ns)
               = foldl (fun objs p => rename_bone_if_found a p.1 p.2 objs)
                   objects (to_temp_names ns)).
  { unfold to_temp_names. by rewrite !foldl_fmap. }
  rewrite H1. clear H1.
  set (objs1 := foldl (fun objs p => rename_bone_if_found a p.1 p.2 objs)
                  objects (to_temp_names ns)).
  destruct (to_temp_names_ok (A:=Bone) ns Hnd Htemp (bones armature) Htemp)
    as (Ho1 & Hn1 & Hfree1 & Hdisj1).
  assert (Hlook1 := rename_bones_batch a (to_temp_names ns) objects armature
                      Ha Hnd Ho1 Hn1 Hfree1 Hdisj1).
  fold objs1 in Hlook1.
  assert (Hfound1 : ∀ old, old ∈ (to_temp_names ns).*1 → old ∈ names (bones armature)).
  { rewrite to_temp_names_1. by intros old [? _]%elem_of_paired_names. }
  specialize (Hlook1 Hfound1).
  set (bs1 := renamed_by (to_temp_names ns) <$> bones armature) in *.
  pose proof (Hlook1 a armature Ha) as Harm1. rewrite decide_True in Harm1 by done.
  match type of Harm1 with _ = Some ?x => set (arm1 := x) in * end.
  assert (Hbones1 : bones_of a objs1 = bs1) by (unfold bones_of; by rewrite Harm1).
  (* the second loop finds nothing *)
  rewrite (foldl_unchanged (fun objs p => rename_bone_if_found a p.2 p.1 objs) objs1).
  2:{ intros p (n & -> & Hn)%list_elem_of_fmap. cbn [fst snd].
      unfold rename_bone_if_found. rewrite Hbones1.
      rewrite (proj2 (coll_get_None bs1 (mirrored_name ns n))); [done|].
      by apply (paired_name_gone ns Htemp), mirrored_paired. }
  (* the third loop *)
  assert (H3 : foldl (fun objs p => rename_bone_if_found a ("__swap_temp__" +:+ p.2) p.2 objs)
                 objs1 ((fun n => (n, mirrored_name ns n)) <$> paired_names ns)
               = foldl (fun objs p => rename_bone_if_found a p.1 p.2 objs)
                   objs1 (from_temp_names ns)).
  { unfold from_temp_names. by rewrite !foldl_fmap. }
  rewrite H3. clear H3.
  destruct (from_temp_names_ok (A:=Bone) ns Hnd Htemp (bones armature) Hnd Htemp)
    as (Hnd3 & Ho3 & Hn3 & Hfree3 & Hdisj3). fold bs1 in Hnd3, Hfree3.
  assert (Hfound3 : ∀ old, old ∈ (from_temp_names ns).*1 → old ∈ names bs1).
  { rewrite from_temp_names_1. intros old (n & -> & Hn)%list_elem_of_fmap.
    unfold bs1. rewrite names_renamed_by_to_temp. apply list_elem_of_fmap.
    exists n. rewrite bool_decide_eq_true_2 by done. split; [done|].
    by apply elem_of_paired_names in Hn as [? _]. }
  rewrite (rename_bones_batch a (from_temp_names ns) objs1 arm1 Harm1 Hnd3 Ho3 Hn3
             Hfree3 Hdisj3 Hfound3 j _ (Hlook1 j o Hj)).
  eexists. split; [reflexivity|].
  cbn [obj_name obj_type modifiers n_vertices vertex_groups bones].
  change (uses_armature a {| obj_name := _ |}) with (uses_armature a o).
  split; [|split].
  - destruct (decide (j = a)) as [->|Hne]; [|done].
    change (bones arm1) with bs1.
    unfold bs1. rewrite <- list_fmap_compose. apply list_fmap_ext. intros k b Hk.
    unfold compose. change (bone_name b) with (name_of b).
    assert (Hb : name_of b ∈ ns).
    { apply list_elem_of_fmap. exists b. split; [done|]. by eapply list_elem_of_lookup_2. }
    rewrite (renamed_by_both (A:=Bone)) by (by apply Htemp).
    unfold follows_bones. by rewrite bool_decide_eq_true_2.
  - by intros ->.
  - intros -> Hg Hg_temp.
    destruct (to_temp_names_ok (A:=VertexGroup) ns Hnd Htemp (vertex_groups o) Hg_temp)
      as (_ & _ & Hgfree1 & _).
    destruct (from_temp_names_ok (A:=VertexGroup) ns Hnd Htemp (vertex_groups o)
                Hg Hg_temp) as (Hgnd3 & _ & _ & Hgfree3 & _).
    rewrite (follow_groups_batch (to_temp_names ns)) by done.
    rewrite (follow_groups_batch (from_temp_names ns)) by done.
    rewrite <- list_fmap_compose. apply list_fmap_ext. intros k g Hk. unfold compose.
    change (vg_name g) with (name_of g).
    apply (renamed_by_both (A:=VertexGroup)). apply Hg_temp.
    apply list_elem_of_fmap. exists g. split; [done|]. by eapply list_elem_of_lookup_2.
Qed.

End sync_mirror.

(** The names over three passes: the mesh mirrored, the groups following
    the bones, the mesh mirrored again. *)
Lemma follows_bones_involutive (bone_names : list string) (n : string) :
  follows_bones bone_names (follows_bones bone_names n) = n.
Proof.
  unfold follows_bones. destruct (bool_decide (n ∈ bone_names)) eqn:Hn.
  - apply bool_decide_eq_true in Hn.
    rewrite bool_decide_eq_true_2 by (by apply mirrored_name_elem).
    by apply mirrored_name_involutive.
  - by rewrite Hn.
Qed.

Lemma follows_bones_both (bone_names : list string) (n c : string) :
  counterpart n = Some c → n ∈ bone_names → c ∈ bone_names →
  follows_bones bone_names n = c.
Proof.
  intros Hc Hn Hin. unfold follows_bones, mirrored_name.
  by rewrite Hc, !bool_decide_eq_true_2.
Qed.

Lemma follows_bones_not_both (bone_names : list string) (n c : string) :
  counterpart n = Some c → ¬ (n ∈ bone_names ∧ c ∈ bone_names) →
  follows_bones bone_names n = n.
Proof.
  intros Hc Hnot. unfold follows_bones, mirrored_name. rewrite Hc.
  repeat case_bool_decide; naive_solver.
Qed.

Lemma follows_bones_plain (bone_names : list string) (n : string) :
  counterpart n = None → follows_bones bone_names n = n.
Proof.
  intros Hc. unfold follows_bones, mirrored_name. rewrite Hc. by case_bool_decide.
Qed.

Lemma elem_of_followed (group_names bone_names : list string) (x : string) :
  x ∈ follows_bones bone_names <$> (mirrored_name group_names <$> group_names)
  ↔ follows_bones bone_names x ∈ group_names.
Proof.
  rewrite <- list_fmap_compose, list_elem_of_fmap. split.
  - intros (y & -> & Hy). unfold compose. rewrite follows_bones_involutive.
    by apply mirrored_name_elem.
  - intros Hx. exists (mirrored_name group_names (follows_bones bone_names x)).
    unfold compose. rewrite mirrored_name_involutive by done.
    split; [by rewrite follows_bones_involutive | by apply mirrored_name_elem].
Qed.

Lemma mirror_follow_mirror (group_names bone_names : list string) (n : string) :
  n ∈ group_names →
  mirrored_name
    (follows_bones bone_names <$> (mirrored_name group_names <$> group_names))
    (follows_bones bone_names (mirrored_name group_names n))
  = follows_bones bone_names n.
Proof.
  intros Hn.
  set (names2 := follows_bones bone_names <$> (mirrored_name group_names <$> group_names)).
  assert (Hin : ∀ x c, counterpart x = Some c → follows_bones bone_names c ∈ group_names →
                  mirrored_name names2 x = c).
  { intros x c Hx Hc. unfold mirrored_name. rewrite Hx.
    by rewrite bool_decide_eq_true_2 by (by apply elem_of_followed). }
  assert (Hout : ∀ x c, counterpart x = Some c → follows_bones bone_names c ∉ group_names →
                   mirrored_name names2 x = x).
  { intros x c Hx Hc. unfold mirrored_name. rewrite Hx.
    by rewrite bool_decide_eq_false_2 by (unfold names2; by rewrite elem_of_followed). }
  destruct (counterpart n) as [c|] eqn:Hc.
  - pose proof (counterpart_involutive _ _ Hc) as Hc'.
    destruct (decide (c ∈ group_names)) as [Hcin|Hcout].
    + replace (mirrored_name group_names n) with c
        by (unfold mirrored_name; by rewrite Hc, bool_decide_eq_true_2).
      destruct (decide (n ∈ bone_names ∧ c ∈ bone_names)) as [[Hnb Hcb]|Hnot].
      * rewrite (follows_bones_both _ _ _ Hc' Hcb Hnb).
        rewrite (follows_bones_both _ _ _ Hc Hnb Hcb).
        apply Hin; [done|]. by rewrite (follows_bones_both _ _ _ Hc' Hcb Hnb).
      * rewrite (follows_bones_not_both _ _ _ Hc') by tauto.
        rewrite (follows_bones_not_both _ _ _ Hc) by tauto.
        apply Hin; [done|]. by rewrite (follows_bones_not_both _ _ _ Hc) by tauto.
    + replace (mirrored_name group_names n) with n
        by (unfold mirrored_name; by rewrite Hc, bool_decide_eq_false_2).
      destruct (decide (n ∈ bone_names ∧ c ∈ bone_names)) as [[Hnb Hcb]|Hnot].
      * rewrite (follows_bones_both _ _ _ Hc Hnb Hcb).
        apply (Hout c n); [done|]. by rewrite (follows_bones_both _ _ _ Hc Hnb Hcb).
      * rewrite (follows_bones_not_both _ _ _ Hc) by tauto.
        apply (Hout n c); [done|]. by rewrite (follows_bones_not_both _ _ _ Hc') by tauto.
  - replace (mirrored_name group_names n) with n
      by (unfold mirrored_name; by rewrite Hc).
    rewrite follows_bones_plain by done. unfold mirrored_name. by rewrite Hc.
Qed.

Lemma names_with_names {A : Type} {named : Named A} (f : string → string) (l : list A) :
  names ((fun x => with_name (f (name_of x)) x) <$> l) = f <$> names l.
Proof.
  unfold names. rewrite <- !list_fmap_compose. apply list_fmap_ext.
  intros i x _. simpl. apply name_of_with_name.
Qed.

Section sync_mirror_operator.
Context {host : Host}.

(** [mirror_names] on the vertex groups of an object of the scene. *)
Lemma mirror_groups_step (m : nat) (objects : list Object) (mesh : Object) :
  objects !! m = Some mesh →
  NoDup (names (vertex_groups mesh)) →
  (∀ n, n ∈ names (vertex_groups mesh) → startswith n "__swap_temp__" = false) →
  ∃ mesh',
    mirror_step VertexGroup m objects = <[m := mesh']> objects
    ∧ modifiers mesh' = modifiers mesh
    ∧ vertex_groups mesh'
      = (fun g => with_name (mirrored_name (names (vertex_groups mesh)) (vg_name g)) g)
          <$> vertex_groups mesh.
Proof.
  intros Hm Hnd Htemp. exists (mirror_names VertexGroup mesh).
  unfold mirror_step. rewrite Hm. split; [done|]. split; [done|].
  exact (mirror_names_members (A:=VertexGroup) mesh Hnd Htemp).
Qed.

(** [OBJECT_OT_quick_mirror_vertex_groups.execute] with
    synchronization, on a selection whose one mesh is deformed by one
    armature, group names and bone names being distinct and none of them
    beginning with "__swap_temp__". The operator mirrors the mesh, then the
    bones, then the mesh again, and while the bones are renamed the host
    renames the groups of the mesh along with them. What is left: the bones
    are mirrored; each vertex group of the mesh that is named after a bone
    has the name that this bone has now; every other vertex group has the
    name it had. A mesh whose groups are all named after bones is thus
    left mirrored as the bones are. *)
Theorem synchronized_mirror_follows_bones (selected_objects : list nat)
    (objects : list Object) (m a : nat) (mesh armature : Object) :
  selected_of_type MESH objects selected_objects = [m] →
  objects !! m = Some mesh →
  modifier_armatures objects mesh = [a] →
  objects !! a = Some armature →
  NoDup (names (vertex_groups mesh)) →
  (∀ n, n ∈ names (vertex_groups mesh) → startswith n "__swap_temp__" = false) →
  NoDup (names (bones armature)) →
  (∀ n, n ∈ names (bones armature) → startswith n "__swap_temp__" = false) →
  let out := quick_mirror_vertex_groups_execute true selected_objects objects in
  out_result out = FINISHED
  ∧ bones <$> out_objects out !! a
    = Some ((fun b => with_name (mirrored_name (names (bones armature)) (bone_name b)) b)
              <$> bones armature)
  ∧ vertex_groups <$> out_objects out !! m
    = Some ((fun g => with_name (follows_bones (names (bones armature)) (vg_name g)) g)
              <$> vertex_groups mesh)
  ∧ ((∀ n, n ∈ names (vertex_groups mesh) → n ∈ names (bones armature)) →
     vertex_groups <$> out_objects out !! m
     = Some ((fun g => with_name (mirrored_name (names (bones armature)) (vg_name g)) g)
               <$> vertex_groups mesh)).
Proof.
  intros Hsel Hm Harm Ha Hg Hg_temp Hb Hb_temp out. subst out.
  set (group_names := names (vertex_groups mesh)) in *.
  set (bone_names := names (bones armature)) in *.
  (* the mesh and its armature *)
  assert (Hlink : a ∈ modifier_armatures objects mesh)
    by (rewrite Harm; apply list_elem_of_here).
  apply elem_of_modifier_armatures in Hlink
    as (md & target & Hmd & Hty & Hobj & Ht & Htarget).
  rewrite Ha in Ht. injection Ht as <-.
  assert (Hmesh : obj_type mesh = MESH).
  { assert (Hin : m ∈ selected_of_type MESH objects selected_objects)
      by (rewrite Hsel; apply list_elem_of_here).
    apply elem_of_selected_of_type in Hin as [_ Hin].
    rewrite Hm in Hin. by injection Hin. }
  assert (Hma : m ≠ a).
  { intros ->. rewrite Hm in Ha. injection Ha as ->. congruence. }
  assert (Huses : uses_armature a mesh = true).
  { apply bool_decide_eq_true, Exists_exists. by exists md. }
  assert (Hlinks : get_armatures_from_meshes objects [m] = [(m, Single a)]).
  { unfold get_armatures_from_meshes. cbn [foldl]. rewrite Hm.
    cbn [fmap option_fmap option_map]. by rewrite Harm. }
  unfold quick_mirror_vertex_groups_execute. rewrite Hsel.
  rewrite decide_False by done.
  unfold meshes_with_multiple_armatures, single_armatures. rewrite Hlinks.
  cbn [filter list_filter is_Multiple snd fmap list_fmap omap list_omap].
  rewrite bool_decide_eq_false_2 by (by intros ?).
  cbn [andb out_result out_objects foldl remove_dups].
  change (if decide_rel elem_of a [] then [] else [a]) with [a]. cbn [foldl].
  (* the mesh, mirrored *)
  destruct (mirror_groups_step m objects mesh Hm Hg Hg_temp)
    as (mesh1 & -> & Hmod1 & Hgroups1).
  fold group_names in Hgroups1.
  set (objects1 := <[m := mesh1]> objects).
  assert (Hm1 : objects1 !! m = Some mesh1)
    by (apply list_lookup_insert_eq; by eapply lookup_lt_Some).
  assert (Ha1 : objects1 !! a = Some armature)
    by (unfold objects1; by rewrite list_lookup_insert_ne).
  assert (Hnames1 : names (vertex_groups mesh1) = mirrored_name group_names <$> group_names).
  { rewrite Hgroups1.
    exact (names_with_names (A:=VertexGroup) (mirrored_name group_names) _). }
  assert (Hg1 : NoDup (names (vertex_groups mesh1))).
  { rewrite Hnames1. apply NoDup_fmap_2_strong; [|done].
    intros n1 n2 Hn1 Hn2. by apply mirrored_name_inj. }
  assert (Hsub1 : ∀ n, n ∈ names (vertex_groups mesh1) → n ∈ group_names).
  { rewrite Hnames1. intros n (n0 & -> & Hn0)%list_elem_of_fmap.
    by apply mirrored_name_elem. }
  assert (Hg1_temp : ∀ n, n ∈ names (vertex_groups mesh1) →
                       startswith n "__swap_temp__" = false) by auto.
  (* the bones, mirrored, and the groups with them *)
  destruct (mirror_bone_names_lookup a objects1 armature Ha1 Hb Hb_temp m mesh1 Hm1)
    as (mesh2 & Hm2 & _ & _ & Hgroups2).
  rewrite (uses_armature_modifiers a mesh mesh1 Hmod1) in Hgroups2.
  specialize (Hgroups2 Huses Hg1 Hg1_temp). fold bone_names in Hgroups2.
  destruct (mirror_bone_names_lookup a objects1 armature Ha1 Hb Hb_temp a armature Ha1)
    as (armature2 & Ha2 & Hbones2 & _).
  rewrite decide_True in Hbones2 by done. fold bone_names in Hbones2.
  set (objects2 := mirror_bone_names a objects1) in *.
  assert (Hnames2 : names (vertex_groups mesh2)
                    = follows_bones bone_names <$> (mirrored_name group_names <$> group_names)).
  { rewrite Hgroups2, <- Hnames1.
    exact (names_with_names (A:=VertexGroup) (follows_bones bone_names) _). }
  assert (Hg2 : NoDup (names (vertex_groups mesh2))).
  { rewrite Hnames2, <- Hnames1. apply NoDup_fmap_2_strong; [|done].
    intros n1 n2 _ _ Heq.
    by rewrite <- (follows_bones_involutive bone_names n1), Heq,
         follows_bones_involutive. }
  assert (Hg2_temp : ∀ n, n ∈ names (vertex_groups mesh2) →
                       startswith n "__swap_temp__" = false).
  { rewrite Hnames2, <- Hnames1. intros n (n0 & -> & Hn0)%list_elem_of_fmap.
    unfold follows_bones. case_bool_decide as Hin.
    - by apply Hb_temp, mirrored_name_elem.
    - by apply Hg1_temp. }
  (* the mesh, mirrored again *)
  destruct (mirror_groups_step m objects2 mesh2 Hm2 Hg2 Hg2_temp)
    as (mesh3 & -> & _ & Hgroups3).
  assert (Hfinal : vertex_groups <$> <[m := mesh3]> objects2 !! m
                   = Some ((fun g => with_name (follows_bones bone_names (vg_name g)) g)
                             <$> vertex_groups mesh)).
  { rewrite list_lookup_insert_eq by (by eapply lookup_lt_Some).
    cbn [fmap option_fmap option_map]. f_equal.
    rewrite Hgroups3, Hnames2, Hgroups2, Hgroups1, <- !list_fmap_compose.
    apply list_fmap_ext. intros i g Hi. unfold compose.
    assert (Hn : vg_name g ∈ group_names).
    { apply list_elem_of_fmap. exists g. split; [done|]. by eapply list_elem_of_lookup_2. }
    change vg_name with (name_of (A:=VertexGroup)).
    rewrite !name_of_with_name, !with_name_with_name.
    pose proof (mirror_follow_mirror group_names bone_names (name_of g) Hn) as Hnet.
    rewrite <- list_fmap_compose in Hnet. unfold compose in Hnet. by rewrite Hnet. }
  split; [done|]. split; [|split].
  - by rewrite list_lookup_insert_ne, Ha2, <- Hbones2.
  - exact Hfinal.
  - intros Hall. rewrite Hfinal. f_equal. apply list_fmap_ext. intros i g Hi.
    unfold follows_bones. rewrite bool_decide_eq_true_2; [done|].
    apply Hall, list_elem_of_fmap. exists g. split; [done|]. by eapply list_elem_of_lookup_2.
Qed.

End sync_mirror_operator.

(** Mirroring the mesh Body with synchronization: its groups L_Arm and
    R_Arm, named after bones of its armature Rig, end up swapped as those
    bones are; its groups L_Ear and R_Ear, which no bone is named after,
    end up as they were. *)
Lemma synchronized_mirror_follows_bones_example :
  let objects :=
    [mesh_object "Body" [armature_modifier 1]
       [group "L_Arm" []; group "R_Arm" []; group "L_Ear" []; group "R_Ear" []] 0;
     armature_object "Rig" [bone "L_Arm"; bone "R_Arm"]] in
  let out := quick_mirror_vertex_groups_execute (host:=blender_host) true [0] objects in
  out_result out = FINISHED
  ∧ bones <$> out_objects out !! 1%nat = Some [bone "R_Arm"; bone "L_Arm"]
  ∧ vertex_groups <$> out_objects out !! 0%nat
    = Some [group "R_Arm" []; group "L_Arm" []; group "L_Ear" []; group "R_Ear" []].
Proof.
  intros objects out.
  destruct (synchronized_mirror_follows_bones (host:=blender_host) [0] objects 0 1
              (mesh_object "Body" [armature_modifier 1]
                 [group "L_Arm" []; group "R_Arm" []; group "L_Ear" []; group "R_Ear" []] 0)
              (armature_object "Rig" [bone "L_Arm"; bone "R_Arm"]))
    as (Hresult & Hbones & Hgroups & _).
  - reflexivity.
  - reflexivity.
  - reflexivity.
  - reflexivity.
  - compute_done.
  - by apply Forall_forall; compute_done.
  - compute_done.
  - by apply Forall_forall; compute_done.
  - exact (conj Hresult (conj Hbones Hgroups)).
Defined.
